(** * Tachyon IR and x86 emission: a shallow embedding

    The development follows the two source files of the compiler core:
    [source/ir/instructions.js] (IR types, constants, phi nodes and the
    instruction constructors generated by [instrMaker]) and the x86 backend
    interface ([x86.irToASM], [x86.insertEdgeTrans], [x86.insertMove] and
    the per-instruction policy objects).

    JavaScript exceptions (failed [assert]s, [TypeError]s) are modelled by
    the [result] type; objects with identity (constants, instructions,
    blocks) are modelled by references into explicit stores. *)

From Stdlib Require Import ZArith QArith Qcanon.
From stdpp Require Import base numbers gmap strings list.


(** ** Exceptions *)

(** The values thrown by the source.  The text of a count diagnostic is
    rendered by [pluralize] and [String], which live outside the modelled
    files, so the error keeps the ingredients of the message. *)
Inductive Error :=
  | AssertError (msg : string)
  | CountError (name : string) (got minExpected : nat) (maxExpected : option nat)
  | TypeError (what : string)
  | InvalidArgs (mnemonic : option string) (cause : Error).

Inductive result (A : Type) :=
  | Ok (a : A)
  | Err (e : Error).
Arguments Ok {A} a.
Arguments Err {A} e.

#[global] Instance result_ret : MRet result := λ A a, Ok a.

#[global] Instance result_bind : MBind result := λ A B k r,
  match r with
  | Ok a => k a
  | Err e => Err e
  end.

#[global] Instance result_fmap : FMap result := λ A B f r,
  match r with
  | Ok a => Ok (f a)
  | Err e => Err e
  end.

(** [assert (cond, msg)] *)
Definition assert (cond : bool) (msg : string) : result unit :=
  if cond then Ok tt else Err (AssertError msg).

Definition isOk {A} (r : result A) : bool :=
  match r with Ok _ => true | Err _ => false end.

Lemma bind_Ok {A B} (r : result A) (k : A → result B) (b : B) :
  r ≫= k = Ok b → ∃ a, r = Ok a ∧ k a = Ok b.
Proof. destruct r as [a|e]; simpl; [eauto | discriminate]. Qed.

Lemma assert_Ok cond msg : assert cond msg = Ok tt → cond = true.
Proof. unfold assert. destruct cond; [done | discriminate]. Qed.

(** ** IR types *)

Module IRType.

(** The members of the [IRType] enumeration object. *)
Inductive t :=
  | none | box | rptr
  | u8 | u16 | u32 | u64
  | i8 | i16 | i32 | i64
  | f64.

#[global] Instance eq_dec : EqDecision t.
Proof. solve_decision. Defined.

Definition PLATFORM_PTR_SIZE : nat := 8.

(** [IRTypeObj.name] *)
Definition name (ty : t) : string :=
  match ty with
  | none => "none" | box => "box" | rptr => "rptr"
  | u8 => "u8" | u16 => "u16" | u32 => "u32" | u64 => "u64"
  | i8 => "i8" | i16 => "i16" | i32 => "i32" | i64 => "i64"
  | f64 => "f64"
  end.

(** [IRTypeObj.size] *)
Definition size (ty : t) : nat :=
  match ty with
  | none => 0
  | box | rptr => PLATFORM_PTR_SIZE
  | u8 | i8 => 1
  | u16 | i16 => 2
  | u32 | i32 => 4
  | u64 | i64 | f64 => 8
  end.

(** [IRTypeObj.prototype.toString] *)
Definition toString (ty : t) : string := name ty.

Definition isPtrType (ty : t) : bool :=
  match ty with
  | rptr | box => true
  | _ => false
  end.

Definition isIntType (ty : t) : bool :=
  match ty with
  | u8 | u16 | u32 | u64 | i8 | i16 | i32 | i64 => true
  | _ => false
  end.

Definition isFPType (ty : t) : bool :=
  match ty with
  | f64 => true
  | _ => false
  end.

Definition isNumberType (ty : t) : bool := isIntType ty || isFPType ty.

(** Int type of width corresponding to a pointer on this platform. *)
Definition pint : t :=
  if Nat.eqb PLATFORM_PTR_SIZE 4 then i32 else i64.

(** An [IRTypeObj] has the fields [name] and [size] only: reading its
    [type] property yields [undefined]. *)
Definition type_property (ty : t) : option t := None.

End IRType.

(** [a === b] on type objects (identity of singletons). *)
Definition same_type (a b : IRType.t) : bool := bool_decide (a = b).

Lemma same_type_true a b : same_type a b = true ↔ a = b.
Proof. unfold same_type. apply bool_decide_eq_true. Qed.

(** ** IR values and instructions *)

(** Basic blocks are objects with identity; an instruction refers to its
    targets and to its parent by reference. *)
Definition BlockRef := nat.

(** The view an instruction constructor has of one of its input values:
    the content of the fields it reads.  [val_isIRFunction] answers
    [instanceof IRFunction] and [val_retType] is the [retType] field when
    it holds a type object. *)
Record IRValue := mkIRValue {
  val_type : IRType.t;
  val_isIRFunction : bool;
  val_retType : option IRType.t
}.

(** A constant, argument or instruction seen as a plain input of type [ty]. *)
Definition valueOfType (ty : IRType.t) : IRValue :=
  {| val_type := ty; val_isIRFunction := false; val_retType := None |}.

(** The fields of an [IRInstr] object; the initial values are those set by
    the [IRInstr] constructor, and [type] is inherited from [IRValue]. *)
Record IRInstr := mkIRInstr {
  mnemonic : string;
  outName : string;
  instrId : nat;
  type : IRType.t;
  typeParams : list IRType.t;
  uses : list IRValue;
  dests : list nat;
  targets : list BlockRef;
  sideEffects : bool;
  parentBlock : option BlockRef
}.

Definition new_IRInstr : IRInstr :=
  {| mnemonic := ""; outName := ""; instrId := 0; type := IRType.box;
     typeParams := []; uses := []; dests := []; targets := [];
     sideEffects := false; parentBlock := None |}.

Definition set_mnemonic (m : string) (i : IRInstr) : IRInstr :=
  mkIRInstr m (outName i) (instrId i) (type i) (typeParams i) (uses i)
            (dests i) (targets i) (sideEffects i) (parentBlock i).
Definition set_type (ty : IRType.t) (i : IRInstr) : IRInstr :=
  mkIRInstr (mnemonic i) (outName i) (instrId i) ty (typeParams i) (uses i)
            (dests i) (targets i) (sideEffects i) (parentBlock i).
Definition set_typeParams (tps : list IRType.t) (i : IRInstr) : IRInstr :=
  mkIRInstr (mnemonic i) (outName i) (instrId i) (type i) tps (uses i)
            (dests i) (targets i) (sideEffects i) (parentBlock i).
Definition set_uses (us : list IRValue) (i : IRInstr) : IRInstr :=
  mkIRInstr (mnemonic i) (outName i) (instrId i) (type i) (typeParams i) us
            (dests i) (targets i) (sideEffects i) (parentBlock i).
Definition set_targets (ts : list BlockRef) (i : IRInstr) : IRInstr :=
  mkIRInstr (mnemonic i) (outName i) (instrId i) (type i) (typeParams i)
            (uses i) (dests i) ts (sideEffects i) (parentBlock i).
Definition set_sideEffects (b : bool) (i : IRInstr) : IRInstr :=
  mkIRInstr (mnemonic i) (outName i) (instrId i) (type i) (typeParams i)
            (uses i) (dests i) (targets i) b (parentBlock i).

(** [IRInstr.prototype.isBranch], the method the kinds inherit. *)
Definition isBranch (i : IRInstr) : bool := bool_decide (0 < length (targets i)).

(** [RetInstr.prototype.isBranch] and [ThrowInstr.prototype.isBranch]:
    the prototypes of [ret] and [throw] have an [isBranch] of their own,
    which hides the inherited one. *)
Definition RetInstr_isBranch (i : IRInstr) : bool := true.
Definition ThrowInstr_isBranch (i : IRInstr) : bool := true.

(** The method a call [i.isBranch ()] runs: the one of the kind's own
    prototype ([own]) when there is one, the inherited one otherwise. *)
Definition isBranchMethod (own : option (IRInstr → bool)) (i : IRInstr) : bool :=
  match own with
  | Some method => method i
  | None => isBranch i
  end.

(** An initialisation function receives the three argument partitions and
    mutates [this]. *)
Definition InitFunc : Type :=
  list IRType.t → list IRValue → list BlockRef → IRInstr → result IRInstr.

(** A prototype object handed to [instrMaker]: the members a family adds
    to or overrides on a fresh [IRInstr]. *)
Record ProtoObj := mkProtoObj {
  proto_initFunc : option InitFunc;
  proto_sideEffects : bool
}.

(** [new IRInstr()] used as a prototype. *)
Definition IRInstrProto : ProtoObj :=
  {| proto_initFunc := None; proto_sideEffects := sideEffects new_IRInstr |}.

(** One positional argument of an instruction constructor, classified by
    the [instanceof] tests of [parseArgs]. *)
Inductive CtorArg :=
  | TypeArg (ty : IRType.t)
  | ValueArg (v : IRValue)
  | BlockArg (b : BlockRef)
  | OtherArg.

Fixpoint takeTypeParams (args : list CtorArg) : list IRType.t * list CtorArg :=
  match args with
  | TypeArg ty :: rest =>
      let '(tys, rest') := takeTypeParams rest in (ty :: tys, rest')
  | _ => ([], args)
  end.

Fixpoint takeInputVals (args : list CtorArg) : list IRValue * list CtorArg :=
  match args with
  | ValueArg v :: rest =>
      let '(vs, rest') := takeInputVals rest in (v :: vs, rest')
  | _ => ([], args)
  end.

Fixpoint takeBranchTargets (args : list CtorArg) : list BlockRef * list CtorArg :=
  match args with
  | BlockArg b :: rest =>
      let '(bs, rest') := takeBranchTargets rest in (b :: bs, rest')
  | _ => ([], args)
  end.

(** The name a possibly undefined mnemonic takes inside a string
    concatenation. *)
Definition mnemonicStr (mnemonic : option string) : string :=
  default "undefined" mnemonic.

(** [parseArgs]: the three loops advance [curIndex] over a run of type
    parameters, a run of input values and a run of branch targets; the
    final assertion requires that nothing is left. *)
Definition parseArgs (mnemonic : option string) (argArray : list CtorArg)
  : result (list IRType.t * list IRValue * list BlockRef) :=
  let '(typeParams, rest1) := takeTypeParams argArray in
  let '(inputVals, rest2) := takeInputVals rest1 in
  let '(branchTargets, rest3) := takeBranchTargets rest2 in
  assert (bool_decide (rest3 = []))
    ("invalid arguments passed to " +:+ mnemonicStr mnemonic +:+ " constructor");;
  Ok (typeParams, inputVals, branchTargets).

(** [setName]: the mnemonic synthesised from the base name. *)
Definition setName (mnemonic : option string)
    (typeParams : list IRType.t) (inputVals : list IRValue) : string :=
  if bool_decide (0 < length typeParams) then
    fold_left (λ m ty, m +:+ "_" +:+ IRType.toString ty) typeParams
              (mnemonicStr mnemonic)
  else
    let firstType :=
      match inputVals with
      | v :: _ => Some (val_type v)
      | [] => None
      end in
    let allSame :=
      fold_left (λ same v,
                   if bool_decide (Some (val_type v) ≠ firstType) then false
                   else same)
                inputVals true in
    let name := mnemonicStr mnemonic in
    if allSame then
      match firstType with
      | Some ty =>
          if bool_decide (ty ≠ IRType.box) then name +:+ "_" +:+ IRType.name ty
          else name
      | None => name
      end
    else
      fold_left (λ m v, m +:+ "_" +:+ IRType.toString (val_type v)) inputVals name.

(** [instrMaker]: the constructor closure [InstrConstr] for one kind;
    [baseName] is the [mnemonic] parameter of the source. *)
Definition instrMaker (baseName : option string) (initFunc : option InitFunc)
    (branchNames : option (list (option string))) (protoObj : option ProtoObj)
  : list CtorArg → result IRInstr :=
  let protoObj := default IRInstrProto protoObj in
  let initFunc :=
    match initFunc with
    | Some f => Some f
    | None => proto_initFunc protoObj
    end in
  λ inputs,
    '(typeParams, inputVals, branchTargets) ← parseArgs baseName inputs;
    let this := set_sideEffects (proto_sideEffects protoObj) new_IRInstr in
    this ← match
             match initFunc with
             | Some f => f typeParams inputVals branchTargets this
             | None => Err (TypeError "this.initFunc is not a function")
             end
           with
           | Ok this' => Ok this'
           | Err error => Err (InvalidArgs baseName error)
           end;
    let this :=
      if bool_decide (mnemonic this = "")
      then set_mnemonic (setName baseName typeParams inputVals) this
      else this in
    let this := set_typeParams typeParams this in
    let this := set_uses inputVals this in
    let this :=
      match branchNames with
      | Some _ => set_targets branchTargets this
      | None => this
      end in
    Ok this.

(** The upper bound of [validCount]: a number or [Infinity]. *)
Inductive Bound :=
  | Finite (n : nat)
  | Infinity.

Definition validCount {A} (name : string) (array : list A)
    (minExpected : nat) (maxExpected : option Bound) : result unit :=
  let maxExpected := default (Finite minExpected) maxExpected in
  let inRange :=
    bool_decide (minExpected ≤ length array) &&
    match maxExpected with
    | Finite m => bool_decide (length array ≤ m)
    | Infinity => true
    end in
  if inRange then Ok tt
  else Err (CountError name (length array) minExpected
              match maxExpected with Finite m => Some m | Infinity => None end).

Definition validNumParams {A} (typeParams : list A) minExpected maxExpected :=
  validCount "type parameter" typeParams minExpected maxExpected.
Definition validNumInputs {A} (inputVals : list A) minExpected maxExpected :=
  validCount "input value" inputVals minExpected maxExpected.
Definition validNumBranches {A} (branchTargets : list A) minExpected maxExpected :=
  validCount "branch target" branchTargets minExpected maxExpected.

(** [Array.prototype.forEach] with a callback that may throw. *)
Fixpoint forEach {A} (f : A → result unit) (l : list A) : result unit :=
  match l with
  | [] => Ok tt
  | x :: l' => f x;; forEach f l'
  end.

Definition allValsBoxed (inputVals : list IRValue) : result unit :=
  forEach (λ val, assert (same_type (val_type val) IRType.box)
                         "all input values must be boxed") inputVals.

Definition validType (value : IRValue) (expectedType : IRType.t) : result unit :=
  assert (same_type (val_type value) expectedType)
    ("got " +:+ IRType.toString (val_type value) +:+ " value, expected " +:+
     IRType.toString expectedType).

(** [array[i]] followed by a property read: a [TypeError] when the index
    is out of range. *)
Definition inputAt (inputVals : list IRValue) (i : nat) : result IRValue :=
  match inputVals !! i with
  | Some v => Ok v
  | None => Err (TypeError "cannot read property of undefined")
  end.

Definition typeParamAt (typeParams : list IRType.t) (i : nat) : result IRType.t :=
  match typeParams !! i with
  | Some ty => Ok ty
  | None => Err (TypeError "cannot read property of undefined")
  end.

(** A JavaScript value passed where [untypedInstrMaker] expects its
    [sideEffects] flag. *)
Inductive JSArg :=
  | JSBool (b : bool)
  | JSObject (proto : ProtoObj).

(** [untypedInstrMaker]: constructors of the instructions that operate on
    boxed values only.  [untyped_initFunc] is the inner [initFunc] closure;
    the output type is void when [voidOutput] is truthy and the flag is set
    when the [sideEffects] argument is not [undefined]. *)
Definition untyped_initFunc (numInputs : nat)
    (branchNames : option (list (option string))) (voidOutput : option bool)
    (sideEffectsArg : option JSArg) : InitFunc :=
  λ typeParams inputVals branchTargets this,
    validNumInputs inputVals numInputs None;;
    allValsBoxed inputVals;;
    cond ← (if bool_decide (length branchTargets = 0) &&
               negb (bool_decide (is_Some branchNames))
            then Ok true
            else match branchNames with
                 | Some names =>
                     Ok (bool_decide (length branchTargets = length names))
                 | None => Err (TypeError "cannot read property length of undefined")
                 end);
    assert cond "invalid number of branch targets specified";;
    let this :=
      set_type (if default false voidOutput then IRType.none else IRType.box) this in
    let this :=
      set_sideEffects (match sideEffectsArg with Some _ => true | None => false end)
                      this in
    Ok this.

Definition untypedInstrMaker (baseName : string) (numInputs : nat)
    (branchNames : option (list (option string))) (voidOutput : option bool)
    (sideEffectsArg : option JSArg) (protoObj : option ProtoObj)
  : list CtorArg → result IRInstr :=
  instrMaker (Some baseName)
    (Some (untyped_initFunc numInputs branchNames voidOutput sideEffectsArg))
    branchNames protoObj.

(** *** High-level instructions *)

Definition LogNotInstr := untypedInstrMaker "not" 1 None None None None.
Definition TypeOfInstr := untypedInstrMaker "typeof" 1 None None None None.
Definition InstOfInstr := untypedInstrMaker "instanceof" 2 None None None None.
Definition CatchInstr := untypedInstrMaker "catch" 0 None None None None.
Definition HasPropValInstr := untypedInstrMaker "has_prop_val" 2 None None None None.
Definition GetPropNamesInstr := untypedInstrMaker "get_prop_names" 1 None None None None.
Definition DelPropValInstr :=
  untypedInstrMaker "del_prop_val" 2 None (Some true) (Some (JSBool true)) None.
Definition MakeArgObjInstr := untypedInstrMaker "make_arg_obj" 1 None None None None.
Definition MakeCellInstr := untypedInstrMaker "make_cell" 0 None None None None.
Definition GetCellInstr := untypedInstrMaker "get_cell" 1 None None None None.
Definition PutCellInstr :=
  untypedInstrMaker "put_cell" 2 None (Some true) (Some (JSBool true)) None.
Definition MakeClosInstr :=
  instrMaker (Some "make_clos")
    (Some (λ typeParams inputVals branchTargets this,
       allValsBoxed inputVals;;
       validNumInputs inputVals 1 (Some Infinity);;
       v0 ← inputAt inputVals 0;
       assert (val_isIRFunction v0) "expected function as first argument";;
       Ok this))
    None None.
Definition GetClosInstr := untypedInstrMaker "get_clos" 2 None None None None.
Definition PutClosInstr :=
  untypedInstrMaker "put_clos" 3 None (Some true) (Some (JSBool true)) None.
Definition NewObjectInstr := untypedInstrMaker "new_object" 1 None None None None.
Definition NewArrayInstr := untypedInstrMaker "new_array" 0 None None None None.

(** *** Arithmetic operations without overflow handling *)

(** [ArithInstr.prototype.initFunc] *)
Definition ArithInstr_initFunc : InitFunc := λ typeParams inputVals branchTargets this,
  validNumInputs inputVals 2 None;;
  v0 ← inputAt inputVals 0;
  v1 ← inputAt inputVals 1;
  assert ((same_type (val_type v0) IRType.box ||
           IRType.isNumberType (val_type v0))
          &&
          same_type (val_type v1) (val_type v0))
         "invalid input types";;
  Ok (set_type (val_type v0) this).

(** [new ArithInstr()] *)
Definition ArithInstr : ProtoObj :=
  {| proto_initFunc := Some ArithInstr_initFunc;
     proto_sideEffects := sideEffects new_IRInstr |}.

Definition AddInstr_initFunc : InitFunc := λ typeParams inputVals branchTargets this,
  validNumInputs inputVals 2 None;;
  v0 ← inputAt inputVals 0;
  v1 ← inputAt inputVals 1;
  assert ((same_type (val_type v0) IRType.rptr &&
           same_type (val_type v1) IRType.pint)
          ||
          ((same_type (val_type v0) IRType.box ||
            IRType.isNumberType (val_type v0))
           &&
           same_type (val_type v1) (val_type v0)))
         "invalid input types";;
  Ok (set_type (val_type v0) this).

Definition AddInstr :=
  instrMaker (Some "add") (Some AddInstr_initFunc) None (Some ArithInstr).

Definition SubInstr_initFunc : InitFunc := λ typeParams inputVals branchTargets this,
  validNumInputs inputVals 2 None;;
  v0 ← inputAt inputVals 0;
  v1 ← inputAt inputVals 1;
  assert ((same_type (val_type v0) IRType.rptr &&
           same_type (val_type v1) IRType.pint)
          ||
          (same_type (val_type v0) IRType.rptr &&
           same_type (val_type v1) IRType.rptr)
          ||
          ((same_type (val_type v0) IRType.box ||
            IRType.isNumberType (val_type v0))
           &&
           same_type (val_type v1) (val_type v0)))
         "invalid input types";;
  if same_type (val_type v0) IRType.rptr &&
     same_type (val_type v1) IRType.rptr
  then Ok (set_type IRType.pint this)
  else Ok (set_type (val_type v0) this).

Definition SubInstr :=
  instrMaker (Some "sub") (Some SubInstr_initFunc) None (Some ArithInstr).

Definition MulInstr := instrMaker (Some "mul") None None (Some ArithInstr).
Definition DivInstr := instrMaker (Some "div") None None (Some ArithInstr).
Definition ModInstr := instrMaker (Some "mod") None None (Some ArithInstr).

(** *** Arithmetic operations with overflow handling *)

Definition ArithOvfInstr_initFunc : InitFunc := λ typeParams inputVals branchTargets this,
  validNumInputs inputVals 2 None;;
  v0 ← inputAt inputVals 0;
  v1 ← inputAt inputVals 1;
  assert ((same_type (val_type v0) IRType.pint &&
           same_type (val_type v1) (val_type v0))
          ||
          (same_type (val_type v0) IRType.box &&
           same_type (val_type v1) (val_type v0)))
         "invalid input types";;
  Ok (set_type (val_type v0) this).

Definition ArithOvfInstr : ProtoObj :=
  {| proto_initFunc := Some ArithOvfInstr_initFunc;
     proto_sideEffects := sideEffects new_IRInstr |}.

Definition ovfBranchNames : option (list (option string)) :=
  Some [Some "normal"; Some "overflow"].

Definition AddOvfInstr := instrMaker (Some "add_ovf") None ovfBranchNames (Some ArithOvfInstr).
Definition SubOvfInstr := instrMaker (Some "sub_ovf") None ovfBranchNames (Some ArithOvfInstr).
Definition MulOvfInstr := instrMaker (Some "mul_ovf") None ovfBranchNames (Some ArithOvfInstr).

(** *** Bitwise operations *)

Definition BitOpInstr_initFunc : InitFunc := λ typeParams inputVals branchTargets this,
  validNumInputs inputVals 2 None;;
  v0 ← inputAt inputVals 0;
  v1 ← inputAt inputVals 1;
  assert ((same_type (val_type v0) IRType.box
           &&
           (same_type (val_type v1) IRType.box ||
            same_type (val_type v1) IRType.pint))
          ||
          (IRType.isIntType (val_type v0) &&
           same_type (val_type v1) (val_type v0)))
         "invalid input types";;
  Ok (set_type (val_type v1) this).

Definition BitOpInstr : ProtoObj :=
  {| proto_initFunc := Some BitOpInstr_initFunc;
     proto_sideEffects := sideEffects new_IRInstr |}.

Definition NotInstr :=
  instrMaker (Some "not")
    (Some (λ typeParams inputVals branchTargets this,
       validNumInputs inputVals 1 None;;
       v0 ← inputAt inputVals 0;
       assert (same_type (val_type v0) IRType.box ||
               IRType.isIntType (val_type v0))
              "invalid input type";;
       Ok (set_type (val_type v0) this)))
    None (Some BitOpInstr).

Definition AndInstr := instrMaker (Some "and") None None (Some BitOpInstr).
Definition OrInstr := instrMaker (Some "or") None None (Some BitOpInstr).
Definition XorInstr := instrMaker (Some "xor") None None (Some BitOpInstr).
Definition LsftInstr := instrMaker (Some "lsft") None None (Some BitOpInstr).
Definition RsftInstr := instrMaker (Some "rsft") None None (Some BitOpInstr).
Definition UrsftInstr := instrMaker (Some "ursft") None None (Some BitOpInstr).

(** *** Comparison instructions *)

Definition CompInstr_initFunc : InitFunc := λ typeParams inputVals branchTargets this,
  validNumInputs inputVals 2 None;;
  v0 ← inputAt inputVals 0;
  v1 ← inputAt inputVals 1;
  assert ((same_type (val_type v0) IRType.box ||
           IRType.isNumberType (val_type v0))
          &&
          same_type (val_type v1) (val_type v0))
         "invalid input types";;
  if same_type (val_type v0) IRType.box
  then Ok (set_type IRType.box this)
  else Ok (set_type IRType.i8 this).

Definition CompInstr : ProtoObj :=
  {| proto_initFunc := Some CompInstr_initFunc;
     proto_sideEffects := sideEffects new_IRInstr |}.

Definition LtInstr := instrMaker (Some "lt") None None (Some CompInstr).
Definition LteInstr := instrMaker (Some "lte") None None (Some CompInstr).
Definition GtInstr := instrMaker (Some "gt") None None (Some CompInstr).
Definition GteInstr := instrMaker (Some "gte") None None (Some CompInstr).
Definition EqInstr := instrMaker (Some "eq") None None (Some CompInstr).
Definition NeqInstr := instrMaker (Some "neq") None None (Some CompInstr).

(** The fifth argument of [untypedInstrMaker] is its [sideEffects]
    parameter: the [CompInstr] object lands there, and the sixth
    ([protoObj]) is left undefined. *)
Definition SeqInstr :=
  untypedInstrMaker "seq" 2 None (Some false) (Some (JSObject CompInstr)) None.
Definition NseqInstr :=
  untypedInstrMaker "nseq" 2 None (Some false) (Some (JSObject CompInstr)) None.

(** *** Branching instructions *)

Definition JumpInstr :=
  untypedInstrMaker "jump" 0 (Some [None]) (Some true) None None.

Definition RetInstr :=
  instrMaker (Some "ret")
    (Some (λ typeParams inputVals branchTargets this,
       validNumInputs inputVals 1 None;;
       Ok (set_type IRType.none this)))
    None None.

Definition IfInstr :=
  instrMaker (Some "if")
    (Some (λ typeParams inputVals branchTargets this,
       validNumInputs inputVals 1 None;;
       v0 ← inputAt inputVals 0;
       assert (same_type (val_type v0) IRType.box ||
               same_type (val_type v0) IRType.i8)
              "input must be boxed or int8";;
       validNumBranches branchTargets 2 None;;
       Ok (set_type IRType.none this)))
    (Some [Some "then"; Some "else"]) None.

(** *** Exception-producing and call instructions *)

(** [new ExceptInstr()] *)
Definition ExceptInstr : ProtoObj :=
  {| proto_initFunc := None; proto_sideEffects := sideEffects new_IRInstr |}.

Definition ThrowInstr :=
  instrMaker (Some "throw")
    (Some (λ typeParams inputVals branchTargets this,
       validNumInputs inputVals 1 None;;
       v0 ← inputAt inputVals 0;
       validType v0 IRType.box;;
       validNumBranches branchTargets 0 (Some (Finite 1));;
       Ok (set_type IRType.none this)))
    (Some [Some "to"]) (Some ExceptInstr).

(** [new CallInstr()]: calls are conservatively assumed to have side
    effects. *)
Definition CallInstr : ProtoObj :=
  {| proto_initFunc := None; proto_sideEffects := true |}.

Definition callBranchNames : option (list (option string)) :=
  Some [Some "continue"; Some "throw"].

Definition CallFuncInstr :=
  instrMaker None
    (Some (λ typeParams inputVals branchTargets this,
       let this := set_mnemonic "call" this in
       validNumInputs inputVals 2 (Some Infinity);;
       v0 ← inputAt inputVals 0;
       validType v0 IRType.box;;
       v1 ← inputAt inputVals 1;
       validType v1 IRType.box;;
       validNumBranches branchTargets 0 (Some (Finite 2));;
       match val_retType v0 with
       | Some retType => Ok (set_type retType this)
       | None => Ok (set_type IRType.box this)
       end))
    callBranchNames (Some CallInstr).

Definition ConstructInstr :=
  instrMaker None
    (Some (λ typeParams inputVals branchTargets this,
       let this := set_mnemonic "construct" this in
       validNumInputs inputVals 2 (Some Infinity);;
       v0 ← inputAt inputVals 0;
       validType v0 IRType.box;;
       v1 ← inputAt inputVals 1;
       validType v1 IRType.box;;
       validNumBranches branchTargets 0 (Some (Finite 2));;
       Ok (set_type IRType.box this)))
    callBranchNames (Some CallInstr).

Definition PutPropValInstr :=
  instrMaker (Some "put_prop_val")
    (Some (λ typeParams inputVals branchTargets this,
       validNumInputs inputVals 3 None;;
       v0 ← inputAt inputVals 0;
       validType v0 IRType.box;;
       v1 ← inputAt inputVals 1;
       validType v1 IRType.box;;
       v2 ← inputAt inputVals 2;
       validType v2 IRType.box;;
       validNumBranches branchTargets 0 (Some (Finite 2));;
       Ok (set_type IRType.none this)))
    callBranchNames (Some CallInstr).

Definition GetPropValInstr :=
  instrMaker (Some "get_prop_val")
    (Some (λ typeParams inputVals branchTargets this,
       validNumInputs inputVals 2 None;;
       v0 ← inputAt inputVals 0;
       validType v0 IRType.box;;
       v1 ← inputAt inputVals 1;
       validType v1 IRType.box;;
       validNumBranches branchTargets 0 (Some (Finite 2));;
       Ok (set_type IRType.box this)))
    callBranchNames (Some CallInstr).

(** *** Type conversion instructions *)

Definition UnboxInstr :=
  instrMaker (Some "unbox")
    (Some (λ typeParams inputVals branchTargets this,
       validNumParams typeParams 1 None;;
       validNumInputs inputVals 1 None;;
       tp0 ← typeParamAt typeParams 0;
       assert (same_type tp0 IRType.pint) "type parameter should be platform int";;
       v0 ← inputAt inputVals 0;
       validType v0 IRType.box;;
       Ok (set_type tp0 this)))
    None None.

Definition BoxInstr :=
  instrMaker (Some "box")
    (Some (λ typeParams inputVals branchTargets this,
       validNumParams typeParams 1 None;;
       validNumInputs inputVals 1 None;;
       tp0 ← typeParamAt typeParams 0;
       assert (same_type tp0 IRType.pint) "type parameter should be platform int";;
       v0 ← inputAt inputVals 0;
       validType v0 tp0;;
       Ok (set_type IRType.box this)))
    None None.

Definition ICastInstr :=
  instrMaker (Some "icast")
    (Some (λ typeParams inputVals branchTargets this,
       validNumParams typeParams 1 None;;
       validNumInputs inputVals 1 None;;
       v0 ← inputAt inputVals 0;
       tp0 ← typeParamAt typeParams 0;
       assert ((IRType.isIntType (val_type v0) ||
                same_type (val_type v0) IRType.box ||
                same_type (val_type v0) IRType.rptr)
               &&
               (IRType.isIntType tp0 ||
                same_type tp0 IRType.box ||
                same_type tp0 IRType.rptr))
              "type parameters must be integer or raw pointer";;
       Ok (set_type tp0 this)))
    None None.

(** [itof]: both count checks are applied to [inputVals]; the type
    parameter is compared by identity, without a property read, so a
    missing one fails the assertion. *)
Definition IToFPInstr :=
  instrMaker (Some "itof")
    (Some (λ typeParams inputVals branchTargets this,
       validNumParams inputVals 1 None;;
       validNumInputs inputVals 1 None;;
       v0 ← inputAt inputVals 0;
       assert (same_type (val_type v0) IRType.pint &&
               bool_decide (typeParams !! 0 = Some IRType.f64))
              "invalid type parameters";;
       tp0 ← typeParamAt typeParams 0;
       Ok (set_type tp0 this)))
    None None.

(** [ftoi]: the assertion reads [typeParams[0].type], the [type] property
    of a type object, and compares it with [f64]. *)
Definition FPToIInstr :=
  instrMaker (Some "ftoi")
    (Some (λ typeParams inputVals branchTargets this,
       validNumParams inputVals 1 None;;
       validNumInputs inputVals 1 None;;
       tp0 ← typeParamAt typeParams 0;
       assert (bool_decide (IRType.type_property tp0 = Some IRType.f64) &&
               same_type tp0 IRType.pint)
              "invalid type parameters";;
       Ok (set_type tp0 this)))
    None None.

(** *** Memory access instructions *)

Definition LoadInstr :=
  instrMaker (Some "load")
    (Some (λ typeParams inputVals branchTargets this,
       validNumParams typeParams 1 None;;
       validNumInputs inputVals 2 None;;
       v0 ← inputAt inputVals 0;
       assert (IRType.isPtrType (val_type v0)) "the first input must be a pointer";;
       v1 ← inputAt inputVals 1;
       validType v1 IRType.pint;;
       tp0 ← typeParamAt typeParams 0;
       Ok (set_type tp0 this)))
    None None.

Definition StoreInstr :=
  instrMaker (Some "store")
    (Some (λ typeParams inputVals branchTargets this,
       validNumParams typeParams 1 None;;
       validNumInputs inputVals 3 None;;
       v0 ← inputAt inputVals 0;
       assert (IRType.isPtrType (val_type v0)) "the first input must be a pointer";;
       v1 ← inputAt inputVals 1;
       validType v1 IRType.pint;;
       v2 ← inputAt inputVals 2;
       tp0 ← typeParamAt typeParams 0;
       validType v2 tp0;;
       Ok (set_sideEffects true (set_type IRType.none this))))
    None None.

Definition GetCtxInstr :=
  instrMaker (Some "get_ctx")
    (Some (λ typeParams inputVals branchTargets this,
       validNumInputs inputVals 0 None;;
       Ok (set_type IRType.rptr this)))
    None None.

Definition SetCtxInstr :=
  instrMaker (Some "set_ctx")
    (Some (λ typeParams inputVals branchTargets this,
       validNumInputs inputVals 1 None;;
       v0 ← inputAt inputVals 0;
       validType v0 IRType.rptr;;
       Ok (set_sideEffects true (set_type IRType.none this))))
    None None.

(** ** Properties of instruction construction *)

Section construction.

Implicit Types (args : list CtorArg) (i this : IRInstr).
Implicit Types (typeParams : list IRType.t) (inputVals : list IRValue).
Implicit Types (branchTargets : list BlockRef).

Lemma takeTypeParams_app typeParams rest :
  match rest with TypeArg _ :: _ => False | _ => True end →
  takeTypeParams (map TypeArg typeParams ++ rest) = (typeParams, rest).
Proof.
  intros Hrest. induction typeParams as [|ty tys IH]; simpl.
  - destruct rest as [|[] ?]; simpl in *; done.
  - by rewrite IH.
Qed.

Lemma takeInputVals_app inputVals rest :
  match rest with ValueArg _ :: _ => False | _ => True end →
  takeInputVals (map ValueArg inputVals ++ rest) = (inputVals, rest).
Proof.
  intros Hrest. induction inputVals as [|v vs IH]; simpl.
  - destruct rest as [|[] ?]; simpl in *; done.
  - by rewrite IH.
Qed.

Lemma takeBranchTargets_map branchTargets :
  takeBranchTargets (map BlockArg branchTargets) = (branchTargets, []).
Proof. induction branchTargets as [|b bs IH]; simpl; [done | by rewrite IH]. Qed.

Lemma takeTypeParams_spec args tys rest :
  takeTypeParams args = (tys, rest) → args = map TypeArg tys ++ rest.
Proof.
  revert tys rest. induction args as [|a args IH]; intros tys rest; simpl.
  - by intros [= <- <-].
  - destruct a; try by intros [= <- <-].
    destruct (takeTypeParams args) as [tys' rest'] eqn:E.
    intros [= <- <-]. simpl. f_equal. by apply IH.
Qed.

Lemma takeInputVals_spec args vs rest :
  takeInputVals args = (vs, rest) → args = map ValueArg vs ++ rest.
Proof.
  revert vs rest. induction args as [|a args IH]; intros vs rest; simpl.
  - by intros [= <- <-].
  - destruct a; try by intros [= <- <-].
    destruct (takeInputVals args) as [vs' rest'] eqn:E.
    intros [= <- <-]. simpl. f_equal. by apply IH.
Qed.

Lemma takeBranchTargets_spec args bs rest :
  takeBranchTargets args = (bs, rest) → args = map BlockArg bs ++ rest.
Proof.
  revert bs rest. induction args as [|a args IH]; intros bs rest; simpl.
  - by intros [= <- <-].
  - destruct a; try by intros [= <- <-].
    destruct (takeBranchTargets args) as [bs' rest'] eqn:E.
    intros [= <- <-]. simpl. f_equal. by apply IH.
Qed.

(** Arguments given in the order type parameters, input values, branch
    targets are partitioned into these three runs. *)
Lemma parseArgs_partition baseName typeParams inputVals branchTargets :
  parseArgs baseName
    (map TypeArg typeParams ++ map ValueArg inputVals ++ map BlockArg branchTargets)
  = Ok (typeParams, inputVals, branchTargets).
Proof.
  unfold parseArgs.
  rewrite takeTypeParams_app.
  2: { destruct inputVals, branchTargets; simpl; done. }
  rewrite takeInputVals_app.
  2: { destruct branchTargets; simpl; done. }
  by rewrite takeBranchTargets_map.
Qed.

(** Conversely, a successful parse means the arguments had that shape. *)
Lemma parseArgs_Ok baseName args typeParams inputVals branchTargets :
  parseArgs baseName args = Ok (typeParams, inputVals, branchTargets) →
  args = map TypeArg typeParams ++ map ValueArg inputVals ++ map BlockArg branchTargets.
Proof.
  unfold parseArgs.
  destruct (takeTypeParams args) as [tys r1] eqn:E1.
  destruct (takeInputVals r1) as [vs r2] eqn:E2.
  destruct (takeBranchTargets r2) as [bs r3] eqn:E3.
  intros H. apply bind_Ok in H as ([] & Ha & [= <- <- <-]).
  apply assert_Ok, bool_decide_eq_true in Ha. subst r3.
  apply takeTypeParams_spec in E1. apply takeInputVals_spec in E2.
  apply takeBranchTargets_spec in E3.
  rewrite app_nil_r in E3. by subst.
Qed.

End construction.

(** ** Arithmetic typing *)

(** The typing rule of [add] in the words of the specification: matching
    inputs of a boxed or numeric type keep their type, and a raw pointer
    plus a platform integer is a raw pointer. *)
Definition add_rule (t0 t1 : IRType.t) : option IRType.t :=
  if bool_decide (t0 = t1) && (bool_decide (t0 = IRType.box) || IRType.isNumberType t0)
  then Some t0
  else if bool_decide (t0 = IRType.rptr) && bool_decide (t1 = IRType.pint)
  then Some IRType.rptr
  else None.

(** The rule of [sub]: as [add], and the difference of two raw pointers is
    a platform integer. *)
Definition sub_rule (t0 t1 : IRType.t) : option IRType.t :=
  if bool_decide (t0 = t1) && (bool_decide (t0 = IRType.box) || IRType.isNumberType t0)
  then Some t0
  else if bool_decide (t0 = IRType.rptr) && bool_decide (t1 = IRType.pint)
  then Some IRType.rptr
  else if bool_decide (t0 = IRType.rptr) && bool_decide (t1 = IRType.rptr)
  then Some IRType.pint
  else None.

(** The outcome the specification prescribes for a constructor call. *)
Definition constructs_with (r : result IRInstr) (rule : option IRType.t)
    (inputVals : list IRValue) : Prop :=
  match rule with
  | Some ty => ∃ i, r = Ok i ∧ type i = ty ∧ uses i = inputVals
  | None => ∃ e, r = Err e
  end.

Section arithmetic.

Implicit Types (typeParams : list IRType.t) (branchTargets : list BlockRef).

Lemma AddInstr_typing typeParams v0 v1 branchTargets :
  constructs_with
    (AddInstr (map TypeArg typeParams ++ map ValueArg [v0; v1] ++
               map BlockArg branchTargets))
    (add_rule (val_type v0) (val_type v1)) [v0; v1].
Proof.
  unfold AddInstr, AddInstr_initFunc, instrMaker. rewrite parseArgs_partition.
  destruct v0 as [t0 f0 r0], v1 as [t1 f1 r1].
  destruct t0, t1; simpl; eauto.
Qed.

Lemma SubInstr_typing typeParams v0 v1 branchTargets :
  constructs_with
    (SubInstr (map TypeArg typeParams ++ map ValueArg [v0; v1] ++
               map BlockArg branchTargets))
    (sub_rule (val_type v0) (val_type v1)) [v0; v1].
Proof.
  unfold SubInstr, SubInstr_initFunc, instrMaker. rewrite parseArgs_partition.
  destruct v0 as [t0 f0 r0], v1 as [t1 f1 r1].
  destruct t0, t1; simpl; eauto.
Qed.

(** C3 (arithmetic typing).  For [add] and [sub] called with two input
    values (after any type parameters and before any branch targets):
    inputs of the same boxed or numeric type construct with that output
    type; [add (rptr, pint)] and [sub (rptr, pint)] construct with type
    [rptr]; [sub (rptr, rptr)] constructs with type [pint]; every other
    combination of input types is rejected. *)
Theorem add_sub_typing typeParams v0 v1 branchTargets :
  constructs_with
    (AddInstr (map TypeArg typeParams ++ map ValueArg [v0; v1] ++
               map BlockArg branchTargets))
    (add_rule (val_type v0) (val_type v1)) [v0; v1]
  ∧
  constructs_with
    (SubInstr (map TypeArg typeParams ++ map ValueArg [v0; v1] ++
               map BlockArg branchTargets))
    (sub_rule (val_type v0) (val_type v1)) [v0; v1].
Proof. split; [apply AddInstr_typing | apply SubInstr_typing]. Qed.

Example sub_rptr_rptr :
  type <$> SubInstr [ValueArg (valueOfType IRType.rptr);
                     ValueArg (valueOfType IRType.rptr)]
  = Ok IRType.pint.
Proof. reflexivity. Qed.

End arithmetic.

(** ** Mnemonic synthesis *)

(** ["_" + t] for each type of a list, in order. *)
Definition typeSuffixes (tys : list IRType.t) : string :=
  String.concat "" (map (λ ty, "_" +:+ IRType.name ty) tys).

(** The rule in the words of the specification: explicit type parameters
    are appended; otherwise, if all input types are the same and not
    [box], that type is appended; otherwise every input type is
    appended. *)
Definition spec_mnemonic (base : string) (typeParams : list IRType.t)
    (inputVals : list IRValue) : string :=
  match typeParams with
  | _ :: _ => base +:+ typeSuffixes typeParams
  | [] =>
      match inputVals with
      | v :: _ =>
          if forallb (λ w, same_type (val_type w) (val_type v)) inputVals &&
             negb (same_type (val_type v) IRType.box)
          then base +:+ "_" +:+ IRType.name (val_type v)
          else base +:+ typeSuffixes (map val_type inputVals)
      | [] => base +:+ typeSuffixes (map val_type inputVals)
      end
  end.

(** The rule the constructor follows: when all input types are the same,
    that type is appended once unless it is [box], in which case nothing
    is appended. *)
Definition uniform_mnemonic (base : string) (typeParams : list IRType.t)
    (inputVals : list IRValue) : string :=
  match typeParams with
  | _ :: _ => base +:+ typeSuffixes typeParams
  | [] =>
      match inputVals with
      | v :: _ =>
          if forallb (λ w, same_type (val_type w) (val_type v)) inputVals
          then if same_type (val_type v) IRType.box then base
               else base +:+ "_" +:+ IRType.name (val_type v)
          else base +:+ typeSuffixes (map val_type inputVals)
      | [] => base
      end
  end.

(** An initialisation function that leaves the mnemonic alone: the kinds
    whose mnemonic is synthesised by the constructor. *)
Definition keeps_mnemonic (f : InitFunc) : Prop :=
  ∀ typeParams inputVals branchTargets this this',
    f typeParams inputVals branchTargets this = Ok this' →
    mnemonic this' = mnemonic this.

(** The initialisation function a constructor ends up calling. *)
Definition effectiveInitFunc (initFunc : option InitFunc)
    (protoObj : option ProtoObj) : option InitFunc :=
  match initFunc with
  | Some f => Some f
  | None => proto_initFunc (default IRInstrProto protoObj)
  end.

Section mnemonics.

Lemma append_assoc (a b c : string) : (a +:+ b) +:+ c = a +:+ b +:+ c.
Proof.
  induction a as [|ch a IH]; [done|].
  change (String ch ((a +:+ b) +:+ c) = String ch (a +:+ b +:+ c)).
  by rewrite IH.
Qed.

Lemma append_empty_r (a : string) : a +:+ "" = a.
Proof.
  induction a as [|ch a IH]; [done|].
  change (String ch (a +:+ "") = String ch a). by rewrite IH.
Qed.

Lemma concat_empty_cons (s : string) (l : list string) :
  String.concat "" (s :: l) = s +:+ String.concat "" l.
Proof. destruct l; [by rewrite append_empty_r | done]. Qed.

Lemma fold_typeSuffixes (tys : list IRType.t) (acc : string) :
  fold_left (λ m ty, m +:+ "_" +:+ IRType.toString ty) tys acc
  = acc +:+ typeSuffixes tys.
Proof.
  revert acc. induction tys as [|ty tys IH]; intros acc.
  - simpl. by rewrite append_empty_r.
  - cbn [fold_left]. rewrite IH. unfold typeSuffixes.
    cbn [map]. rewrite concat_empty_cons, !append_assoc. done.
Qed.

Lemma fold_valueSuffixes (vs : list IRValue) (acc : string) :
  fold_left (λ m v, m +:+ "_" +:+ IRType.toString (val_type v)) vs acc
  = acc +:+ typeSuffixes (map val_type vs).
Proof.
  revert acc. induction vs as [|v vs IH]; intros acc.
  - simpl. by rewrite append_empty_r.
  - cbn [fold_left]. rewrite IH. unfold typeSuffixes.
    cbn [map]. rewrite concat_empty_cons, !append_assoc. done.
Qed.

(** The [allSame] loop computes a conjunction over the inputs. *)
Lemma fold_allSame (first : option IRType.t) (vs : list IRValue) (acc : bool) :
  fold_left (λ same v,
               if bool_decide (Some (val_type v) ≠ first) then false else same)
            vs acc
  = acc && forallb (λ w, bool_decide (Some (val_type w) = first)) vs.
Proof.
  revert acc. induction vs as [|v vs IH]; intros acc; simpl.
  - by rewrite andb_true_r.
  - rewrite IH. destruct (decide (Some (val_type v) = first)) as [E|E].
    + rewrite (bool_decide_eq_false_2 _ (λ H, H E)), (bool_decide_eq_true_2 _ E).
      done.
    + rewrite (bool_decide_eq_true_2 _ E), (bool_decide_eq_false_2 _ E).
      simpl. by rewrite andb_false_r.
Qed.

Lemma forallb_pointwise {A} (f g : A → bool) (l : list A) :
  (∀ x, f x = g x) → forallb f l = forallb g l.
Proof. intros E. induction l as [|x l IH]; simpl; [done | by rewrite E, IH]. Qed.

Lemma setName_uniform base typeParams inputVals :
  setName (Some base) typeParams inputVals
  = uniform_mnemonic base typeParams inputVals.
Proof.
  unfold setName, uniform_mnemonic.
  destruct typeParams as [|ty tys].
  - rewrite bool_decide_eq_false_2 by (simpl; lia).
    rewrite fold_allSame, fold_valueSuffixes. simpl.
    destruct inputVals as [|v vs]; [done|].
    assert (forallb (λ w, bool_decide (Some (val_type w) = Some (val_type v))) (v :: vs)
            = forallb (λ w, same_type (val_type w) (val_type v)) (v :: vs)) as ->.
    { apply forallb_pointwise. intros w. unfold same_type.
      apply bool_decide_ext. split; [by intros [= ->] | by intros ->]. }
    destruct (forallb _ (v :: vs)); [|done].
    unfold same_type.
    destruct (decide (val_type v = IRType.box)) as [E|E].
    + by rewrite (bool_decide_eq_false_2 _ (λ H, H E)), (bool_decide_eq_true_2 _ E).
    + by rewrite (bool_decide_eq_true_2 _ E), (bool_decide_eq_false_2 _ E).
  - rewrite bool_decide_eq_true_2 by (simpl; lia).
    by rewrite fold_typeSuffixes.
Qed.

(** A constructed instruction stores the partitions it was given. *)
Lemma instrMaker_Ok baseName initFunc branchNames protoObj args i :
  instrMaker baseName initFunc branchNames protoObj args = Ok i →
  ∃ tps ivs bts f this',
    parseArgs baseName args = Ok (tps, ivs, bts) ∧
    effectiveInitFunc initFunc protoObj = Some f ∧
    f tps ivs bts
      (set_sideEffects (proto_sideEffects (default IRInstrProto protoObj)) new_IRInstr)
    = Ok this' ∧
    typeParams i = tps ∧
    uses i = ivs ∧
    type i = type this' ∧
    sideEffects i = sideEffects this' ∧
    targets i = match branchNames with
                | Some _ => bts
                | None => targets this'
                end ∧
    mnemonic i = (if bool_decide (mnemonic this' = "")
                  then setName baseName tps ivs
                  else mnemonic this').
Proof.
  unfold instrMaker, effectiveInitFunc. intros H.
  apply bind_Ok in H as ([[tps ivs] bts] & Hparse & H).
  apply bind_Ok in H as (this' & Hinit & H).
  exists tps, ivs, bts.
  destruct (match initFunc with Some f => Some f | None => _ end) as [f|];
    [|discriminate].
  exists f, this'. split; [done|]. split; [done|].
  destruct (f tps ivs bts _) as [t|e] eqn:Hf; [|discriminate].
  injection Hinit as ->. split; [done|].
  injection H as <-.
  destruct branchNames, (bool_decide (mnemonic this' = "")); simpl; done.
Qed.

Ltac keeps_mnemonic_tac :=
  intros typeParams inputVals branchTargets this this' H;
  repeat (apply bind_Ok in H as (? & _ & H));
  repeat match type of H with
         | (if ?c then _ else _) = _ => destruct c
         end;
  injection H as <-; reflexivity.

Lemma ArithInstr_keeps_mnemonic : keeps_mnemonic ArithInstr_initFunc.
Proof. unfold ArithInstr_initFunc. keeps_mnemonic_tac. Qed.

Lemma AddInstr_keeps_mnemonic : keeps_mnemonic AddInstr_initFunc.
Proof. unfold AddInstr_initFunc. keeps_mnemonic_tac. Qed.

Lemma SubInstr_keeps_mnemonic : keeps_mnemonic SubInstr_initFunc.
Proof. unfold SubInstr_initFunc. keeps_mnemonic_tac. Qed.

Lemma CompInstr_keeps_mnemonic : keeps_mnemonic CompInstr_initFunc.
Proof. unfold CompInstr_initFunc. keeps_mnemonic_tac. Qed.

Lemma untyped_keeps_mnemonic numInputs branchNames voidOutput sideEffectsArg :
  keeps_mnemonic (untyped_initFunc numInputs branchNames voidOutput sideEffectsArg).
Proof. unfold untyped_initFunc. keeps_mnemonic_tac. Qed.

(** C4, as the constructor behaves.  For every instruction kind whose
    initialisation function does not set the mnemonic itself, the
    constructed mnemonic is the base name followed by ["_<t>"] for each
    explicit type parameter when there are type parameters; otherwise,
    when all input types are the same, by that type's name once unless
    the type is [box] (then by nothing); otherwise by every input's
    type name in input order. *)
Theorem mnemonic_synthesis base initFunc branchNames protoObj f args i :
  effectiveInitFunc initFunc protoObj = Some f →
  keeps_mnemonic f →
  instrMaker (Some base) initFunc branchNames protoObj args = Ok i →
  mnemonic i = uniform_mnemonic base (typeParams i) (uses i).
Proof.
  intros Hf Hkeep Hi.
  apply instrMaker_Ok in Hi
    as (tps & ivs & bts & f' & this' & _ & Hf' & Hinit & -> & -> & _ & _ & _ & ->).
  rewrite Hf in Hf'. injection Hf' as <-.
  apply Hkeep in Hinit. simpl in Hinit. rewrite Hinit.
  rewrite bool_decide_eq_true_2 by done.
  apply setName_uniform.
Qed.

(** [add] of two [i32] constants is named [add_i32]. *)
Lemma mnemonic_synthesis_witness :
  let args := [ValueArg (valueOfType IRType.i32); ValueArg (valueOfType IRType.i32)] in
  ∃ i, AddInstr args = Ok i ∧
       mnemonic i = uniform_mnemonic "add" (typeParams i) (uses i) ∧
       mnemonic i = "add_i32".
Proof.
  intros args.
  destruct (AddInstr args) as [i|e] eqn:Hi; [|discriminate Hi].
  exists i. split; [reflexivity|]. split.
  - exact (mnemonic_synthesis "add" (Some AddInstr_initFunc) None (Some ArithInstr)
             AddInstr_initFunc args i eq_refl AddInstr_keeps_mnemonic Hi).
  - injection Hi as <-. reflexivity.
Defined.

(** C4, as worded, fails on boxed inputs: [add] of two boxed values is
    named [add], where the worded rule appends every input type. *)
Lemma mnemonic_boxed_counterexample :
  ∃ i, AddInstr [ValueArg (valueOfType IRType.box);
                 ValueArg (valueOfType IRType.box)] = Ok i ∧
       mnemonic i = "add" ∧
       spec_mnemonic "add" (typeParams i) (uses i) = "add_box_box" ∧
       mnemonic i ≠ spec_mnemonic "add" (typeParams i) (uses i).
Proof. eexists. split; [reflexivity|]. repeat split. discriminate. Qed.

(** The worded rule and the rule of the constructor differ on uniformly
    boxed inputs only. *)
Lemma uniform_mnemonic_spec base typeParams inputVals :
  (typeParams = [] → inputVals ≠ [] →
   ¬ Forall (λ w, val_type w = IRType.box) inputVals) →
  uniform_mnemonic base typeParams inputVals
  = spec_mnemonic base typeParams inputVals.
Proof.
  intros Hnot. unfold uniform_mnemonic, spec_mnemonic.
  destruct typeParams as [|ty tys]; [|done].
  destruct inputVals as [|v vs]; [by rewrite append_empty_r|].
  destruct (forallb _ (v :: vs)) eqn:Hall; [|done].
  destruct (same_type (val_type v) IRType.box) eqn:Hbox; [|done].
  destruct Hnot; [done..|].
  apply same_type_true in Hbox. apply Forall_forall. intros w Hw.
  rewrite forallb_forall in Hall. apply list_elem_of_In, Hall in Hw.
  apply same_type_true in Hw. congruence.
Qed.

(** [add] of a raw pointer and a platform integer is named after both
    input types. *)
Example add_rptr_pint_mnemonic :
  mnemonic <$> AddInstr [ValueArg (valueOfType IRType.rptr);
                         ValueArg (valueOfType IRType.pint)]
  = Ok "add_rptr_i64".
Proof. reflexivity. Qed.

End mnemonics.

(** ** Instructions on boxed values: [jump], [seq], [nseq] *)

Section untyped.

Lemma validCount_exact {A} name (array : list A) n :
  validCount name array n None = Ok tt → length array = n.
Proof.
  unfold validCount. simpl.
  destruct (bool_decide (n ≤ length array)) eqn:E1;
    destruct (bool_decide (length array ≤ n)) eqn:E2; simpl; try discriminate.
  apply bool_decide_eq_true in E1, E2. lia.
Qed.

Lemma allValsBoxed_Ok inputVals :
  allValsBoxed inputVals = Ok tt →
  Forall (λ v, val_type v = IRType.box) inputVals.
Proof.
  unfold allValsBoxed. induction inputVals as [|v vs IH]; simpl; intros H.
  - constructor.
  - apply bind_Ok in H as ([] & Hv & H).
    apply assert_Ok, same_type_true in Hv. constructor; auto.
Qed.

(** What a successful call of an [untypedInstrMaker] constructor
    establishes. *)
Lemma untypedInstrMaker_Ok baseName numInputs branchNames voidOutput
    sideEffectsArg protoObj args i :
  untypedInstrMaker baseName numInputs branchNames voidOutput sideEffectsArg
                    protoObj args = Ok i →
  ∃ tps ivs bts,
    args = map TypeArg tps ++ map ValueArg ivs ++ map BlockArg bts ∧
    uses i = ivs ∧
    length ivs = numInputs ∧
    Forall (λ v, val_type v = IRType.box) ivs ∧
    match branchNames with
    | Some names => length bts = length names ∧ targets i = bts
    | None => bts = [] ∧ targets i = []
    end ∧
    type i = (if default false voidOutput then IRType.none else IRType.box) ∧
    sideEffects i = (match sideEffectsArg with Some _ => true | None => false end).
Proof.
  unfold untypedInstrMaker. intros H.
  apply instrMaker_Ok in H
    as (tps & ivs & bts & f & this' & Hparse & [= <-] & Hinit & _ & Hu & Hty & Hse & Htg & _).
  apply parseArgs_Ok in Hparse.
  exists tps, ivs, bts. split; [done|]. split; [done|].
  unfold untyped_initFunc in Hinit.
  apply bind_Ok in Hinit as ([] & Hn & Hinit).
  apply bind_Ok in Hinit as ([] & Hboxed & Hinit).
  apply bind_Ok in Hinit as (cond & Hcond & Hinit).
  apply bind_Ok in Hinit as ([] & Hassert & Hinit).
  injection Hinit as <-. apply assert_Ok in Hassert. subst cond.
  apply validCount_exact in Hn. apply allValsBoxed_Ok in Hboxed.
  split; [done|]. split; [done|]. split; [|by rewrite Hty, Hse].
  destruct branchNames as [names|]; simpl in Hcond.
  - rewrite andb_false_r in Hcond. injection Hcond as Hlen.
    apply bool_decide_eq_true in Hlen. by rewrite Htg.
  - rewrite andb_true_r in Hcond.
    destruct (bool_decide (length bts = 0)) eqn:E; [|discriminate].
    apply bool_decide_eq_true, length_zero_iff_nil in E.
    by rewrite Htg.
Qed.

(** A [jump] given one branch target is constructed. *)
Lemma JumpInstr_constructs (b : BlockRef) :
  JumpInstr [BlockArg b]
  = Ok {| mnemonic := "jump"; outName := ""; instrId := 0;
          type := IRType.none; typeParams := []; uses := []; dests := [];
          targets := [b]; sideEffects := false; parentBlock := None |}.
Proof. reflexivity. Qed.

(** C5, as the constructor behaves.  Every constructed [jump] has
    exactly one branch target and no input, its output type is [none],
    and its [sideEffects] flag is false: [JumpInstr] passes no
    [sideEffects] argument to [untypedInstrMaker]. *)
Theorem JumpInstr_shape args i :
  JumpInstr args = Ok i →
  (∃ b, targets i = [b]) ∧
  uses i = [] ∧
  type i = IRType.none ∧
  sideEffects i = false.
Proof.
  unfold JumpInstr. intros H.
  apply untypedInstrMaker_Ok in H
    as (tps & ivs & bts & _ & Hu & Hn & _ & [Hlen Htg] & Hty & Hse).
  simpl in *. split; [|split; [|done]].
  - rewrite Htg. destruct bts as [|b [|b' bts]]; simpl in Hlen; try discriminate.
    by exists b.
  - rewrite Hu. by apply length_zero_iff_nil.
Qed.

Lemma JumpInstr_shape_witness :
  ∃ i, JumpInstr [BlockArg 3] = Ok i ∧
       (∃ b, targets i = [b]) ∧ uses i = [] ∧
       type i = IRType.none ∧ sideEffects i = false.
Proof.
  eexists. split; [apply JumpInstr_constructs|].
  apply (JumpInstr_shape [BlockArg 3]). apply JumpInstr_constructs.
Defined.

(** C5, as worded, fails: a constructed [jump] does not have its
    [sideEffects] flag set. *)
Lemma JumpInstr_sideEffects_counterexample :
  ∃ i, JumpInstr [BlockArg 3] = Ok i ∧ sideEffects i ≠ true.
Proof. eexists. split; [apply JumpInstr_constructs|]. discriminate. Qed.

(** A [jump] without a target, or with two, is rejected. *)
Lemma JumpInstr_arity tps ivs bts :
  length bts ≠ 1 →
  isOk (JumpInstr (map TypeArg tps ++ map ValueArg ivs ++ map BlockArg bts)) = false.
Proof.
  intros Hlen.
  destruct (JumpInstr _) as [i|e] eqn:H; [|done].
  unfold JumpInstr in H. pose proof H as H'.
  apply untypedInstrMaker_Ok in H' as (_ & _ & bts' & _ & _ & _ & _ & [Hl Htg] & _).
  unfold untypedInstrMaker in H.
  apply instrMaker_Ok in H
    as (tps' & ivs' & bts'' & _ & _ & Hp & _ & _ & _ & _ & _ & _ & Htg' & _).
  rewrite parseArgs_partition in Hp. injection Hp as <- <- <-.
  simpl in Hl. congruence.
Qed.



(** Inputs that are not boxed are rejected by [seq]. *)
Example SeqInstr_i32_rejected :
  isOk (SeqInstr [ValueArg (valueOfType IRType.i32);
                  ValueArg (valueOfType IRType.i32)]) = false.
Proof. reflexivity. Qed.

(** Every constructed [add] and [sub] has exactly two inputs, and its
    output type is the one of the typing rule. *)
Lemma AddInstr_Ok args i :
  AddInstr args = Ok i →
  ∃ v0 v1, uses i = [v0; v1] ∧
           add_rule (val_type v0) (val_type v1) = Some (type i).
Proof.
  unfold AddInstr. intros H.
  apply instrMaker_Ok in H
    as (tps & ivs & bts & f & this' & _ & [= <-] & Hinit & _ & Hu & Hty & _).
  unfold AddInstr_initFunc in Hinit.
  apply bind_Ok in Hinit as ([] & Hn%validCount_exact & Hinit).
  destruct ivs as [|v0 [|v1 [|v2 ivs]]]; try discriminate.
  exists v0, v1. split; [done|]. rewrite Hty.
  destruct v0 as [t0 f0 r0], v1 as [t1 f1 r1].
  destruct t0, t1; simpl in *; try discriminate; by injection Hinit as <-.
Qed.

Lemma SubInstr_Ok args i :
  SubInstr args = Ok i →
  ∃ v0 v1, uses i = [v0; v1] ∧
           sub_rule (val_type v0) (val_type v1) = Some (type i).
Proof.
  unfold SubInstr. intros H.
  apply instrMaker_Ok in H
    as (tps & ivs & bts & f & this' & _ & [= <-] & Hinit & _ & Hu & Hty & _).
  unfold SubInstr_initFunc in Hinit.
  apply bind_Ok in Hinit as ([] & Hn%validCount_exact & Hinit).
  destruct ivs as [|v0 [|v1 [|v2 ivs]]]; try discriminate.
  exists v0, v1. split; [done|]. rewrite Hty.
  destruct v0 as [t0 f0 r0], v1 as [t1 f1 r1].
  destruct t0, t1; simpl in *; try discriminate; by injection Hinit as <-.
Qed.

End untyped.

(** ** Floating-point to integer conversion *)

Section conversions.

(** [itof] with type parameter [f64] and a [pint] input constructs. *)
Example IToFPInstr_constructs :
  type <$> IToFPInstr [TypeArg IRType.f64; ValueArg (valueOfType IRType.pint)]
  = Ok IRType.f64.
Proof. reflexivity. Qed.

(** C6 on the code: [ftoi] with type parameter [pint] and one [f64] input
    is rejected with the diagnostic of the type assertion, and no
    argument list at all constructs an [ftoi]: the assertion compares
    the [type] property of the type parameter, which a type object does
    not have, with [f64]. *)
Theorem FPToIInstr_never_constructs :
  FPToIInstr [TypeArg IRType.pint; ValueArg (valueOfType IRType.f64)]
  = Err (InvalidArgs (Some "ftoi") (AssertError "invalid type parameters"))
  ∧ ∀ args, isOk (FPToIInstr args) = false.
Proof.
  split; [reflexivity|]. intros args.
  destruct (FPToIInstr args) as [i|e] eqn:H; [|done].
  unfold FPToIInstr in H.
  apply instrMaker_Ok in H
    as (tps & ivs & bts & f & this' & _ & [= <-] & Hinit & _).
  apply bind_Ok in Hinit as ([] & _ & Hinit).
  apply bind_Ok in Hinit as ([] & _ & Hinit).
  apply bind_Ok in Hinit as (tp0 & _ & Hinit).
  discriminate Hinit.
Qed.

End conversions.

(** ** Constants and their uniquing *)

(** A JavaScript value held by a constant.  Numbers are the finite
    numbers, as canonical rationals; functions are objects with
    identity. *)
Inductive Literal :=
  | LUndefined
  | LNull
  | LBool (b : bool)
  | LNumber (q : Qc)
  | LString (s : string)
  | LFunction (id : nat).

#[global] Instance Literal_eq_dec : EqDecision Literal.
Proof. solve_decision. Defined.

#[global] Instance Literal_countable : Countable Literal.
Proof.
  refine (inj_countable'
    (λ l, match l with
          | LUndefined => inl (inl ())
          | LNull => inl (inr ())
          | LBool b => inr (inl b)
          | LNumber q => inr (inr (inl q))
          | LString s => inr (inr (inr (inl s)))
          | LFunction id => inr (inr (inr (inr id)))
          end)
    (λ x, match x with
          | inl (inl ()) => LUndefined
          | inl (inr ()) => LNull
          | inr (inl b) => LBool b
          | inr (inr (inl q)) => LNumber q
          | inr (inr (inr (inl s))) => LString s
          | inr (inr (inr (inr id))) => LFunction id
          end) _).
  by intros [].
Defined.

#[global] Instance IRType_countable : Countable IRType.t.
Proof.
  refine (inj_countable'
    (λ ty, match ty with
           | IRType.none => 0 | IRType.box => 1 | IRType.rptr => 2
           | IRType.u8 => 3 | IRType.u16 => 4 | IRType.u32 => 5
           | IRType.u64 => 6 | IRType.i8 => 7 | IRType.i16 => 8
           | IRType.i32 => 9 | IRType.i64 => 10 | IRType.f64 => 11
           end)
    (λ n, match n with
          | 0 => IRType.none | 1 => IRType.box | 2 => IRType.rptr
          | 3 => IRType.u8 | 4 => IRType.u16 | 5 => IRType.u32
          | 6 => IRType.u64 | 7 => IRType.i8 | 8 => IRType.i16
          | 9 => IRType.i32 | 10 => IRType.i64 | _ => IRType.f64
          end) _).
  by intros [].
Defined.

(** [typeof value == 'number'] *)
Definition isNumberLiteral (value : Literal) : bool :=
  match value with LNumber _ => true | _ => false end.

(** [typeof value == 'string'] *)
Definition isStringLiteral (value : Literal) : bool :=
  match value with LString _ => true | _ => false end.

(** [Math.floor(value) == value] on a number. *)
Definition isWhole (value : Literal) : bool :=
  match value with
  | LNumber q => bool_decide (Qden (this q) = 1%positive)
  | _ => false
  end.

(** The fields of a [ConstValue] object. *)
Record ConstValue := mkConstValue {
  const_value : Literal;
  const_type : IRType.t
}.

(** The [ConstValue] constructor with its three assertions. *)
Definition new_ConstValue (value : Literal) (ty : IRType.t) : result ConstValue :=
  assert (negb (IRType.isIntType ty) ||
          (isNumberLiteral value && isWhole value))
         "integer constants require integer values";;
  assert (negb (IRType.isFPType ty) || isNumberLiteral value)
         "floating-point constants require number values";;
  assert (same_type ty IRType.box || negb (isStringLiteral value))
         "string-valued constants must have box type";;
  Ok {| const_value := value; const_type := ty |}.

(** Constant objects have identity: a constant is referred to by the
    position at which it was allocated. *)
Definition ConstRef := nat.

Section HashMap.
Context {K : Type} `{Countable K} {V : Type}.

(** Modelled from the spec: the [HashMap] class of the utility library
    (its [hasItem], [addItem] and [getItem] methods) is not part of the
    modelled files; it is a finite map whose keys are compared as
    values, and getting the item of an absent key is an error. *)
Definition hasItem (m : gmap K V) (key : K) : bool :=
  bool_decide (is_Some (m !! key)).
Definition addItem (m : gmap K V) (key : K) (v : V) : gmap K V :=
  <[key := v]> m.
Definition getItem (m : gmap K V) (key : K) : result V :=
  match m !! key with
  | Some v => Ok v
  | None => Err (AssertError "cannot get item, key not found")
  end.

Lemma hasItem_true m key :
  hasItem m key = true → ∃ v, m !! key = Some v ∧ getItem m key = Ok v.
Proof.
  unfold hasItem, getItem. intros [v Hv]%bool_decide_eq_true.
  exists v. by rewrite Hv.
Qed.

Lemma hasItem_false m key : hasItem m key = false → m !! key = None.
Proof.
  unfold hasItem. intros Hn%bool_decide_eq_false.
  destruct (m !! key) eqn:E; [|done]. destruct Hn. eauto.
Qed.

Lemma getItem_Ok m key v : getItem m key = Ok v → m !! key = Some v.
Proof. unfold getItem. destruct (m !! key); [by intros [= ->] | discriminate]. Qed.
End HashMap.

(** The process-wide state behind [ConstValue.getConst]: the allocated
    constants and [ConstValue.constMap], a map of values to maps of types
    to constants. *)
Record ConstState := mkConstState {
  constHeap : list ConstValue;
  constMap : gmap Literal (gmap IRType.t ConstRef)
}.

Definition initConstState : ConstState :=
  {| constHeap := []; constMap := ∅ |}.

(** The first half of [getConst]: the type map of [value], created and
    registered when the value is new. *)
Definition getTypeMap (value : Literal) (σ : ConstState)
  : result (gmap IRType.t ConstRef * ConstState) :=
  if negb (hasItem (constMap σ) value) then
    let typeMap := (∅ : gmap IRType.t ConstRef) in
    Ok (typeMap, {| constHeap := constHeap σ;
                    constMap := addItem (constMap σ) value typeMap |})
  else
    typeMap ← getItem (constMap σ) value;
    Ok (typeMap, σ).

(** [ConstValue.getConst (value, type)].  The type map of a value is an
    object held by [constMap] and updated in place; when the [ConstValue]
    constructor throws, the type map registered for a new value stays
    behind. *)
Definition getConst (value : Literal) (ty : option IRType.t) (σ : ConstState)
  : ConstState * result ConstRef :=
  let ty := default IRType.box ty in
  match getTypeMap value σ with
  | Err e => (σ, Err e)
  | Ok (typeMap, σ) =>
      if negb (hasItem typeMap ty) then
        match new_ConstValue value ty with
        | Ok constant =>
            let ref := length (constHeap σ) in
            ({| constHeap := constHeap σ ++ [constant];
                constMap := addItem (constMap σ) value (addItem typeMap ty ref) |},
             Ok ref)
        | Err e => (σ, Err e)
        end
      else
        (σ, getItem typeMap ty)
  end.

(** A history of [getConst] calls, successful or not. *)
Definition getConstCalls (calls : list (Literal * option IRType.t))
    (σ : ConstState) : ConstState :=
  fold_left (λ σ call, (getConst call.1 call.2 σ).1) calls σ.

(** The constant recorded for a (value, type) pair, if any. *)
Definition lookupConst (σ : ConstState) (value : Literal) (ty : IRType.t)
  : option ConstRef :=
  constMap σ !! value ≫= λ typeMap, typeMap !! ty.

(** Every recorded reference points at a constant holding its key. *)
Definition constMap_wf (σ : ConstState) : Prop :=
  ∀ value ty c,
    lookupConst σ value ty = Some c →
    constHeap σ !! c = Some {| const_value := value; const_type := ty |}.

Section uniquing.

Implicit Types (σ : ConstState) (value : Literal) (ty : IRType.t).

Lemma constMap_wf_init : constMap_wf initConstState.
Proof. intros value ty c. unfold lookupConst. simpl. by rewrite lookup_empty. Qed.

Lemma new_ConstValue_Ok value ty constant :
  new_ConstValue value ty = Ok constant →
  constant = {| const_value := value; const_type := ty |}.
Proof.
  unfold new_ConstValue. intros H.
  repeat (apply bind_Ok in H as ([] & _ & H)). by injection H as <-.
Qed.

(** One call: the invariant is kept, recorded constants stay recorded,
    and a returned constant is the one recorded for the pair. *)
Lemma getConst_step value oty σ :
  constMap_wf σ →
  let ty := default IRType.box oty in
  let '(σ', r) := getConst value oty σ in
  constMap_wf σ' ∧
  (∀ value' ty' c, lookupConst σ value' ty' = Some c →
                   lookupConst σ' value' ty' = Some c) ∧
  (∀ c, r = Ok c → lookupConst σ' value ty = Some c).
Proof.
  intros Hwf ty. unfold getConst. fold ty. unfold getTypeMap.
  destruct (hasItem (constMap σ) value) eqn:Hh; cbn [negb].
  - apply hasItem_true in Hh as (typeMap & Hv & ->). cbn.
    destruct (hasItem typeMap ty) eqn:Hh'; cbn [negb].
    + apply hasItem_true in Hh' as (c0 & Ht & ->).
      split; [done|]. split; [done|].
      intros c [= <-]. unfold lookupConst. rewrite Hv. done.
    + apply hasItem_false in Hh'.
      destruct (new_ConstValue value ty) as [constant|e] eqn:Hnew.
      2: { split; [done|]. split; [done|]. intros c [=]. }
      apply new_ConstValue_Ok in Hnew. subst constant. unfold addItem.
      split; [|split].
      * intros value' ty' c. unfold lookupConst. cbn.
        destruct (decide (value = value')) as [<-|Hne].
        -- rewrite lookup_insert_eq. cbn.
           destruct (decide (ty = ty')) as [<-|Hne'].
           ++ rewrite lookup_insert_eq. intros [= <-].
              by rewrite lookup_app_r, Nat.sub_diag.
           ++ rewrite lookup_insert_ne by done. intros Hc.
              assert (lookupConst σ value ty' = Some c) as Hc'
                by (unfold lookupConst; by rewrite Hv).
              rewrite lookup_app_l; [by apply Hwf|].
              eapply lookup_lt_Some, Hwf, Hc'.
        -- rewrite lookup_insert_ne by done. intros Hc.
           rewrite lookup_app_l; [by apply Hwf|].
           eapply lookup_lt_Some, Hwf, Hc.
      * intros value' ty' c. unfold lookupConst. cbn.
        destruct (decide (value = value')) as [<-|Hne].
        -- rewrite lookup_insert_eq, Hv. cbn.
           destruct (decide (ty = ty')) as [<-|Hne'].
           ++ rewrite Hh'. discriminate.
           ++ by rewrite lookup_insert_ne.
        -- by rewrite lookup_insert_ne.
      * intros c [= <-]. unfold lookupConst. cbn.
        rewrite lookup_insert_eq. cbn. by rewrite lookup_insert_eq.
  - apply hasItem_false in Hh. unfold hasItem at 1.
    rewrite lookup_empty.
    rewrite (bool_decide_eq_false_2 (is_Some None)) by (by intros [? ?]).
    cbn [negb]. unfold addItem. cbn [constHeap constMap].
    assert (∀ value' ty' c (tm : gmap IRType.t ConstRef),
              lookupConst σ value' ty' = Some c →
              (<[value := tm]> (constMap σ) !! value' ≫= λ m, m !! ty') = Some c)
      as Hmono.
    { intros value' ty' c tm. unfold lookupConst.
      destruct (decide (value = value')) as [<-|Hne].
      - rewrite Hh. discriminate.
      - by rewrite lookup_insert_ne. }
    destruct (new_ConstValue value ty) as [constant|e] eqn:Hnew.
    + apply new_ConstValue_Ok in Hnew. subst constant.
      rewrite insert_insert_eq.
      split; [|split].
      * intros value' ty' c. unfold lookupConst. cbn.
        destruct (decide (value = value')) as [<-|Hne].
        -- rewrite lookup_insert_eq. cbn.
           destruct (decide (ty = ty')) as [<-|Hne'].
           ++ rewrite lookup_insert_eq. intros [= <-].
              by rewrite lookup_app_r, Nat.sub_diag.
           ++ rewrite lookup_insert_ne, lookup_empty by done. discriminate.
        -- rewrite lookup_insert_ne by done. intros Hc.
           rewrite lookup_app_l; [by apply Hwf|].
           eapply lookup_lt_Some, Hwf, Hc.
      * intros value' ty' c Hc. unfold lookupConst. cbn. by apply Hmono.
      * intros c [= <-]. unfold lookupConst. cbn.
        rewrite lookup_insert_eq. cbn. by rewrite lookup_insert_eq.
    + split; [|split].
      * intros value' ty' c. unfold lookupConst. cbn.
        destruct (decide (value = value')) as [<-|Hne].
        -- rewrite lookup_insert_eq. cbn. by rewrite lookup_empty.
        -- rewrite lookup_insert_ne by done. apply Hwf.
      * intros value' ty' c Hc. unfold lookupConst. cbn. by apply Hmono.
      * intros c [=].
Qed.

Lemma getConstCalls_wf calls σ :
  constMap_wf σ →
  constMap_wf (getConstCalls calls σ) ∧
  ∀ value ty c, lookupConst σ value ty = Some c →
                lookupConst (getConstCalls calls σ) value ty = Some c.
Proof.
  revert σ. induction calls as [|[value oty] calls IH]; intros σ Hwf; simpl.
  - done.
  - pose proof (getConst_step value oty σ Hwf) as Hstep.
    destruct (getConst value oty σ) as [σ' r]. simpl.
    destruct Hstep as (Hwf' & Hmono & _).
    destruct (IH σ' Hwf') as [Hwf'' Hmono'].
    split; [done|]. intros value' ty' c Hc. by apply Hmono', Hmono.
Qed.

(** Asking again for a recorded constant returns it and changes
    nothing. *)
Lemma getConst_recorded value oty σ c :
  lookupConst σ value (default IRType.box oty) = Some c →
  getConst value oty σ = (σ, Ok c).
Proof.
  unfold lookupConst, getConst, getTypeMap. intros Hc.
  destruct (constMap σ !! value) as [typeMap|] eqn:Hv; [|discriminate].
  cbn in Hc.
  unfold hasItem, getItem. rewrite Hv.
  rewrite (bool_decide_eq_true_2 (is_Some (Some typeMap))) by eauto. cbn.
  rewrite Hc.
  rewrite (bool_decide_eq_true_2 (is_Some (Some c))) by eauto. done.
Qed.

(** C1 (constant uniquing).  In any state reached by calls of [getConst]
    from the empty table, once [getConst (value1, oty1)] has returned a
    constant [c1], then after any further calls: a call with the same
    value and the same type returns the identical object [c1]; and a
    call returning [c2] returns the identical object exactly when value
    and type are the same, so the same literal at two different types
    yields two distinct constant objects. *)
Theorem getConst_unique calls0 calls value1 oty1 σ1 c1 :
  getConst value1 oty1 (getConstCalls calls0 initConstState) = (σ1, Ok c1) →
  (∀ oty2, default IRType.box oty1 = default IRType.box oty2 →
          (getConst value1 oty2 (getConstCalls calls σ1)).2 = Ok c1) ∧
  (∀ value2 oty2 σ2 c2,
     getConst value2 oty2 (getConstCalls calls σ1) = (σ2, Ok c2) →
     c1 = c2 ↔
     value1 = value2 ∧ default IRType.box oty1 = default IRType.box oty2).
Proof.
  intros H1.
  destruct (getConstCalls_wf calls0 initConstState constMap_wf_init) as [Hwf0 _].
  pose proof (getConst_step value1 oty1 _ Hwf0) as Hstep1.
  rewrite H1 in Hstep1. destruct Hstep1 as (Hwf1 & _ & Hrec1).
  specialize (Hrec1 c1 eq_refl).
  destruct (getConstCalls_wf calls σ1 Hwf1) as [Hwf Hmono].
  apply Hmono in Hrec1. split.
  - intros oty2 Hty. rewrite Hty in Hrec1.
    by rewrite (getConst_recorded _ _ _ _ Hrec1).
  - intros value2 oty2 σ2 c2 H2.
    pose proof (getConst_step value2 oty2 _ Hwf) as Hstep2.
    rewrite H2 in Hstep2. destruct Hstep2 as (Hwf2 & Hmono2 & Hrec2).
    specialize (Hrec2 c2 eq_refl). apply Hmono2 in Hrec1.
    apply Hwf2 in Hrec1, Hrec2. split.
    + intros <-. rewrite Hrec1 in Hrec2. by injection Hrec2 as <- <-.
    + intros [<- Hty]. rewrite Hty in Hrec1.
      pose proof (getConst_step value1 oty2 _ Hwf) as Hstep2.
      rewrite H2 in Hstep2. destruct Hstep2 as (_ & _ & Hrec2').
      specialize (Hrec2' c2 eq_refl).
      pose proof (getConst_step value1 oty1 _ Hwf0) as Hstep1.
      rewrite H1 in Hstep1. destruct Hstep1 as (_ & _ & Hrec1').
      specialize (Hrec1' c1 eq_refl). apply Hmono, Hmono2 in Hrec1'.
      rewrite Hty, Hrec2' in Hrec1'. by injection Hrec1' as <-.
Qed.

(** The integer 0 at [i32], then at the default type [box], then at
    [i32] again. *)
Lemma getConst_unique_witness :
  let zero := LNumber (Q2Qc 0) in
  ∃ σ1 c1,
    getConst zero (Some IRType.i32) initConstState = (σ1, Ok c1) ∧
    (getConst zero (Some IRType.i32) (getConstCalls [(zero, None)] σ1)).2 = Ok c1 ∧
    ∀ σ2 c2,
      getConst zero None (getConstCalls [(zero, None)] σ1) = (σ2, Ok c2) →
      c1 ≠ c2.
Proof.
  intros zero.
  destruct (getConst zero (Some IRType.i32) initConstState) as [σ1 r] eqn:H1.
  destruct r as [c1|e]; [|by vm_compute in H1].
  exists σ1, c1. split; [done|].
  pose proof (getConst_unique [] [(zero, None)] zero (Some IRType.i32) σ1 c1 H1)
    as [Hsame Hiff].
  split; [by apply Hsame|].
  intros σ2 c2 H2 Heq. by apply (Hiff _ _ _ _ H2) in Heq as [_ [=]].
Defined.

Example getConst_zero_box_i32 :
  let zero := LNumber (Q2Qc 0) in
  let '(σ1, r1) := getConst zero None initConstState in
  let '(σ2, r2) := getConst zero (Some IRType.i32) σ1 in
  let '(σ3, r3) := getConst zero None σ2 in
  (r1, r2, r3) = (Ok 0, Ok 1, Ok 0).
Proof. vm_compute. reflexivity. Qed.

(** A string is a constant of type [box] only; the failed call leaves
    the state able to unique later constants. *)
Example getConst_string_i32 :
  isOk (getConst (LString "a") (Some IRType.i32) initConstState).2 = false.
Proof. vm_compute. reflexivity. Qed.

End uniquing.

(** ** Phi nodes *)

(** Instructions are objects with identity whose fields are updated in
    place ([addIncoming] sets the type of an empty phi node and extends the
    [dests] of its input), so they live in a store and values refer to
    them. *)
Definition InstrRef := nat.

(** An IR value used as an input: a constant, whose type is fixed, or an
    instruction object. *)
Inductive Value :=
  | VConst (c : ConstValue)
  | VInstr (r : InstrRef).

#[global] Instance ConstValue_eq_dec : EqDecision ConstValue.
Proof. solve_decision. Defined.
#[global] Instance Value_eq_dec : EqDecision Value.
Proof. solve_decision. Defined.

(** The fields of an instruction object that phi nodes read and write;
    [obj_isPhi] tells whether the object was made by [PhiInstr] and
    [obj_preds] is present on phi nodes only.  The [uses] and [preds] of a
    phi node are two distinct arrays. *)
Record InstrObj := mkInstrObj {
  obj_isPhi : bool;
  obj_mnemonic : string;
  obj_type : IRType.t;
  obj_uses : list Value;
  obj_preds : list BlockRef;
  obj_dests : list InstrRef
}.

Abbreviation Store := (list InstrObj).

Definition deref (σ : Store) (r : InstrRef) : result InstrObj :=
  match σ !! r with
  | Some obj => Ok obj
  | None => Err (TypeError "cannot read property of undefined")
  end.

(** [value.type], read at the time of the call. *)
Definition valType (σ : Store) (value : Value) : result IRType.t :=
  match value with
  | VConst c => Ok (const_type c)
  | VInstr r => obj ← deref σ r; Ok (obj_type obj)
  end.

(** The loop of the [PhiInstr] constructor over adjacent values. *)
Fixpoint sameTypeAsPrevious (σ : Store) (prev : Value) (values : list Value)
  : result unit :=
  match values with
  | [] => Ok tt
  | value :: rest =>
      ty ← valType σ value;
      ty' ← valType σ prev;
      assert (same_type ty ty') "all phi input values must have the same type";;
      sameTypeAsPrevious σ value rest
  end.

(** [new PhiInstr (values, preds)]: returns the new object's reference. *)
Definition PhiInstr (values : list Value) (preds : list BlockRef) (σ : Store)
  : result (InstrRef * Store) :=
  assert (bool_decide (length values = length preds))
         "must have one predecessor for each phi use";;
  match values with
  | [] => Ok tt
  | first :: rest => sameTypeAsPrevious σ first rest
  end;;
  ty ← match values with
       | first :: _ => valType σ first
       | [] => Ok IRType.none
       end;
  let this :=
    {| obj_isPhi := true; obj_mnemonic := "phi"; obj_type := ty;
       obj_uses := values; obj_preds := preds; obj_dests := [] |} in
  Ok (length σ, σ ++ [this]).

(** An instruction of another kind, as far as phi nodes are concerned: an
    object whose output type was fixed by its constructor. *)
Definition newInstr (mnemonic : string) (ty : IRType.t) (σ : Store)
  : InstrRef * Store :=
  (length σ,
   σ ++ [{| obj_isPhi := false; obj_mnemonic := mnemonic; obj_type := ty;
            obj_uses := []; obj_preds := []; obj_dests := [] |}]).

(** Modelled from the spec: [arraySetAdd] of the utility library is not
    part of the modelled files; insertion into the destination set is
    set-semantic (idempotent). *)
Definition arraySetAdd (array : list InstrRef) (val : InstrRef) : list InstrRef :=
  if bool_decide (val ∈ array) then array else array ++ [val].

(** [IRInstr.prototype.addDest] *)
Definition addDest (dest : InstrRef) (obj : InstrObj) : InstrObj :=
  {| obj_isPhi := obj_isPhi obj; obj_mnemonic := obj_mnemonic obj;
     obj_type := obj_type obj; obj_uses := obj_uses obj;
     obj_preds := obj_preds obj;
     obj_dests := if bool_decide (length (obj_dests obj) = 0) then [dest]
                  else arraySetAdd (obj_dests obj) dest |}.

(** [PhiInstr.prototype.addIncoming], called on the phi node [phi]. *)
Definition addIncoming (phi : InstrRef) (value : Value) (pred : option BlockRef)
    (σ : Store) : result Store :=
  this ← deref σ phi;
  (if obj_isPhi this then Ok tt
   else Err (TypeError "addIncoming is not a function"));;
  pred ← match pred with
         | Some p => Ok p
         | None => Err (AssertError "must specify predecessor block")
         end;
  ty ← valType σ value;
  newType ← match obj_uses this with
            | first :: _ =>
                ty0 ← valType σ first;
                assert (same_type ty ty0) "all phi inputs must have the same type";;
                Ok (obj_type this)
            | [] => Ok ty
            end;
  let this :=
    {| obj_isPhi := obj_isPhi this; obj_mnemonic := obj_mnemonic this;
       obj_type := newType;
       obj_uses := obj_uses this ++ [value];
       obj_preds := obj_preds this ++ [pred];
       obj_dests := obj_dests this |} in
  let σ := <[phi := this]> σ in
  match value with
  | VInstr r =>
      obj ← deref σ r;
      Ok (<[r := addDest phi obj]> σ)
  | VConst _ => Ok σ
  end.

(** The invariant of the phi node [phi]: parallel arrays of equal length
    and inputs that all have, at present, the phi node's output type. *)
Definition phi_wf (σ : Store) (phi : InstrRef) : Prop :=
  ∃ this, σ !! phi = Some this ∧
          length (obj_uses this) = length (obj_preds this) ∧
          Forall (λ u, valType σ u = Ok (obj_type this)) (obj_uses this).

(** The inputs and the output type of the object at [r]. *)
Definition usesOf (σ : Store) (r : InstrRef) : list Value :=
  match σ !! r with
  | Some obj => obj_uses obj
  | None => []
  end.

Definition typeOf (σ : Store) (r : InstrRef) : option IRType.t :=
  obj_type <$> σ !! r.

(** The predecessor blocks of the phi node at [r]. *)
Definition predsOf (σ : Store) (r : InstrRef) : list BlockRef :=
  match σ !! r with
  | Some obj => obj_preds obj
  | None => []
  end.

(** A phi node without inputs, as [new PhiInstr ([], [])] makes it. *)
Definition emptyPhi : InstrObj :=
  {| obj_isPhi := true; obj_mnemonic := "phi"; obj_type := IRType.none;
     obj_uses := []; obj_preds := []; obj_dests := [] |}.

(** The invariant [phi_wf], decided. *)
Definition phi_wfb (σ : Store) (phi : InstrRef) : bool :=
  match σ !! phi with
  | Some this =>
      bool_decide (length (obj_uses this) = length (obj_preds this)) &&
      forallb (λ u, match valType σ u with
                    | Ok ty => same_type ty (obj_type this)
                    | Err _ => false
                    end) (obj_uses this)
  | None => false
  end.

Section phi.

Implicit Types (σ : Store) (phi r : InstrRef) (value u : Value).
Implicit Types (this obj : InstrObj).

Lemma deref_Ok σ r obj : deref σ r = Ok obj ↔ σ !! r = Some obj.
Proof.
  unfold deref. destruct (σ !! r); split; try discriminate; by intros [= ->].
Qed.

(** The effect of a successful [addIncoming] on the store: the phi node
    gets the new input and predecessor (and its type when it was
    empty); every other object keeps its type, inputs and
    predecessors. *)
Lemma addIncoming_Ok phi value pred σ σ' :
  addIncoming phi value pred σ = Ok σ' →
  ∃ this p ty newType,
    σ !! phi = Some this ∧ obj_isPhi this = true ∧ pred = Some p ∧
    valType σ value = Ok ty ∧
    match obj_uses this with
    | first :: _ => valType σ first = Ok ty ∧ newType = obj_type this
    | [] => newType = ty
    end ∧
    (∃ this', σ' !! phi = Some this' ∧
              obj_type this' = newType ∧
              obj_uses this' = obj_uses this ++ [value] ∧
              obj_preds this' = obj_preds this ++ [p]) ∧
    (∀ r obj, r ≠ phi → σ !! r = Some obj →
              ∃ obj', σ' !! r = Some obj' ∧
                      obj_type obj' = obj_type obj ∧
                      obj_uses obj' = obj_uses obj ∧
                      obj_preds obj' = obj_preds obj).
Proof.
  unfold addIncoming. intros H.
  apply bind_Ok in H as (this & Hthis & H). apply deref_Ok in Hthis.
  apply bind_Ok in H as ([] & Hphi & H).
  destruct (obj_isPhi this) eqn:HisPhi; [|discriminate]. clear Hphi.
  apply bind_Ok in H as (p & Hp & H).
  destruct pred as [p'|]; [injection Hp as ->|discriminate].
  apply bind_Ok in H as (ty & Hty & H).
  apply bind_Ok in H as (newType & Hnew & H).
  exists this, p, ty, newType.
  split; [done|]. split; [done|]. split; [done|]. split; [done|].
  assert (phi < length σ) as Hlt by (by eapply lookup_lt_Some).
  split.
  { destruct (obj_uses this) as [|first rest].
    - by injection Hnew as <-.
    - apply bind_Ok in Hnew as (ty0 & Hty0 & Hnew).
      apply bind_Ok in Hnew as ([] & Hsame & Hnew).
      injection Hnew as <-. apply assert_Ok, same_type_true in Hsame.
      by subst ty0. }
  destruct value as [c|r0].
  - injection H as <-. split.
    + eexists. split; [by apply list_lookup_insert_eq | done].
    + intros r obj Hne Hr. exists obj.
      rewrite list_lookup_insert_ne by done. done.
  - apply bind_Ok in H as (obj0 & Hobj0 & H). apply deref_Ok in Hobj0.
    injection H as <-.
    assert (r0 < length (<[phi := mkInstrObj true (obj_mnemonic this) newType
                                    (obj_uses this ++ [VInstr r0])
                                    (obj_preds this ++ [p]) (obj_dests this)]> σ))
      as Hlt0 by (by eapply lookup_lt_Some).
    split.
    + destruct (decide (r0 = phi)) as [->|Hne].
      * rewrite list_lookup_insert_eq in Hobj0 by done.
        injection Hobj0 as <-.
        eexists. split; [by apply list_lookup_insert_eq | done].
      * rewrite list_lookup_insert_ne by done.
        eexists. split; [by apply list_lookup_insert_eq | done].
    + intros r obj Hne Hr.
      destruct (decide (r0 = r)) as [->|Hne0].
      * rewrite list_lookup_insert_ne in Hobj0 by done.
        assert (Some obj0 = Some obj) as [= ->]
          by exact (eq_trans (eq_sym Hobj0) Hr).
        eexists. split; [by apply list_lookup_insert_eq | done].
      * exists obj. rewrite !list_lookup_insert_ne by done. done.
Qed.

(** The types of values after a successful [addIncoming]: only the phi
    node itself can have changed type. *)
Lemma valType_addIncoming phi value pred σ σ' u ty :
  addIncoming phi value pred σ = Ok σ' →
  u ≠ VInstr phi →
  valType σ u = Ok ty → valType σ' u = Ok ty.
Proof.
  intros H Hne Hu.
  apply addIncoming_Ok in H as (this & p & ty' & newType & _ & _ & _ & _ & _ & _ & Hothers).
  destruct u as [c|r]; [done|]. simpl in *.
  apply bind_Ok in Hu as (obj & Hobj & [= <-]). apply deref_Ok in Hobj.
  destruct (Hothers r obj) as (obj' & Hobj' & Hty & _); [congruence | done |].
  apply deref_Ok in Hobj'. rewrite Hobj'. simpl. by rewrite Hty.
Qed.

Lemma phi_wfb_spec σ phi : phi_wfb σ phi = true ↔ phi_wf σ phi.
Proof.
  unfold phi_wfb, phi_wf. destruct (σ !! phi) as [this|]; split.
  - intros [Hlen Hall]%andb_true_iff. exists this. split; [done|].
    apply bool_decide_eq_true in Hlen. split; [done|].
    apply Forall_forall. intros u Hu.
    rewrite forallb_forall in Hall. apply list_elem_of_In, Hall in Hu.
    destruct (valType σ u) as [ty|]; [|done].
    by apply same_type_true in Hu as ->.
  - intros (this' & [= <-] & Hlen & Hall). apply andb_true_iff. split.
    + by apply bool_decide_eq_true.
    + apply forallb_forall. intros u Hu%list_elem_of_In.
      rewrite Forall_forall in Hall. rewrite (Hall u Hu).
      by apply same_type_true.
  - discriminate.
  - by intros (this' & [=] & _).
Qed.

(** An empty phi node has type [none]. *)
Lemma PhiInstr_empty σ :
  PhiInstr [] [] σ = Ok (length σ, σ ++ [emptyPhi]).
Proof. reflexivity. Qed.

(** A later [addIncoming] with a value whose type differs from the
    common type of the present inputs fails. *)
Lemma addIncoming_mismatch phi value pred σ this ty ty' :
  σ !! phi = Some this →
  obj_uses this ≠ [] →
  Forall (λ u, valType σ u = Ok ty) (obj_uses this) →
  valType σ value = Ok ty' →
  ty' ≠ ty →
  isOk (addIncoming phi value pred σ) = false.
Proof.
  intros Hthis Hne Hall Hty Hdiff.
  destruct (addIncoming phi value pred σ) as [σ'|e] eqn:H; [|done].
  apply addIncoming_Ok in H
    as (this' & p & ty0 & newType & Hthis' & _ & _ & Hty0 & Hfirst & _).
  rewrite Hthis in Hthis'. injection Hthis' as <-.
  destruct (obj_uses this) as [|first rest]; [done|].
  apply Forall_cons in Hall as [Hf _]. destruct Hfirst as [Hf' _].
  congruence.
Qed.

(** What a successful [addIncoming] does to the output type of the phi
    node it is called on: the first one sets it to the type of the value,
    a later one succeeds only with a value of the type of the first input
    and leaves the output type alone. *)
Lemma addIncoming_types phi' value pred σ σ' :
  addIncoming phi' value pred σ = Ok σ' →
  ∃ ty, valType σ value = Ok ty ∧
        match usesOf σ phi' with
        | [] => typeOf σ' phi' = Some ty
        | first :: _ =>
            valType σ first = Ok ty ∧ typeOf σ' phi' = typeOf σ phi'
        end.
Proof.
  intros Hadd.
  apply addIncoming_Ok in Hadd
    as (this & p & ty & newType & Hthis & _ & _ & Hty & Hfirst & Hnew & _).
  destruct Hnew as (this' & Hthis' & Htype' & _).
  exists ty. split; [done|]. unfold usesOf, typeOf.
  rewrite Hthis, Hthis'. simpl. rewrite Htype'.
  destruct (obj_uses this); [by subst|].
  destruct Hfirst as [? ->]. done.
Qed.

(** [addIncoming] writes to objects of the store and allocates none. *)
Lemma addIncoming_length phi' value pred σ σ' :
  addIncoming phi' value pred σ = Ok σ' → length σ' = length σ.
Proof.
  unfold addIncoming. intros H.
  apply bind_Ok in H as (this & _ & H).
  apply bind_Ok in H as ([] & _ & H).
  apply bind_Ok in H as (p & _ & H).
  apply bind_Ok in H as (ty & _ & H).
  apply bind_Ok in H as (newType & _ & H).
  destruct value as [c|r0].
  - injection H as <-. by rewrite length_insert.
  - apply bind_Ok in H as (obj0 & _ & [= <-]). by rewrite !length_insert.
Qed.

(** A successful [addIncoming] keeps the uses and the predecessors of
    every object of equal length, whatever the types are. *)
Lemma addIncoming_lengths phi' value pred σ σ' r :
  addIncoming phi' value pred σ = Ok σ' →
  length (usesOf σ r) = length (predsOf σ r) →
  length (usesOf σ' r) = length (predsOf σ' r).
Proof.
  intros Hadd Hlen.
  pose proof (addIncoming_length _ _ _ _ _ Hadd) as Hsize.
  apply addIncoming_Ok in Hadd
    as (this & p & ty & newType & Hthis & _ & _ & _ & _ & Hnew & Hothers).
  destruct Hnew as (this' & Hthis' & _ & Huses' & Hpreds').
  unfold usesOf, predsOf in *.
  destruct (decide (r = phi')) as [->|Hne].
  - rewrite Hthis in Hlen. rewrite Hthis', Huses', Hpreds', !length_app.
    simpl. lia.
  - destruct (σ !! r) as [obj|] eqn:Hobj.
    + destruct (Hothers r obj Hne Hobj) as (obj' & -> & _ & -> & ->). done.
    + apply lookup_ge_None in Hobj. rewrite <- Hsize in Hobj.
      apply lookup_ge_None in Hobj.
      destruct (σ' !! r) as [obj'|] eqn:E; [|done].
      discriminate (eq_trans (eq_sym E) Hobj).
Qed.

(** A successful [addIncoming] on [phi'] keeps the invariant of a phi
    node [phi] unless it changes the type of an input of [phi]. *)
Lemma addIncoming_keeps_wf phi phi' value pred σ σ' :
  addIncoming phi' value pred σ = Ok σ' →
  phi_wf σ phi →
  phi' = phi ∨ VInstr phi' ∉ usesOf σ phi ∨ typeOf σ' phi' = typeOf σ phi' →
  phi_wf σ' phi.
Proof.
  intros Hadd Hwf Hcond.
  pose proof (λ u ty, valType_addIncoming _ _ _ _ _ u ty Hadd) as Hkeep.
  apply addIncoming_Ok in Hadd
    as (this & p & ty & newType & Hthis & _ & _ & Hty & Hfirst & Hnew & Hothers).
  destruct Hnew as (this' & Hthis' & Htype' & Huses' & Hpreds').
  assert (valType σ' (VInstr phi') = Ok newType) as Hself.
  { simpl. apply deref_Ok in Hthis'. rewrite Hthis'. simpl. by rewrite Htype'. }
  destruct Hwf as (obj & Hobj & Hlen & Hall).
  destruct (decide (phi' = phi)) as [->|Hne].
  - assert (obj = this) as -> by congruence.
    exists this'. split; [done|]. rewrite Huses', Hpreds', Htype'.
    split; [rewrite !length_app; simpl; lia|].
    assert (obj_uses this ≠ [] → newType = obj_type this) as Hsame.
    { destruct (obj_uses this); [done|]. by destruct Hfirst. }
    apply Forall_app. split.
    + apply Forall_forall. intros u Hu.
      assert (newType = obj_type this) as Hn.
      { apply Hsame. intros E. rewrite E in Hu. by apply elem_of_nil in Hu. }
      destruct (decide (u = VInstr phi)) as [->|Hu']; [done|].
      rewrite Hn. apply Hkeep; [done|].
      rewrite Forall_forall in Hall. by apply Hall.
    + apply Forall_singleton.
      destruct (decide (value = VInstr phi)) as [->|Hv]; [done|].
      apply Hkeep; [done|]. rewrite Hty. f_equal.
      destruct (obj_uses this) as [|first rest] eqn:Hu; [done|].
      destruct Hfirst as [Hf ->].
      apply Forall_cons in Hall as [Hf' _]. congruence.
  - destruct (Hothers phi obj) as (obj' & Hobj' & Hty' & Hu' & Hp'); [done..|].
    exists obj'. split; [done|]. rewrite Hu', Hp', Hty'. split; [done|].
    apply Forall_forall. intros u Hu.
    rewrite Forall_forall in Hall. specialize (Hall u Hu).
    destruct (decide (u = VInstr phi')) as [->|Hdiff]; [|by apply Hkeep].
    destruct Hcond as [?|[Hnotin|Hsame]]; [done| |].
    + unfold usesOf in Hnotin. rewrite Hobj in Hnotin. done.
    + unfold typeOf in Hsame. rewrite Hthis, Hthis' in Hsame. simpl in Hsame.
      rewrite Htype' in Hsame. injection Hsame as ->.
      rewrite Hself. rewrite <- Hall. simpl.
      apply deref_Ok in Hthis. by rewrite Hthis.
Qed.

(** A successful [addIncoming] on [phi'] that changes the type of an
    input of another phi node [phi] breaks the invariant of [phi]. *)
Lemma addIncoming_breaks_wf phi phi' value pred σ σ' :
  addIncoming phi' value pred σ = Ok σ' →
  phi_wf σ phi →
  phi' ≠ phi → VInstr phi' ∈ usesOf σ phi →
  typeOf σ' phi' ≠ typeOf σ phi' →
  ¬ phi_wf σ' phi.
Proof.
  intros Hadd (obj & Hobj & _ & Hall) Hne Hin Hchanged (obj' & Hobj' & _ & Hall').
  apply addIncoming_Ok in Hadd
    as (this & p & ty & newType & Hthis & _ & _ & _ & _ & _ & Hothers).
  destruct (Hothers phi obj) as (obj'' & Hobj'' & Hty' & Hu' & _); [done..|].
  assert (obj'' = obj') as -> by congruence.
  unfold usesOf in Hin. rewrite Hobj in Hin.
  rewrite Forall_forall in Hall, Hall'.
  specialize (Hall _ Hin). rewrite Hu' in Hall'. specialize (Hall' _ Hin).
  rewrite Hty' in Hall'. apply Hchanged. unfold typeOf.
  simpl in Hall, Hall'.
  apply bind_Ok in Hall as (o & Ho & [= Ho']). apply deref_Ok in Ho.
  apply bind_Ok in Hall' as (o' & Ho2 & [= Ho2']). apply deref_Ok in Ho2.
  rewrite Ho, Ho2. simpl. congruence.
Qed.

(** A constructed phi node satisfies the invariant, and the invariants
    of the objects already in the store are untouched. *)
Lemma sameTypeAsPrevious_Ok σ prev values ty :
  valType σ prev = Ok ty →
  sameTypeAsPrevious σ prev values = Ok tt →
  Forall (λ u, valType σ u = Ok ty) values.
Proof.
  revert prev. induction values as [|value rest IH]; intros prev Hprev H.
  - constructor.
  - simpl in H.
    apply bind_Ok in H as (ty1 & Hty1 & H).
    apply bind_Ok in H as (ty2 & Hty2 & H).
    apply bind_Ok in H as ([] & Hsame & H).
    apply assert_Ok, same_type_true in Hsame.
    assert (ty1 = ty) as -> by congruence.
    constructor; [done|]. by eapply IH.
Qed.

Lemma valType_alloc σ obj u ty :
  valType σ u = Ok ty → valType (σ ++ [obj]) u = Ok ty.
Proof.
  destruct u as [c|r]; [done|]. simpl. intros H.
  apply bind_Ok in H as (o & Ho & [= <-]). apply deref_Ok in Ho.
  assert (deref (σ ++ [obj]) r = Ok o) as ->; [|done].
  apply deref_Ok. rewrite lookup_app_l; [done|]. by eapply lookup_lt_Some.
Qed.

Lemma PhiInstr_wf values preds σ phi σ' :
  PhiInstr values preds σ = Ok (phi, σ') →
  phi_wf σ' phi ∧ ∀ r, phi_wf σ r → phi_wf σ' r.
Proof.
  unfold PhiInstr. intros H.
  apply bind_Ok in H as ([] & Hlen & H).
  apply assert_Ok, bool_decide_eq_true in Hlen.
  apply bind_Ok in H as ([] & Hsame & H).
  apply bind_Ok in H as (ty & Hty & H).
  injection H as <- <-. split.
  - eexists. split; [by rewrite lookup_app_r, Nat.sub_diag|].
    simpl. split; [done|].
    destruct values as [|first rest]; [constructor|].
    constructor; [by apply valType_alloc|].
    eapply Forall_impl; [by eapply sameTypeAsPrevious_Ok|].
    intros u Hu. by apply valType_alloc.
  - intros r (obj & Hobj & Hl & Hall). exists obj.
    split; [by rewrite lookup_app_l by (by eapply lookup_lt_Some)|].
    split; [done|]. eapply Forall_impl; [done|].
    intros u Hu. by apply valType_alloc.
Qed.

(** A boxed constant and an [i32] constant as phi inputs. *)
Definition boxedInput : Value :=
  VConst {| const_value := LUndefined; const_type := IRType.box |}.
Definition i32Input : Value :=
  VConst {| const_value := LNumber (Q2Qc 0); const_type := IRType.i32 |}.

(** [phi ([])] has type [none]; after [addIncoming (v1 : box, pred1)]
    its type is [box]; [addIncoming (v2 : i32, pred2)] then fails. *)
Example phi_scenario :
  ∃ σ1 σ2,
    PhiInstr [] [] [] = Ok (0, σ1) ∧ typeOf σ1 0 = Some IRType.none ∧
    addIncoming 0 boxedInput (Some 1) σ1 = Ok σ2 ∧
    typeOf σ2 0 = Some IRType.box ∧
    isOk (addIncoming 0 i32Input (Some 2) σ2) = false.
Proof. do 2 eexists. repeat split. Qed.

(** Two empty phi nodes: the first becomes an input of the second while
    both have type [none], then receives a boxed input and takes type
    [box]. *)
Definition nestedPhiHistory : result Store :=
  '(phi1, σ) ← PhiInstr [] [] [];
  '(phi2, σ) ← PhiInstr [] [] σ;
  σ ← addIncoming phi2 (VInstr phi1) (Some 0) σ;
  addIncoming phi1 boxedInput (Some 1) σ.

(** C2 on the code.  A phi node constructed without values has type
    [none]; a first [addIncoming] sets the output type of the phi node to
    the type of the value; a later one with a value whose type differs
    from the type of the inputs fails, and one that succeeds leaves the
    output type alone; every successful [addIncoming] keeps the uses and
    the predecessors of every phi node of equal length.  The type half of
    the invariant is not kept: a successful [addIncoming] on a phi node
    [phi'] breaks the invariant of a phi node [phi] exactly when [phi']
    is an input of [phi], is not [phi] itself, and the call changes the
    type of [phi'], which only a first [addIncoming] does.  So after two
    empty phi nodes were made, the first was added to the second and a
    boxed value was then added to the first, a boxed value is
    successfully added to the second, whose inputs then both have type
    [box] while its output type is [none].  (Phi nodes are taken as
    [InstrObj] has them, each with uses and predecessors arrays of its
    own.) *)
Theorem addIncoming_invariant :
  (∀ σ0, PhiInstr [] [] σ0 = Ok (length σ0, σ0 ++ [emptyPhi]) ∧
         typeOf (σ0 ++ [emptyPhi]) (length σ0) = Some IRType.none) ∧
  (∀ phi' value pred σ σ',
     addIncoming phi' value pred σ = Ok σ' →
     (∃ ty, valType σ value = Ok ty ∧
            match usesOf σ phi' with
            | [] => typeOf σ' phi' = Some ty
            | first :: _ =>
                valType σ first = Ok ty ∧ typeOf σ' phi' = typeOf σ phi'
            end) ∧
     (typeOf σ' phi' ≠ typeOf σ phi' → usesOf σ phi' = []) ∧
     (∀ r, length (usesOf σ r) = length (predsOf σ r) →
           length (usesOf σ' r) = length (predsOf σ' r)) ∧
     (∀ phi, phi_wf σ phi →
             (phi_wf σ' phi ↔
              ¬ (VInstr phi' ∈ usesOf σ phi ∧ phi' ≠ phi ∧
                 typeOf σ' phi' ≠ typeOf σ phi')))) ∧
  (∀ phi value pred σ first rest ty ty',
     usesOf σ phi = first :: rest →
     valType σ first = Ok ty → valType σ value = Ok ty' → ty' ≠ ty →
     isOk (addIncoming phi value pred σ) = false) ∧
  (∃ σ σ',
     nestedPhiHistory = Ok σ ∧
     addIncoming 1 boxedInput (Some 2) σ = Ok σ' ∧
     usesOf σ' 1 = [VInstr 0; boxedInput] ∧
     valType σ' (VInstr 0) = Ok IRType.box ∧
     valType σ' boxedInput = Ok IRType.box ∧
     typeOf σ' 1 = Some IRType.none ∧
     length (usesOf σ' 1) = length (predsOf σ' 1) ∧
     ¬ phi_wf σ' 1).
Proof.
  split; [|split; [|split]].
  - intros σ0. split; [apply PhiInstr_empty|].
    unfold typeOf. by rewrite lookup_app_r, Nat.sub_diag.
  - intros phi' value pred σ σ' Hadd.
    pose proof (addIncoming_types _ _ _ _ _ Hadd) as Htypes.
    split; [done|]. split.
    { intros Hchanged. destruct Htypes as (ty & _ & Hcase).
      destruct (usesOf σ phi'); [done|]. by destruct Hcase. }
    split; [intros r; by apply (addIncoming_lengths phi' value pred σ σ' r)|].
    intros phi Hwf. split.
    + intros Hwf' (Hin & Hne & Hchanged).
      by apply (addIncoming_breaks_wf phi phi' value pred σ σ').
    + intros Hnot. apply (addIncoming_keeps_wf phi phi' value pred σ σ');
        [done..|].
      destruct (decide (phi' = phi)) as [|Hne]; [by left|].
      destruct (decide (VInstr phi' ∈ usesOf σ phi)) as [Hin|];
        [|by right; left].
      destruct (decide (typeOf σ' phi' = typeOf σ phi')) as [|Hchanged];
        [by right; right|].
      by destruct Hnot.
  - intros phi value pred σ first rest ty ty' Huses Hfirst Hvalue Hdiff.
    destruct (addIncoming phi value pred σ) as [σ'|e] eqn:Hadd; [|done].
    apply addIncoming_types in Hadd as (ty0 & Hty0 & Hcase).
    rewrite Huses in Hcase. destruct Hcase as [Hf _]. congruence.
  - do 2 eexists. split; [reflexivity|]. split; [reflexivity|].
    repeat (split; [reflexivity|]).
    intros Hwf%phi_wfb_spec. discriminate Hwf.
Qed.

Lemma addIncoming_invariant_witness :
  ∃ σ', addIncoming 0 boxedInput (Some 1) [emptyPhi] = Ok σ' ∧
        phi_wf σ' 0 ∧ typeOf σ' 0 = Some IRType.box ∧
        length (usesOf σ' 0) = length (predsOf σ' 0).
Proof.
  eexists. split; [reflexivity|].
  assert (phi_wf [emptyPhi] 0) as Hwf by (by apply phi_wfb_spec).
  destruct addIncoming_invariant as (_ & Hstep & _ & _).
  destruct (Hstep 0 boxedInput (Some 1) [emptyPhi] _ eq_refl)
    as ((ty & Hty & Htype) & _ & Hlen & Hinv).
  split; [|split; [|by apply Hlen]].
  - apply (Hinv 0 Hwf). by intros (_ & Hne & _).
  - injection Hty as <-. exact Htype.
Defined.

End phi.

(** ** The x86 backend interface *)

(** *** Operands and assembler calls *)

(** The operand classes of the assembler: registers, memory locations and
    immediates are all instances of [x86.Operand]. *)
Inductive Operand :=
  | Register (name : string)
  | MemLoc (size : nat) (base : Operand) (disp : Z)
  | Immediate (value : Z).

#[global] Instance Operand_eq_dec : EqDecision Operand.
Proof. solve_decision. Defined.

(** [x86.regs] *)
Module regs.
Definition rax : Operand := Register "rax".
Definition eax : Operand := Register "eax".
Definition rdx : Operand := Register "rdx".
Definition edx : Operand := Register "edx".
Definition cl : Operand := Register "cl".
End regs.

(** [opnd instanceof x86.MemLoc] and [opnd instanceof x86.Immediate] *)
Definition isMemLoc (opnd : Operand) : bool :=
  match opnd with MemLoc _ _ _ => true | _ => false end.
Definition isImmediate (opnd : Operand) : bool :=
  match opnd with Immediate _ => true | _ => false end.

(** Labels are objects created by [new x86.Label (name)]; the label of a
    block and the label of a CFG edge are told apart by what they were
    created for. *)
Inductive Label :=
  | BlockLabel (block : BlockRef) (name : string)
  | EdgeLabel (pred succ : BlockRef) (name : string).

(** A value passed to a method of the assembler object. *)
Inductive AsmArg :=
  | AOpnd (opnd : Operand)
  | ANum (n : Z)
  | ALabel (label : Label)
  | AUndefined.

(** One call of a method of the assembler object; the assembler itself is
    an external collaborator, and the code it holds is the sequence of
    calls it received. *)
Record AsmCall := mkAsmCall {
  method : string;
  args : list AsmArg
}.

Abbreviation Asm := (list AsmCall).

(** [asm.<method> (args)] *)
Definition asmCall (asm : Asm) (method : string) (args : list AsmArg) : Asm :=
  asm ++ [{| method := method; args := args |}].

(** [opnds[i]] as an argument. *)
Definition opndArg (opnds : list Operand) (i : nat) : AsmArg :=
  match opnds !! i with
  | Some opnd => AOpnd opnd
  | None => AUndefined
  end.

Definition labelArg (label : option Label) : AsmArg :=
  match label with
  | Some l => ALabel l
  | None => AUndefined
  end.

(** [asm.mem (bitsize, base, offset)] *)
Definition asm_mem (bitsize : nat) (base : Operand) (offset : Z) : Operand :=
  MemLoc bitsize base offset.

(** *** The inputs of code generation *)

(** An abstract move of the allocation plan.  The source is an operand, a
    constant, or some other value; the destination should be an
    operand. *)
Inductive MoveSrc :=
  | SrcOpnd (opnd : Operand)
  | SrcConst (c : ConstValue)
  | SrcOther.

Inductive MoveDst :=
  | DstOpnd (opnd : Operand)
  | DstOther.

Record Move := mkMove {
  move_src : MoveSrc;
  move_dst : MoveDst
}.

Record CallConv := mkCallConv {
  retReg : Operand;
  calleeSave : list Operand
}.

(** The backend descriptor; [getCallConv] is applied to ['c'] ([true]) or
    ['tachyon'] ([false]). *)
Record Backend := mkBackend {
  x86_64 : bool;
  spReg : Operand;
  regSizeBits : nat;
  getCallConv : bool → CallConv
}.

(** The compilation parameters.  [x86.getImmSize] and
    [ConstValue.prototype.getImmValue] are not part of the modelled files
    and are taken as given: the size in bits of the immediate encoding of
    a constant ([None] when it has none) and the encoded value. *)
Record Params := mkParams {
  params_backend : Backend;
  getImmSize : ConstValue → option nat;
  getImmValue : ConstValue → Z
}.

(** The stack frame map of the allocation plan. *)
Record StackMap := mkStackMap {
  spillSize : Z;
  getStackLoc : Operand → nat;
  getLocOffset : nat → Z
}.

(** The allocation record of one instruction. *)
Record InstrAlloc := mkInstrAlloc {
  preMoves : list Move;
  opnds : list Operand;
  dest : option Operand;
  scratchRegs : list Operand
}.

(** The classes the emitter tells apart with [instanceof], or through the
    policy object found on the prototype chain. *)
Inductive InstrClass :=
  | KArgVal | KGetNumArgs | KGetArgTable | KPhi
  | KGetCtx | KSetCtx
  | KAdd | KSub | KMul | KMod | KLsft
  | KCallFunc | KJump | KIf | KRet | KLoad
  | KOther.

(** An instruction as the backend sees it: its class, its fields, and the
    comparison token of an [if]. *)
Record BackendInstr := mkBackendInstr {
  cls : InstrClass;
  ir : IRInstr;
  testOp : option string
}.

(** A basic block object. *)
Record BasicBlock := mkBasicBlock {
  blockId : nat;
  blockName : string;
  preds : list BlockRef;
  succs : list BlockRef;
  instrs : list BackendInstr
}.

(** Modelled from the spec: [CfgEdgeMap] is not part of the modelled
    files; it is a map keyed by the (pred, succ) pair of an edge. *)
Abbreviation CfgEdgeMap V := (gmap (BlockRef * BlockRef) V).

Record AllocInfo := mkAllocInfo {
  stackMap : StackMap;
  instrMap : gmap nat InstrAlloc;
  mergeMoves : CfgEdgeMap (list Move)
}.

(** The code generation info object built by [x86.irToASM]. *)
Record GenInfo := mkGenInfo {
  gi_callConv : CallConv;
  gi_edgeLabels : CfgEdgeMap Label;
  gi_stackMap : StackMap;
  gi_backend : Backend;
  gi_params : Params
}.

(** Modelled from the spec: [isUnsigned] and [isSigned] are not defined on
    [IRTypeObj] in the modelled files; the unsigned types are the
    unsigned integers and the signed types the signed integers. *)
Definition isUnsigned (ty : IRType.t) : bool :=
  match ty with
  | IRType.u8 | IRType.u16 | IRType.u32 | IRType.u64 => true
  | _ => false
  end.
Definition isSigned (ty : IRType.t) : bool :=
  match ty with
  | IRType.i8 | IRType.i16 | IRType.i32 | IRType.i64 => true
  | _ => false
  end.

(** A policy object.  The constructor [x86.InstrCfg] is not part of the
    modelled files; of the object it makes, code generation reads the
    [type] property only ([None] when the property is undefined). *)
Record InstrCfg := mkInstrCfg {
  cfg_type : option IRType.t
}.

(** A loop over an array whose body updates the assembler and may
    throw. *)
Fixpoint forEachAsm {A} (asm : Asm) (array : list A)
    (body : Asm → A → result Asm) : result Asm :=
  match array with
  | [] => Ok asm
  | x :: rest => asm ← body asm x; forEachAsm asm rest body
  end.

(** *** Move lowering *)

(** [x86.insertMove] *)
Definition insertMove (asm : Asm) (move : Move) (params : Params) : result Asm :=
  dst ← match move_dst move with
        | DstOpnd dst => Ok dst
        | DstOther => Err (AssertError "invalid move dst")
        end;
  match move_src move with
  | SrcOpnd src =>
      assert (negb (isMemLoc src) || negb (isMemLoc dst)) "memory to memory move";;
      Ok (asmCall asm "mov" [AOpnd dst; AOpnd src])
  | SrcConst c =>
      let immSize := getImmSize params c in
      match immSize with
      | Some size =>
          if bool_decide (size ≤ regSizeBits (params_backend params))
          then Ok (asmCall asm "mov" [AOpnd dst; ANum (getImmValue params c)])
          else Ok (asmCall asm "nop" [])
      | None => Ok (asmCall asm "nop" [])
      end
  | SrcOther => Ok (asmCall asm "nop" [])
  end.

(** *** Edge transitions *)

(** [x86.insertEdgeTrans]; [succId] is [succ.blockId]. *)
Definition insertEdgeTrans (asm : Asm) (pred succ : BlockRef) (succId : nat)
    (mergeMoves : CfgEdgeMap (list Move)) (blockLabels : gmap nat Label)
    (edgeLabels : CfgEdgeMap Label) (params : Params) : result Asm :=
  let edge := (pred, succ) in
  transLabel ← getItem edgeLabels edge;
  let asm := asmCall asm "addInstr" [ALabel transLabel] in
  moves ← getItem mergeMoves edge;
  asm ← forEachAsm asm moves (λ asm move, insertMove asm move params);
  Ok (asmCall asm "jmp" [labelArg (blockLabels !! succId)]).

(** *** Code generation of the instructions *)

(** The signature of a [genCode] method; [this] is the policy object the
    method is called on, and the assembler comes first. *)
Definition GenCode : Type :=
  InstrCfg → Asm → BackendInstr → list Operand → option Operand →
  list Operand → GenInfo → result Asm.

Definition GetCtxInstr_genCode : GenCode :=
  λ this asm instr opnds dest scratch genInfo, Ok asm.

(** [SetCtxInstr]: the body reads [params], which is not bound in the
    method (the parameters are [genInfo.params]). *)
Definition SetCtxInstr_genCode : GenCode :=
  λ this asm instr opnds dest scratch genInfo,
    Err (TypeError "params is not defined").

Definition AddInstr_genCode : GenCode :=
  λ this asm instr opnds dest scratch genInfo,
    Ok (asmCall asm "add" [opndArg opnds 0; opndArg opnds 1]).

Definition SubInstr_genCode : GenCode :=
  λ this asm instr opnds dest scratch genInfo,
    Ok (asmCall asm "sub" [opndArg opnds 0; opndArg opnds 1]).

Definition destArg (dest : option Operand) : AsmArg :=
  match dest with
  | Some opnd => AOpnd opnd
  | None => AUndefined
  end.

(** [opnds[i] instanceof x86.Immediate] *)
Definition opndIsImmediate (opnds : list Operand) (i : nat) : bool :=
  match opnds !! i with
  | Some opnd => isImmediate opnd
  | None => false
  end.

Definition MulInstr_genCode : GenCode :=
  λ this asm instr opnds dest scratch genInfo,
    if isUnsigned (type (ir instr)) then
      assert (bool_decide (opnds !! 0 = Some regs.rax) ||
              bool_decide (opnds !! 0 = Some regs.eax))
             "invalid opnd 0";;
      Ok (asmCall asm "mul" [opndArg opnds 1])
    else if opndIsImmediate opnds 0 then
      Ok (asmCall asm "imul" [destArg dest; opndArg opnds 1; opndArg opnds 0])
    else if opndIsImmediate opnds 1 then
      Ok (asmCall asm "imul" [destArg dest; opndArg opnds 0; opndArg opnds 1])
    else
      Ok (asmCall asm "imul" [opndArg opnds 0; opndArg opnds 1]).

(** The policy of [ModInstr]. *)
Definition ModInstr_opndMustBeReg (instr : BackendInstr) (idx : nat) : bool :=
  bool_decide (idx = 0).
Definition ModInstr_opndRegSet (instr : BackendInstr) (idx : nat)
  : option (list Operand) :=
  if bool_decide (idx = 0) then Some [regs.rax; regs.eax] else None.
Definition ModInstr_destIsOpnd0 (instr : BackendInstr) : bool := false.
Definition ModInstr_destMustBeReg (instr : BackendInstr) : bool := true.
Definition ModInstr_destRegSet (instr : BackendInstr) : list Operand :=
  [regs.rdx; regs.edx].

(** [ModInstr.prototype.x86.genCode]: the test of signedness reads
    [this.type], the [type] property of the policy object. *)
Definition ModInstr_genCode : GenCode :=
  λ this asm instr opnds dest scratch genInfo,
    let x86_64 := x86_64 (gi_backend genInfo) in
    let xDX := if x86_64 then regs.rdx else regs.edx in
    thisType ← match cfg_type this with
               | Some ty => Ok ty
               | None => Err (TypeError "cannot read property of undefined")
               end;
    if isUnsigned thisType then
      let asm := asmCall asm "mov" [AOpnd xDX; ANum 0] in
      Ok (asmCall asm "div" [opndArg opnds 1])
    else
      let asm := if x86_64 then asmCall asm "cqo" [] else asmCall asm "cdq" [] in
      Ok (asmCall asm "idiv" [opndArg opnds 1]).

Definition LsftInstr_genCode : GenCode :=
  λ this asm instr opnds dest scratch genInfo,
    if opndIsImmediate opnds 1 then
      Ok (asmCall asm "sal" [destArg dest; opndArg opnds 1])
    else
      let asm := asmCall asm "mov" [AOpnd regs.cl; opndArg opnds 1] in
      Ok (asmCall asm "sal" [destArg dest; AOpnd regs.cl]).

Definition CallFuncInstr_genCode : GenCode :=
  λ this asm instr opnds dest scratch genInfo, Ok (asmCall asm "nop" []).

(** The label of the edge from the parent block of [instr] to its
    [i]-th target. *)
Definition targetEdgeLabel (genInfo : GenInfo) (instr : BackendInstr) (i : nat)
  : result Label :=
  match parentBlock (ir instr), targets (ir instr) !! i with
  | Some pred, Some succ => getItem (gi_edgeLabels genInfo) (pred, succ)
  | _, _ => Err (AssertError "cannot get item, key not found")
  end.

Definition JumpInstr_genCode : GenCode :=
  λ this asm instr opnds dest scratch genInfo,
    label ← targetEdgeLabel genInfo instr 0;
    Ok (asmCall asm "jmp" [ALabel label]).

(** The inner function [genCmp] of the [if] code generator. *)
Definition genCmp (asm : Asm) (instr : BackendInstr) (opnds : list Operand)
    (trueLabel falseLabel : Label) (jmpTrueSgn jmpTrue : string) (invSens : bool)
  : result Asm :=
  let '(asm, trueLabel, falseLabel) :=
    if opndIsImmediate opnds 0 then
      let asm := asmCall asm "cmp" [opndArg opnds 1; opndArg opnds 0] in
      if invSens then (asm, falseLabel, trueLabel)
      else (asm, trueLabel, falseLabel)
    else
      (asmCall asm "cmp" [opndArg opnds 0; opndArg opnds 1], trueLabel, falseLabel) in
  use0 ← inputAt (uses (ir instr)) 0;
  let asm :=
    if isSigned (val_type use0) || same_type (val_type use0) IRType.box
    then asmCall asm jmpTrueSgn [ALabel trueLabel]
    else asmCall asm jmpTrue [ALabel trueLabel] in
  Ok (asmCall asm "jmp" [ALabel falseLabel]).

Definition IfInstr_genCode : GenCode :=
  λ this asm instr opnds dest scratch genInfo,
    trueLabel ← targetEdgeLabel genInfo instr 0;
    falseLabel ← targetEdgeLabel genInfo instr 1;
    match testOp instr with
    | Some "LT" => genCmp asm instr opnds trueLabel falseLabel "jl" "jb" true
    | Some "EQ" => genCmp asm instr opnds trueLabel falseLabel "je" "je" false
    | Some "NE" => genCmp asm instr opnds trueLabel falseLabel "jne" "jne" false
    | _ => Err (AssertError "unsupported comparison operation in if test")
    end.

Definition RetInstr_genCode : GenCode :=
  λ this asm instr opnds dest scratch genInfo,
    let backend := gi_backend genInfo in
    let callConv := gi_callConv genInfo in
    let stackMap := gi_stackMap genInfo in
    let spReg := spReg (gi_backend genInfo) in
    asm ← forEachAsm asm (calleeSave callConv) (λ asm reg,
            let stackLoc := getStackLoc stackMap reg in
            let offset := getLocOffset stackMap stackLoc in
            Ok (asmCall asm "mov"
                  [AOpnd reg; AOpnd (asm_mem (regSizeBits backend) spReg offset)]));
    let asm :=
      if bool_decide (spillSize stackMap ≠ 0%Z)
      then asmCall asm "add" [AOpnd spReg; ANum (spillSize stackMap)]
      else asm in
    Ok (asmCall asm "ret" []).

Definition LoadInstr_genCode : GenCode :=
  λ this asm instr opnds dest scratch genInfo, Ok (asmCall asm "nop" []).

(** [instr.x86.genCode]: the method found through the policy object of the
    instruction's class, [None] when there is none. *)
Definition x86_genCode (c : InstrClass) : option GenCode :=
  match c with
  | KGetCtx => Some GetCtxInstr_genCode
  | KSetCtx => Some SetCtxInstr_genCode
  | KAdd => Some AddInstr_genCode
  | KSub => Some SubInstr_genCode
  | KMul => Some MulInstr_genCode
  | KMod => Some ModInstr_genCode
  | KLsft => Some LsftInstr_genCode
  | KCallFunc => Some CallFuncInstr_genCode
  | KJump => Some JumpInstr_genCode
  | KIf => Some IfInstr_genCode
  | KRet => Some RetInstr_genCode
  | KLoad => Some LoadInstr_genCode
  | KArgVal | KGetNumArgs | KGetArgTable | KPhi | KOther => None
  end.

(** The instructions for which no code is generated. *)
Definition isPseudoInstr (c : InstrClass) : bool :=
  match c with
  | KArgVal | KGetNumArgs | KGetArgTable | KPhi => true
  | _ => false
  end.

(** *** The emission driver *)

Section driver.

(** The block objects, by reference, and the policy objects of the
    instruction classes. *)
Variable blocks : BlockRef → BasicBlock.
Variable x86cfg : InstrClass → InstrCfg.

(** The labels created for a block and for an edge. *)
Definition blockLabelOf (block : BlockRef) : Label :=
  BlockLabel block (blockName (blocks block)).
Definition edgeLabelOf (pred succ : BlockRef) : Label :=
  EdgeLabel pred succ
    (blockName (blocks pred) +:+ "_" +:+ blockName (blocks succ)).

(** One round of the label-creating loop of [x86.irToASM]: the label of
    the block, stored at its [blockId], and a label for each of its
    outgoing edges. *)
Definition makeBlockLabels (labels : gmap nat Label * CfgEdgeMap Label)
    (pred : BlockRef) : gmap nat Label * CfgEdgeMap Label :=
  let blockLabels := <[blockId (blocks pred) := blockLabelOf pred]> labels.1 in
  let edgeLabels :=
    fold_left
      (λ edgeLabels succ,
         let edge := (pred, succ) in
         let edgeLabel := edgeLabelOf pred succ in
         addItem edgeLabels edge edgeLabel)
      (succs (blocks pred)) labels.2 in
  (blockLabels, edgeLabels).

(** The label-creating loop. *)
Definition makeLabels (blockOrder : list BlockRef)
  : gmap nat Label * CfgEdgeMap Label :=
  fold_left makeBlockLabels blockOrder (∅, ∅).

(** The body of the loop over the instructions of a block. *)
Definition emitInstr (allocInfo : AllocInfo) (genInfo : GenInfo) (params : Params)
    (asm : Asm) (instr : BackendInstr) : result Asm :=
  if isPseudoInstr (cls instr) then Ok asm
  else
    genCode ← match x86_genCode (cls instr) with
              | Some genCode => Ok genCode
              | None => Err (AssertError "no genCode method for instruction")
              end;
    instrAlloc ← match instrMap allocInfo !! instrId (ir instr) with
                 | Some instrAlloc => Ok instrAlloc
                 | None => Err (TypeError "cannot read property of undefined")
                 end;
    asm ← forEachAsm asm (preMoves instrAlloc)
            (λ asm move, insertMove asm move params);
    genCode (x86cfg (cls instr)) asm instr (opnds instrAlloc) (dest instrAlloc)
            (scratchRegs instrAlloc) genInfo.

(** The body of the loop over the block ordering. *)
Definition emitBlock (allocInfo : AllocInfo) (blockLabels : gmap nat Label)
    (edgeLabels : CfgEdgeMap Label) (genInfo : GenInfo) (params : Params)
    (asm : Asm) (block : BlockRef) : result Asm :=
  asm ← forEachAsm asm (preds (blocks block)) (λ asm pred,
          if bool_decide (length (succs (blocks pred)) = 1) then Ok asm
          else insertEdgeTrans asm pred block (blockId (blocks block))
                 (mergeMoves allocInfo) blockLabels edgeLabels params);
  let asm :=
    asmCall asm "addInstr" [labelArg (blockLabels !! blockId (blocks block))] in
  asm ← forEachAsm asm (instrs (blocks block))
          (emitInstr allocInfo genInfo params);
  if bool_decide (length (succs (blocks block)) = 1) then
    match succs (blocks block) !! 0 with
    | Some succ =>
        insertEdgeTrans asm block succ (blockId (blocks succ))
          (mergeMoves allocInfo) blockLabels edgeLabels params
    | None => Ok asm
    end
  else Ok asm.

(** The prologue: the spill area and the callee-save registers. *)
Definition emitPrologue (stackMap : StackMap) (callConv : CallConv)
    (backend : Backend) (asm : Asm) : result Asm :=
  let asm :=
    if bool_decide (spillSize stackMap ≠ 0%Z)
    then asmCall asm "sub" [AOpnd (spReg backend); ANum (spillSize stackMap)]
    else asm in
  forEachAsm asm (calleeSave callConv) (λ asm reg,
    let stackLoc := getStackLoc stackMap reg in
    let offset := getLocOffset stackMap stackLoc in
    Ok (asmCall asm "mov"
          [AOpnd (asm_mem (regSizeBits backend) (spReg backend) offset);
           AOpnd reg])).

(** [x86.irToASM]; [cProxy] is [irFunc.cProxy]. *)
Definition irToASM (cProxy : bool) (blockOrder : list BlockRef)
    (allocInfo : AllocInfo) (backend : Backend) (params : Params) : result Asm :=
  let asm : Asm := [] in
  let stackMap := stackMap allocInfo in
  let callConv := getCallConv (params_backend params) cProxy in
  asm ← emitPrologue stackMap callConv backend asm;
  let blockLabels := (makeLabels blockOrder).1 in
  let edgeLabels := (makeLabels blockOrder).2 in
  let genInfo :=
    {| gi_callConv := callConv; gi_edgeLabels := edgeLabels;
       gi_stackMap := stackMap; gi_backend := backend; gi_params := params |} in
  forEachAsm asm blockOrder
    (emitBlock allocInfo blockLabels edgeLabels genInfo params).

End driver.

(** ** Properties of emission *)


Section writers.

Implicit Types (asm out : Asm) (f g : Asm → result Asm).











End writers.

(** *** Move lowering safety *)

(** A [mov] call whose destination and source are both memory
    locations. *)
Definition memToMemMov (c : AsmCall) : bool :=
  bool_decide (method c = "mov") &&
  match args c with
  | [AOpnd dst; AOpnd src] => isMemLoc dst && isMemLoc src
  | _ => false
  end.

Section moves.

(** What a successful [insertMove] adds holds no memory-to-memory
    [mov]. *)
Lemma insertMove_Ok_safe asm move params asm' :
  insertMove asm move params = Ok asm' →
  ∃ out, asm' = asm ++ out ∧ Forall (λ c, memToMemMov c = false) out.
Proof.
  unfold insertMove. intros H.
  apply bind_Ok in H as (dst & _ & H).
  destruct (move_src move) as [src|c|].
  - apply bind_Ok in H as ([] & Hassert & [= <-]).
    apply assert_Ok in Hassert.
    eexists. split; [reflexivity|]. apply Forall_singleton.
    unfold memToMemMov. simpl.
    destruct (isMemLoc src), (isMemLoc dst); done.
  - destruct (getImmSize params c) as [size|];
      [destruct (bool_decide _)|]; injection H as <-;
      (eexists; split; [reflexivity|]); by apply Forall_singleton.
  - injection H as <-. eexists. split; [reflexivity|].
    by apply Forall_singleton.
Qed.

(** C8 (move lowering safety).  Whatever an abstract move makes the
    emitter add to the assembler contains no [mov] from a memory location
    to a memory location; and a move whose source and destination are both
    memory operands fails the assertion instead of being emitted. *)
Theorem insertMove_no_mem_to_mem asm move params :
  (∀ asm', insertMove asm move params = Ok asm' →
           ∃ out, asm' = asm ++ out ∧ Forall (λ c, memToMemMov c = false) out)
  ∧
  (∀ src dst, move_src move = SrcOpnd src → move_dst move = DstOpnd dst →
              isMemLoc src = true → isMemLoc dst = true →
              insertMove asm move params
              = Err (AssertError "memory to memory move")).
Proof.
  split.
  - intros asm'. apply insertMove_Ok_safe.
  - intros src dst Hsrc Hdst Hs Hd. unfold insertMove.
    rewrite Hsrc, Hdst. simpl. by rewrite Hs, Hd.
Qed.

Lemma insertMove_no_mem_to_mem_witness :
  let mem := MemLoc 64 (Register "rsp") 8 in
  let params :=
    {| params_backend :=
         {| x86_64 := true; spReg := Register "rsp"; regSizeBits := 64;
            getCallConv := λ _, {| retReg := regs.rax; calleeSave := [] |} |};
       getImmSize := λ _, Some 32; getImmValue := λ _, 7%Z |} in
  insertMove [] {| move_src := SrcOpnd mem; move_dst := DstOpnd regs.rax |} params
  = Ok [{| method := "mov"; args := [AOpnd regs.rax; AOpnd mem] |}]
  ∧
  insertMove [] {| move_src := SrcOpnd mem; move_dst := DstOpnd mem |} params
  = Err (AssertError "memory to memory move").
Proof.
  intros mem params. split; [reflexivity|].
  exact (proj2 (insertMove_no_mem_to_mem []
                  {| move_src := SrcOpnd mem; move_dst := DstOpnd mem |} params)
               mem mem eq_refl eq_refl eq_refl eq_refl).
Defined.

(** The same for a sequence of moves, as the pre-moves of an instruction
    and the merge moves of an edge are emitted. *)
Lemma insertMoves_no_mem_to_mem asm moves params asm' :
  forEachAsm asm moves (λ asm move, insertMove asm move params) = Ok asm' →
  ∃ out, asm' = asm ++ out ∧ Forall (λ c, memToMemMov c = false) out.
Proof.
  revert asm. induction moves as [|move rest IH]; intros asm H.
  - injection H as <-. exists []. by rewrite app_nil_r.
  - simpl in H. apply bind_Ok in H as (asm1 & H1 & H).
    apply insertMove_Ok_safe in H1 as (out1 & -> & Hout1).
    apply IH in H as (out & -> & Hout).
    exists (out1 ++ out). rewrite app_assoc. split; [done|].
    by apply Forall_app.
Qed.

End moves.

(** *** Modulo lowering *)

(** The code the specification prescribes for a [mod] instruction:
    unsigned output zeroes [rdx]/[edx] and divides with [div], signed
    output sign-extends with [cqo] (64-bit) or [cdq] (32-bit) and divides
    with [idiv]. *)
Definition spec_modCode (instr : BackendInstr) (opnds : list Operand)
    (x86_64 : bool) : Asm :=
  if isUnsigned (type (ir instr)) then
    [ {| method := "mov";
         args := [AOpnd (if x86_64 then regs.rdx else regs.edx); ANum 0] |};
      {| method := "div"; args := [opndArg opnds 1] |} ]
  else
    [ {| method := (if x86_64 then "cqo" else "cdq"); args := [] |};
      {| method := "idiv"; args := [opndArg opnds 1] |} ].

(** A [mod] instruction of the given output type. *)
Definition modInstrOfType (ty : IRType.t) : BackendInstr :=
  {| cls := KMod; ir := set_type ty (set_mnemonic "mod" new_IRInstr);
     testOp := None |}.

Section modulo.

Implicit Types (this : InstrCfg) (instr : BackendInstr) (genInfo : GenInfo).

(** The register constraints of [mod]: the dividend in [rax]/[eax], the
    result in [rdx]/[edx], which is not the storage of operand 0. *)
Lemma ModInstr_policy instr :
  ModInstr_opndMustBeReg instr 0 = true ∧
  ModInstr_opndRegSet instr 0 = Some [regs.rax; regs.eax] ∧
  ModInstr_destMustBeReg instr = true ∧
  ModInstr_destRegSet instr = [regs.rdx; regs.edx] ∧
  ModInstr_destIsOpnd0 instr = false.
Proof. done. Qed.

(** The emitted code does not depend on the instruction. *)
Lemma ModInstr_genCode_ignores_instr this asm instr1 instr2 opnds dest scratch genInfo :
  ModInstr_genCode this asm instr1 opnds dest scratch genInfo
  = ModInstr_genCode this asm instr2 opnds dest scratch genInfo.
Proof. reflexivity. Qed.

(** Were the signedness read from the instruction, the code would be the
    prescribed one: it is when the policy object happens to carry the
    instruction's type. *)
Lemma ModInstr_genCode_matching this asm instr opnds dest scratch genInfo :
  cfg_type this = Some (type (ir instr)) →
  ModInstr_genCode this asm instr opnds dest scratch genInfo
  = Ok (asm ++ spec_modCode instr opnds (x86_64 (gi_backend genInfo))).
Proof.
  intros Hty. unfold ModInstr_genCode, spec_modCode. rewrite Hty. simpl.
  destruct (isUnsigned _), (x86_64 _); unfold asmCall;
    by rewrite <- app_assoc.
Qed.

(** C9 on the code.  [ModInstr.prototype.x86.genCode] tests
    [this.type.isUnsigned ()], where [this] is the policy object: on a
    policy object without a [type] property the call throws for every
    [mod] instruction (here one of type [u32] with operands [eax], [ecx]),
    and whatever the policy object holds, the code emitted for an unsigned
    [mod] or the code emitted for a signed [mod] is not the prescribed
    one. *)
Theorem ModInstr_genCode_reads_policy_type genInfo :
  let opnds := [regs.eax; Register "ecx"] in
  ModInstr_genCode {| cfg_type := None |} [] (modInstrOfType IRType.u32)
                   opnds (Some regs.edx) [] genInfo
  = Err (TypeError "cannot read property of undefined")
  ∧
  ∀ this, ∃ instr,
    cls instr = KMod ∧
    ModInstr_genCode this [] instr opnds (Some regs.edx) [] genInfo
    ≠ Ok (spec_modCode instr opnds (x86_64 (gi_backend genInfo))).
Proof.
  intros opnds. split; [reflexivity|]. intros this.
  destruct (cfg_type this) as [ty|] eqn:Hty.
  - destruct (isUnsigned ty) eqn:Hu.
    + exists (modInstrOfType IRType.i32). split; [done|].
      unfold ModInstr_genCode, spec_modCode. rewrite Hty. simpl. rewrite Hu.
      destruct (x86_64 _); discriminate.
    + exists (modInstrOfType IRType.u32). split; [done|].
      unfold ModInstr_genCode, spec_modCode. rewrite Hty. simpl. rewrite Hu.
      destruct (x86_64 _); discriminate.
  - exists (modInstrOfType IRType.u32). split; [done|].
    unfold ModInstr_genCode. rewrite Hty. discriminate.
Qed.

End modulo.

(** *** Edge-transition emission *)



Section layout.

Variable blocks : BlockRef → BasicBlock.
Variable x86cfg : InstrClass → InstrCfg.

Implicit Types (asm out code : Asm) (pred succ block : BlockRef).
Implicit Types (blockOrder : list BlockRef) (allocInfo : AllocInfo).



(** The code generation info object of a run of [x86.irToASM]. *)
Definition irGenInfo (cProxy : bool) blockOrder allocInfo (backend : Backend)
    (params : Params) : GenInfo :=
  {| gi_callConv := getCallConv (params_backend params) cProxy;
     gi_edgeLabels := (makeLabels blocks blockOrder).2;
     gi_stackMap := stackMap allocInfo;
     gi_backend := backend;
     gi_params := params |}.


(** The edge labels: only edges from an ordered block to one of its
    successors have one, and it is the label created for that edge. *)
Lemma edgeLabels_fold pred (succList : list BlockRef)
    (edgeLabels : gmap (BlockRef * BlockRef) Label) (p s : BlockRef) (l : Label) :
  fold_left (λ edgeLabels succ,
               addItem edgeLabels (pred, succ) (edgeLabelOf blocks pred succ))
            succList edgeLabels !! (p, s) = Some l →
  (p = pred ∧ s ∈ succList ∧ l = edgeLabelOf blocks p s) ∨
  edgeLabels !! (p, s) = Some l.
Proof.
  revert edgeLabels. induction succList as [|succ rest IH]; intros edgeLabels H.
  - by right.
  - simpl in H. apply IH in H as [(-> & Hin & ->)|H].
    + left. split; [done|]. split; [by right | done].
    + unfold addItem in H. apply lookup_insert_Some in H as [[[= <- <-] <-]|[_ H]].
      * left. split; [done|]. split; [by left | done].
      * by right.
Qed.

Lemma makeLabels_edge_acc blockOrder
    (labels : gmap nat Label * gmap (BlockRef * BlockRef) Label)
    (p s : BlockRef) (l : Label) :
  (fold_left (makeBlockLabels blocks) blockOrder labels).2 !! (p, s) = Some l →
  (p ∈ blockOrder ∧ s ∈ succs (blocks p) ∧ l = edgeLabelOf blocks p s) ∨
  labels.2 !! (p, s) = Some l.
Proof.
  revert labels. induction blockOrder as [|b rest IH]; intros labels H.
  - by right.
  - simpl in H. apply IH in H as [(Hin & Hs & ->)|H].
    + left. split; [by right | done].
    + unfold makeBlockLabels in H. simpl in H.
      apply edgeLabels_fold in H as [(-> & Hs & ->)|H].
      * left. split; [by left | done].
      * by right.
Qed.

Lemma makeLabels_edge blockOrder (p s : BlockRef) (l : Label) :
  (makeLabels blocks blockOrder).2 !! (p, s) = Some l →
  p ∈ blockOrder ∧ s ∈ succs (blocks p) ∧ l = edgeLabelOf blocks p s.
Proof.
  unfold makeLabels. intros [H|H]%makeLabels_edge_acc; [done|].
  simpl in H. by rewrite lookup_empty in H.
Qed.














End layout.

(** *** A function with a conditional and a merge *)

(** An instruction of class [c] placed in the block [parent]. *)
Definition branchInstr (c : InstrClass) (id : nat) (parent : BlockRef)
    (inputs : list IRValue) (tgts : list BlockRef) (op : option string)
  : BackendInstr :=
  {| cls := c;
     ir := {| mnemonic := ""; outName := ""; instrId := id;
              type := IRType.none; typeParams := []; uses := inputs;
              dests := []; targets := tgts; sideEffects := false;
              parentBlock := Some parent |};
     testOp := op |}.

(** Block 0 branches with [if] to blocks 1 and 2, which both jump to
    block 3; block 3 starts with a phi node and returns. *)
Definition diamondBlocks (r : BlockRef) : BasicBlock :=
  match r with
  | 0 => {| blockId := 0; blockName := "entry"; preds := []; succs := [1; 2];
            instrs := [branchInstr KIf 0 0 [valueOfType IRType.box;
                                            valueOfType IRType.box]
                                   [1; 2] (Some "EQ")] |}
  | 1 => {| blockId := 1; blockName := "then"; preds := [0]; succs := [3];
            instrs := [branchInstr KJump 1 1 [] [3] None] |}
  | 2 => {| blockId := 2; blockName := "else"; preds := [0]; succs := [3];
            instrs := [branchInstr KJump 2 2 [] [3] None] |}
  | _ => {| blockId := 3; blockName := "join"; preds := [1; 2]; succs := [];
            instrs := [branchInstr KPhi 3 3 [] [] None;
                       branchInstr KRet 4 3 [valueOfType IRType.box] [] None] |}
  end.

Definition diamondBackend : Backend :=
  {| x86_64 := true; spReg := Register "rsp"; regSizeBits := 64;
     getCallConv := λ _, {| retReg := regs.rax; calleeSave := [] |} |}.

Definition diamondParams : Params :=
  {| params_backend := diamondBackend;
     getImmSize := λ _, Some 32; getImmValue := λ _, 1%Z |}.

Definition noMoves (operands : list Operand) : InstrAlloc :=
  {| preMoves := []; opnds := operands; dest := None; scratchRegs := [] |}.

Definition diamondAlloc : AllocInfo :=
  {| stackMap := {| spillSize := 0; getStackLoc := λ _, 0;
                    getLocOffset := λ _, 0%Z |};
     instrMap :=
       <[0 := noMoves [regs.rax; Register "rbx"]]>
       (<[1 := noMoves []]>
       (<[2 := noMoves []]>
       (<[4 := noMoves [regs.rax]]> ∅)));
     mergeMoves :=
       <[(0, 1) := []]>
       (<[(0, 2) := []]>
       (<[(1, 3) := [{| move_src := SrcOpnd (Register "rbx");
                        move_dst := DstOpnd regs.rax |}]]>
       (<[(2, 3) := [{| move_src :=
                          SrcConst {| const_value := LNumber (Q2Qc 1);
                                      const_type := IRType.box |};
                        move_dst := DstOpnd regs.rax |}]]> ∅))) |}.

Definition noPolicyType (c : InstrClass) : InstrCfg := {| cfg_type := None |}.

Section diamond.


(** Both stubs of the conditional are placed at the entry of their
    target, each merge move between the stub label and its jump. *)
Example irToASM_diamond :
  map method
    <$> irToASM diamondBlocks noPolicyType false [0; 1; 2; 3] diamondAlloc
                diamondBackend diamondParams
  = Ok ["addInstr"; "cmp"; "je"; "jmp";
        "addInstr"; "jmp"; "addInstr"; "jmp"; "addInstr"; "mov"; "jmp";
        "addInstr"; "jmp"; "addInstr"; "jmp"; "addInstr"; "mov"; "jmp";
        "addInstr"; "ret"].
Proof. vm_compute. reflexivity. Qed.

(** The stubs of the two edges into the join block, as they stand in the
    code of the run: each holds the merge move of its edge. *)
Example irToASM_diamond_stubs :
  ∃ code1 code2 code3,
    irToASM diamondBlocks noPolicyType false [0; 1; 2; 3] diamondAlloc
            diamondBackend diamondParams
    = Ok (code1 ++
          [{| method := "addInstr";
              args := [ALabel (edgeLabelOf diamondBlocks 1 3)] |};
           {| method := "mov"; args := [AOpnd regs.rax; AOpnd (Register "rbx")] |};
           {| method := "jmp";
              args := [ALabel (blockLabelOf diamondBlocks 3)] |}] ++
          code2 ++
          [{| method := "addInstr";
              args := [ALabel (edgeLabelOf diamondBlocks 2 3)] |};
           {| method := "mov"; args := [AOpnd regs.rax; ANum 1] |};
           {| method := "jmp";
              args := [ALabel (blockLabelOf diamondBlocks 3)] |}] ++
          code3).
Proof.
  destruct (irToASM diamondBlocks noPolicyType false [0; 1; 2; 3] diamondAlloc
              diamondBackend diamondParams) as [asm|e] eqn:Hrun;
    [|discriminate Hrun].
  exists (take 8 asm), (take 4 (drop 11 asm)), (drop 18 asm).
  vm_compute in Hrun. injection Hrun as <-. reflexivity.
Qed.

End diamond.

(** ** Further properties of instruction construction *)

Section argument_order.

Implicit Types (args : list CtorArg) (typeParams : list IRType.t).
Implicit Types (inputVals : list IRValue) (branchTargets : list BlockRef).

(** X1.  [parseArgs] accepts exactly the argument lists made of a run of
    type parameters, then a run of input values, then a run of branch
    targets, and returns these three runs; any other order, and any
    argument that is none of the three, is rejected. *)
Theorem parseArgs_shape baseName args typeParams inputVals branchTargets :
  parseArgs baseName args = Ok (typeParams, inputVals, branchTargets)
  ↔ args = map TypeArg typeParams ++ map ValueArg inputVals
           ++ map BlockArg branchTargets.
Proof.
  split.
  - apply parseArgs_Ok.
  - intros ->. apply parseArgs_partition.
Qed.

(** A value before a type parameter, or a block before a value, is an
    error raised outside the wrapping of initialisation errors. *)
Example parseArgs_mixed_order :
  AddInstr [ValueArg (valueOfType IRType.i32); TypeArg IRType.i32;
            ValueArg (valueOfType IRType.i32)]
  = Err (AssertError "invalid arguments passed to add constructor").
Proof. reflexivity. Qed.

End argument_order.

(** *** Branch targets of kinds declared without branch names *)

(** An initialisation function that leaves the targets alone. *)
Definition keeps_targets (f : InitFunc) : Prop :=
  ∀ typeParams inputVals branchTargets this this',
    f typeParams inputVals branchTargets this = Ok this' →
    targets this' = targets this.

Section dropped_targets.

Ltac keeps_targets_tac :=
  intros typeParams inputVals branchTargets this this' H;
  repeat (apply bind_Ok in H as (? & _ & H));
  repeat match type of H with
         | (if ?c then _ else _) = _ => destruct c
         end;
  injection H as <-; reflexivity.

Lemma ArithInstr_keeps_targets : keeps_targets ArithInstr_initFunc.
Proof. unfold ArithInstr_initFunc. keeps_targets_tac. Qed.

Lemma AddInstr_keeps_targets : keeps_targets AddInstr_initFunc.
Proof. unfold AddInstr_initFunc. keeps_targets_tac. Qed.

(** X2.  A kind declared without branch names never stores branch
    targets: whatever blocks are passed to its constructor, the
    constructed instruction has no targets.  It answers [isBranch] with
    true only through a method of its kind's own prototype: [ret], which
    has one, is a branch without targets, and a kind that inherits the
    method, like [add], is no branch. *)
Theorem instrMaker_drops_targets baseName initFunc protoObj f args i :
  effectiveInitFunc initFunc protoObj = Some f →
  keeps_targets f →
  instrMaker baseName initFunc None protoObj args = Ok i →
  targets i = [] ∧
  (∀ own, isBranchMethod own i = true ↔
          ∃ method, own = Some method ∧ method i = true) ∧
  isBranchMethod (Some RetInstr_isBranch) i = true.
Proof.
  intros Hf Hkeep Hi.
  apply instrMaker_Ok in Hi
    as (tps & ivs & bts & f' & this' & _ & Hf' & Hinit & _ & _ & _ & _ & Htg & _).
  rewrite Hf in Hf'. injection Hf' as <-.
  apply Hkeep in Hinit. simpl in Hinit.
  assert (targets i = []) as Ht by congruence.
  split; [done|]. split; [|done].
  intros [method|]; simpl.
  - split; [by exists method | by intros (m & [= <-] & ?)].
  - unfold isBranch. rewrite Ht. split; [done | by intros (m & ? & _)].
Qed.

(** [add] and [ret] given a block after their input values are
    constructed without the block; [ret] is a branch all the same. *)
Lemma instrMaker_drops_targets_witness :
  let v := valueOfType IRType.i32 in
  (∃ i, AddInstr [ValueArg v; ValueArg v; BlockArg 5] = Ok i ∧
        targets i = [] ∧ isBranchMethod None i = false) ∧
  (∃ i, RetInstr [ValueArg v; BlockArg 5] = Ok i ∧
        targets i = [] ∧ isBranchMethod (Some RetInstr_isBranch) i = true).
Proof.
  intros v. split.
  - destruct (AddInstr [ValueArg v; ValueArg v; BlockArg 5]) as [i|e] eqn:Hi;
      [|discriminate Hi].
    exists i. split; [reflexivity|].
    destruct (instrMaker_drops_targets (Some "add") (Some AddInstr_initFunc)
                (Some ArithInstr) AddInstr_initFunc _ i eq_refl
                AddInstr_keeps_targets Hi) as (Ht & Hown & _).
    split; [exact Ht|].
    destruct (isBranchMethod None i) eqn:E; [|reflexivity].
    apply Hown in E as (method & Hnone & _). discriminate Hnone.
  - destruct (RetInstr [ValueArg v; BlockArg 5]) as [i|e] eqn:Hi;
      [|discriminate Hi].
    exists i. split; [reflexivity|].
    unfold RetInstr in Hi.
    refine (let H := instrMaker_drops_targets (Some "ret") (Some _) None _ _ i
                       eq_refl _ Hi in conj (proj1 H) (proj2 (proj2 H))).
    unfold keeps_targets.
    intros typeParams inputVals branchTargets this this' H.
    apply bind_Ok in H as ([] & _ & [= <-]). reflexivity.
Defined.

End dropped_targets.

(** *** Copying an instruction *)

Definition set_outName (n : string) (i : IRInstr) : IRInstr :=
  mkIRInstr (mnemonic i) n (instrId i) (type i) (typeParams i) (uses i)
            (dests i) (targets i) (sideEffects i) (parentBlock i).
Definition set_instrId (id : nat) (i : IRInstr) : IRInstr :=
  mkIRInstr (mnemonic i) (outName i) id (type i) (typeParams i) (uses i)
            (dests i) (targets i) (sideEffects i) (parentBlock i).
Definition set_parentBlock (b : option BlockRef) (i : IRInstr) : IRInstr :=
  mkIRInstr (mnemonic i) (outName i) (instrId i) (type i) (typeParams i)
            (uses i) (dests i) (targets i) (sideEffects i) b.
Definition set_dests (ds : list nat) (i : IRInstr) : IRInstr :=
  mkIRInstr (mnemonic i) (outName i) (instrId i) (type i) (typeParams i)
            (uses i) ds (targets i) (sideEffects i) (parentBlock i).

(** [IRInstr.prototype.baseCopy] *)
Definition baseCopy (this newInstr : IRInstr) : IRInstr :=
  set_parentBlock None
    (set_instrId (instrId this)
       (set_outName (outName this)
          (set_mnemonic (mnemonic this) newInstr))).

(** The [copy] method [instrMaker] gives the constructor [InstrConstr]:
    the constructor is called again on the stored type parameters, uses
    and targets. *)
Definition instrCopy (InstrConstr : list CtorArg → result IRInstr)
    (this : IRInstr) : result IRInstr :=
  let copyArgs : list CtorArg := [] in
  let copyArgs := copyArgs ++ map TypeArg (typeParams this) in
  let copyArgs := copyArgs ++ map ValueArg (uses this) in
  let copyArgs := copyArgs ++ map BlockArg (targets this) in
  newInstr ← InstrConstr copyArgs;
  Ok (baseCopy this newInstr).

(** What passes do to an instruction after its construction: name its
    output, give it an id, link it into a block, record its readers. *)
Definition linkInstr (name : string) (id : nat) (parent : option BlockRef)
    (readers : list nat) (i : IRInstr) : IRInstr :=
  set_dests readers (set_parentBlock parent (set_instrId id (set_outName name i))).

Section copy.

(** X3.  Copying an instruction of a kind declared with branch names,
    after it was named, numbered, linked into a block and given readers,
    succeeds and yields the instruction as constructed (same mnemonic,
    type parameters, uses, targets, output type and side-effect flag) with
    the output name and id of the original, but without parent block and
    with the readers it had at construction. *)
Theorem instrCopy_branch_kind baseName initFunc branchNames protoObj args i
    name id parent readers :
  instrMaker baseName initFunc (Some branchNames) protoObj args = Ok i →
  instrCopy (instrMaker baseName initFunc (Some branchNames) protoObj)
            (linkInstr name id parent readers i)
  = Ok (linkInstr name id None (dests i) i).
Proof.
  intros Hi. unfold instrCopy. simpl.
  pose proof Hi as Hi'.
  apply instrMaker_Ok in Hi'
    as (tps & ivs & bts & f & this' & Hp & _ & _ & Htp & Hu & _ & _ & Htg & _).
  apply parseArgs_Ok in Hp.
  rewrite Htp, Hu, Htg, <- app_assoc, <- Hp, Hi. simpl.
  destruct i. reflexivity.
Qed.

Lemma instrCopy_branch_kind_witness :
  let v := valueOfType IRType.box in
  ∃ i c, AddOvfInstr [ValueArg v; ValueArg v; BlockArg 1; BlockArg 2] = Ok i ∧
         instrCopy AddOvfInstr (linkInstr "x" 7 (Some 0) [9] i) = Ok c ∧
         targets c = [1; 2] ∧ outName c = "x" ∧ instrId c = 7 ∧
         parentBlock c = None ∧ dests c = [].
Proof.
  intros v.
  destruct (AddOvfInstr [ValueArg v; ValueArg v; BlockArg 1; BlockArg 2])
    as [i|e] eqn:Hi; [|discriminate Hi].
  exists i, (linkInstr "x" 7 None (dests i) i). split; [done|].
  split.
  - exact (instrCopy_branch_kind (Some "add_ovf") None [Some "normal"; Some "overflow"]
             (Some ArithOvfInstr) _ i "x" 7 (Some 0) [9] Hi).
  - injection Hi as <-. repeat split.
Defined.

(** X4.  Copying an instruction of a kind declared without branch names,
    built from type parameters and input values, succeeds likewise. *)
Theorem instrCopy_plain_kind baseName initFunc protoObj f typeParams inputVals i
    name id parent readers :
  effectiveInitFunc initFunc protoObj = Some f →
  keeps_targets f →
  instrMaker baseName initFunc None protoObj
    (map TypeArg typeParams ++ map ValueArg inputVals) = Ok i →
  instrCopy (instrMaker baseName initFunc None protoObj)
            (linkInstr name id parent readers i)
  = Ok (linkInstr name id None (dests i) i).
Proof.
  intros Hf Hkeep Hi. unfold instrCopy. simpl.
  pose proof Hi as Hi'.
  apply instrMaker_Ok in Hi'
    as (tps & ivs & bts & f' & this' & Hp & Hf' & Hinit & Htp & Hu & _ & _ & Htg & _).
  rewrite Hf in Hf'. injection Hf' as <-.
  apply Hkeep in Hinit. simpl in Hinit.
  pose proof (parseArgs_partition baseName typeParams inputVals []) as Hp'.
  simpl in Hp'. rewrite app_nil_r in Hp'. rewrite Hp' in Hp.
  injection Hp as <- <- <-.
  rewrite Htp, Hu, Htg, Hinit. simpl. rewrite app_nil_r, Hi. simpl.
  destruct i. reflexivity.
Qed.

Lemma instrCopy_plain_kind_witness :
  let v := valueOfType IRType.i32 in
  ∃ i c, AddInstr [ValueArg v; ValueArg v] = Ok i ∧
         instrCopy AddInstr (linkInstr "sum" 3 (Some 0) [4; 5] i) = Ok c ∧
         mnemonic c = "add_i32" ∧ uses c = [v; v] ∧ outName c = "sum" ∧
         instrId c = 3 ∧ parentBlock c = None ∧ dests c = [].
Proof.
  intros v.
  destruct (AddInstr [ValueArg v; ValueArg v]) as [i|e] eqn:Hi;
    [|discriminate Hi].
  exists i, (linkInstr "sum" 3 None (dests i) i). split; [done|].
  split.
  - exact (instrCopy_plain_kind (Some "add") (Some AddInstr_initFunc)
             (Some ArithInstr) AddInstr_initFunc [] [v; v] i "sum" 3 (Some 0)
             [4; 5] eq_refl AddInstr_keeps_targets Hi).
  - injection Hi as <-. repeat split.
Defined.

End copy.

(** *** Typing of the instruction families *)

(** Arithmetic with overflow: both inputs of type [pint], or both of type
    [box]. *)
Definition ovf_rule (t0 t1 : IRType.t) : option IRType.t :=
  if bool_decide (t0 = t1) &&
     (bool_decide (t0 = IRType.pint) || bool_decide (t0 = IRType.box))
  then Some t0 else None.

(** Comparisons: inputs of the same boxed or numeric type; the result of
    comparing boxed values is boxed, any other result is an [i8]. *)
Definition comp_rule (t0 t1 : IRType.t) : option IRType.t :=
  if bool_decide (t0 = t1) &&
     (bool_decide (t0 = IRType.box) || IRType.isNumberType t0)
  then Some (if bool_decide (t0 = IRType.box) then IRType.box else IRType.i8)
  else None.

(** Bitwise operations: a boxed value with a boxed value or a platform
    integer, or two integers of the same type; the result has the type of
    the second input. *)
Definition bitop_rule (t0 t1 : IRType.t) : option IRType.t :=
  if (bool_decide (t0 = IRType.box) &&
      (bool_decide (t1 = IRType.box) || bool_decide (t1 = IRType.pint)))
     || (IRType.isIntType t0 && bool_decide (t1 = t0))
  then Some t1 else None.

Section families.

Implicit Types (typeParams : list IRType.t) (branchTargets : list BlockRef).

(** X5.  [add_ovf], [sub_ovf] and [mul_ovf] are constructed from two
    inputs that are both [pint] or both [box], with that output type, and
    rejected on any other pair of types; the number of branch targets is
    not checked: the targets given, none, one, two or more, are stored as
    they are, and the instruction is a branch when there is at least
    one. *)
Theorem ovf_typing typeParams v0 v1 branchTargets :
  Forall
    (λ constr : list CtorArg → result IRInstr,
       match ovf_rule (val_type v0) (val_type v1) with
       | Some ty =>
           ∃ i, constr (map TypeArg typeParams ++ map ValueArg [v0; v1]
                        ++ map BlockArg branchTargets) = Ok i ∧
                type i = ty ∧ uses i = [v0; v1] ∧ targets i = branchTargets ∧
                isBranch i = bool_decide (branchTargets ≠ [])
       | None =>
           ∃ e, constr (map TypeArg typeParams ++ map ValueArg [v0; v1]
                        ++ map BlockArg branchTargets) = Err e
       end)
    [AddOvfInstr; SubOvfInstr; MulOvfInstr].
Proof.
  assert (isBranch_targets :
            ∀ i, targets i = branchTargets →
                 isBranch i = bool_decide (branchTargets ≠ [])).
  { intros i Hi. unfold isBranch. rewrite Hi.
    destruct branchTargets; [done|].
    rewrite (bool_decide_eq_true_2 (_ ≠ [])) by done.
    apply bool_decide_eq_true_2. simpl. lia. }
  repeat constructor;
    unfold AddOvfInstr, SubOvfInstr, MulOvfInstr, instrMaker;
    rewrite parseArgs_partition;
    destruct v0 as [t0 f0 r0], v1 as [t1 f1 r1];
    destruct t0, t1; simpl; eauto;
    (eexists; split; [reflexivity|]; repeat split; by apply isBranch_targets).
Qed.

(** X6.  [lt], [lte], [gt], [gte], [eq] and [neq] are constructed from two
    inputs of the same boxed or numeric type and rejected on any other
    pair of types; comparing boxed values gives a boxed value, comparing
    numbers gives an [i8]. *)
Theorem comparison_typing typeParams v0 v1 branchTargets :
  Forall
    (λ constr : list CtorArg → result IRInstr,
       constructs_with
         (constr (map TypeArg typeParams ++ map ValueArg [v0; v1]
                  ++ map BlockArg branchTargets))
         (comp_rule (val_type v0) (val_type v1)) [v0; v1])
    [LtInstr; LteInstr; GtInstr; GteInstr; EqInstr; NeqInstr].
Proof.
  repeat constructor;
    unfold LtInstr, LteInstr, GtInstr, GteInstr, EqInstr, NeqInstr, instrMaker;
    rewrite parseArgs_partition;
    destruct v0 as [t0 f0 r0], v1 as [t1 f1 r1];
    destruct t0, t1; simpl; eauto.
Qed.

(** X7.  [and], [or], [xor], [lsft], [rsft] and [ursft] are constructed
    from a boxed value and a boxed value or platform integer, or from two
    integers of the same type, and rejected otherwise; the output type is
    the type of the second input, so a boxed value combined with a
    platform integer gives a platform integer. *)
Theorem bitop_typing typeParams v0 v1 branchTargets :
  Forall
    (λ constr : list CtorArg → result IRInstr,
       constructs_with
         (constr (map TypeArg typeParams ++ map ValueArg [v0; v1]
                  ++ map BlockArg branchTargets))
         (bitop_rule (val_type v0) (val_type v1)) [v0; v1])
    [AndInstr; OrInstr; XorInstr; LsftInstr; RsftInstr; UrsftInstr].
Proof.
  repeat constructor;
    unfold AndInstr, OrInstr, XorInstr, LsftInstr, RsftInstr, UrsftInstr,
           instrMaker;
    rewrite parseArgs_partition;
    destruct v0 as [t0 f0 r0], v1 as [t1 f1 r1];
    destruct t0, t1; simpl; eauto.
Qed.

Example and_box_pint :
  type <$> AndInstr [ValueArg (valueOfType IRType.box);
                     ValueArg (valueOfType IRType.pint)]
  = Ok IRType.pint.
Proof. reflexivity. Qed.

End families.

(** *** Calls, conversions, memory accesses and control flow *)

Section shapes.

Implicit Types (args : list CtorArg) (i this : IRInstr).

Lemma validCount_Ok {A} name (array : list A) n bound :
  validCount name array n bound = Ok tt →
  n ≤ length array ∧
  match default (Finite n) bound with
  | Finite m => length array ≤ m
  | Infinity => True
  end.
Proof.
  unfold validCount.
  destruct (bool_decide (n ≤ length array)) eqn:E1; simpl; [|discriminate].
  apply bool_decide_eq_true in E1.
  destruct (default (Finite n) bound) as [m|]; [|done].
  destruct (bool_decide (length array ≤ m)) eqn:E2; [|discriminate].
  by apply bool_decide_eq_true in E2.
Qed.

Lemma inputAt_Ok inputVals n v : inputAt inputVals n = Ok v → inputVals !! n = Some v.
Proof. unfold inputAt. destruct (inputVals !! n); [by intros [= ->] | discriminate]. Qed.

Lemma typeParamAt_Ok typeParams n ty :
  typeParamAt typeParams n = Ok ty → typeParams !! n = Some ty.
Proof.
  unfold typeParamAt. destruct (typeParams !! n); [by intros [= ->] | discriminate].
Qed.

Lemma validType_Ok v ty : validType v ty = Ok tt → val_type v = ty.
Proof. unfold validType. by intros H%assert_Ok%same_type_true. Qed.

(** X8.  A constructed [call] is named [call], has its side-effect flag
    set, at least two inputs of which the first two (function and [this])
    are boxed, at most two branch targets, and the output type is the
    declared return type of the function value when it has one, [box]
    otherwise; the types of the arguments after the second are not
    checked. *)
Theorem CallFuncInstr_shape args i :
  CallFuncInstr args = Ok i →
  mnemonic i = "call" ∧ sideEffects i = true ∧
  (∃ v0 v1 rest, uses i = v0 :: v1 :: rest ∧
                 val_type v0 = IRType.box ∧ val_type v1 = IRType.box ∧
                 type i = default IRType.box (val_retType v0)) ∧
  length (targets i) ≤ 2.
Proof.
  unfold CallFuncInstr. intros H.
  apply instrMaker_Ok in H
    as (tps & ivs & bts & f & this' & _ & [= <-] & Hinit & _ & Hu & Hty & Hse & Htg & Hm).
  apply bind_Ok in Hinit as ([] & Hn%validCount_Ok & Hinit).
  apply bind_Ok in Hinit as (v0 & H0%inputAt_Ok & Hinit).
  apply bind_Ok in Hinit as ([] & Hb0%validType_Ok & Hinit).
  apply bind_Ok in Hinit as (v1 & H1%inputAt_Ok & Hinit).
  apply bind_Ok in Hinit as ([] & Hb1%validType_Ok & Hinit).
  apply bind_Ok in Hinit as ([] & Hbr%validCount_Ok & Hinit).
  simpl in Hbr. rewrite Hu, Htg.
  destruct ivs as [|v0' [|v1' rest]]; simpl in *; try lia.
  injection H0 as ->. injection H1 as ->.
  assert (mnemonic this' = "call" ∧ sideEffects this' = true ∧
          type this' = default IRType.box (val_retType v0)) as (Hm' & Hse' & Hty').
  { destruct (val_retType v0); injection Hinit as <-; done. }
  rewrite Hm' in Hm. simpl in Hm.
  split; [done|]. split; [congruence|]. split; [|lia].
  exists v0, v1, rest. rewrite Hty. done.
Qed.

Lemma CallFuncInstr_shape_witness :
  let func := {| val_type := IRType.box; val_isIRFunction := true;
                 val_retType := Some IRType.i32 |} in
  let args := [ValueArg func; ValueArg (valueOfType IRType.box);
               ValueArg (valueOfType IRType.f64); BlockArg 1] in
  ∃ i, CallFuncInstr args = Ok i ∧ type i = IRType.i32 ∧
       sideEffects i = true ∧ length (uses i) = 3.
Proof.
  intros func args.
  destruct (CallFuncInstr args) as [i|e] eqn:Hi; [|discriminate Hi].
  exists i. split; [done|].
  destruct (CallFuncInstr_shape args i Hi) as (_ & Hse & _ & _).
  split; [|split; [exact Hse|]]; injection Hi as <-; reflexivity.
Defined.

(** X9.  [unbox] takes the type parameter [pint] and one boxed input and
    yields a [pint]; [box] with type parameter [pint] accepts that result
    and yields a boxed value, which [unbox] accepts in turn. *)
Theorem UnboxInstr_BoxInstr_inverse args i :
  UnboxInstr args = Ok i →
  typeParams i = [IRType.pint] ∧
  (∃ v, uses i = [v] ∧ val_type v = IRType.box) ∧
  type i = IRType.pint ∧
  ∃ j, BoxInstr [TypeArg IRType.pint; ValueArg (valueOfType (type i))] = Ok j ∧
       type j = IRType.box ∧
       ∃ k, UnboxInstr [TypeArg IRType.pint; ValueArg (valueOfType (type j))] = Ok k ∧
            type k = type i.
Proof.
  unfold UnboxInstr at 1. intros H.
  apply instrMaker_Ok in H
    as (tps & ivs & bts & f & this' & _ & [= <-] & Hinit & Htp & Hu & Hty & _).
  apply bind_Ok in Hinit as ([] & Hn%validCount_Ok & Hinit).
  apply bind_Ok in Hinit as ([] & Hn'%validCount_Ok & Hinit).
  apply bind_Ok in Hinit as (tp0 & H0%typeParamAt_Ok & Hinit).
  apply bind_Ok in Hinit as ([] & Hp%assert_Ok%same_type_true & Hinit).
  apply bind_Ok in Hinit as (v0 & Hv%inputAt_Ok & Hinit).
  apply bind_Ok in Hinit as ([] & Hb%validType_Ok & Hinit).
  injection Hinit as <-. simpl in *. subst tp0.
  destruct tps as [|tp [|tp' tps]]; simpl in *; try lia.
  destruct ivs as [|v [|v' ivs]]; simpl in *; try lia.
  injection H0 as ->. injection Hv as ->.
  rewrite Htp, Hu, Hty. split; [done|]. split; [by exists v0|].
  split; [done|]. eexists. split; [reflexivity|]. split; [done|].
  eexists. split; reflexivity.
Qed.

Lemma UnboxInstr_BoxInstr_inverse_witness :
  ∃ i, UnboxInstr [TypeArg IRType.pint; ValueArg (valueOfType IRType.box)] = Ok i ∧
       type i = IRType.i64.
Proof.
  destruct (UnboxInstr [TypeArg IRType.pint; ValueArg (valueOfType IRType.box)])
    as [i|e] eqn:Hi; [|discriminate Hi].
  exists i. split; [done|].
  by destruct (UnboxInstr_BoxInstr_inverse _ i Hi) as (_ & _ & -> & _).
Defined.

(** X10.  [itof] with one input is constructed exactly when the input is
    a [pint] and the first type parameter is [f64]; the output type is
    [f64].  The number of type parameters is not checked: further type
    parameters are accepted and kept. *)
Theorem IToFPInstr_typing (tps : list IRType.t) v (bts : list BlockRef) :
  let r := IToFPInstr (map TypeArg tps ++ map ValueArg [v] ++ map BlockArg bts) in
  if bool_decide (val_type v = IRType.pint) &&
     bool_decide (tps !! 0 = Some IRType.f64)
  then ∃ i, r = Ok i ∧ type i = IRType.f64 ∧ typeParams i = tps ∧ uses i = [v]
  else ∃ e, r = Err e.
Proof.
  unfold IToFPInstr, instrMaker. rewrite parseArgs_partition.
  destruct v as [t f r]. destruct tps as [|tp tps].
  - destruct t; simpl; eauto.
  - destruct t, tp; simpl; eauto.
Qed.

Example IToFPInstr_two_type_params :
  mnemonic <$> IToFPInstr [TypeArg IRType.f64; TypeArg IRType.u8;
                           ValueArg (valueOfType IRType.pint)]
  = Ok "itof_f64_u8".
Proof. reflexivity. Qed.

(** X11.  A constructed [load] has one type parameter, which is its
    output type, and two inputs: a boxed value or raw pointer and a [pint]
    offset; it has no side effect.  A constructed [store] has one type
    parameter and three inputs: pointer, [pint] offset and a value of the
    type parameter; its output type is [none] and its side-effect flag is
    set. *)
Theorem LoadInstr_StoreInstr_shape args i :
  (LoadInstr args = Ok i →
   ∃ ty ptr offset,
     typeParams i = [ty] ∧ uses i = [ptr; offset] ∧
     IRType.isPtrType (val_type ptr) = true ∧
     val_type offset = IRType.pint ∧
     type i = ty ∧ sideEffects i = false)
  ∧
  (StoreInstr args = Ok i →
   ∃ ty ptr offset value,
     typeParams i = [ty] ∧ uses i = [ptr; offset; value] ∧
     IRType.isPtrType (val_type ptr) = true ∧
     val_type offset = IRType.pint ∧ val_type value = ty ∧
     type i = IRType.none ∧ sideEffects i = true).
Proof.
  split.
  - unfold LoadInstr. intros H.
    apply instrMaker_Ok in H
      as (tps & ivs & bts & f & this' & _ & [= <-] & Hinit & Htp & Hu & Hty & Hse & _).
    apply bind_Ok in Hinit as ([] & Hn%validCount_Ok & Hinit).
    apply bind_Ok in Hinit as ([] & Hn'%validCount_Ok & Hinit).
    apply bind_Ok in Hinit as (v0 & H0%inputAt_Ok & Hinit).
    apply bind_Ok in Hinit as ([] & Hp%assert_Ok & Hinit).
    apply bind_Ok in Hinit as (v1 & H1%inputAt_Ok & Hinit).
    apply bind_Ok in Hinit as ([] & Ho%validType_Ok & Hinit).
    apply bind_Ok in Hinit as (tp0 & Ht%typeParamAt_Ok & Hinit).
    injection Hinit as <-. simpl in *.
    destruct tps as [|tp [|tp' tps]]; simpl in *; try lia.
    destruct ivs as [|a [|b [|c ivs]]]; simpl in *; try lia.
    injection H0 as ->. injection H1 as ->. injection Ht as ->.
    exists tp0, v0, v1. by rewrite Htp, Hu, Hty, Hse.
  - unfold StoreInstr. intros H.
    apply instrMaker_Ok in H
      as (tps & ivs & bts & f & this' & _ & [= <-] & Hinit & Htp & Hu & Hty & Hse & _).
    apply bind_Ok in Hinit as ([] & Hn%validCount_Ok & Hinit).
    apply bind_Ok in Hinit as ([] & Hn'%validCount_Ok & Hinit).
    apply bind_Ok in Hinit as (v0 & H0%inputAt_Ok & Hinit).
    apply bind_Ok in Hinit as ([] & Hp%assert_Ok & Hinit).
    apply bind_Ok in Hinit as (v1 & H1%inputAt_Ok & Hinit).
    apply bind_Ok in Hinit as ([] & Ho%validType_Ok & Hinit).
    apply bind_Ok in Hinit as (v2 & H2%inputAt_Ok & Hinit).
    apply bind_Ok in Hinit as (tp0 & Ht%typeParamAt_Ok & Hinit).
    apply bind_Ok in Hinit as ([] & Hv%validType_Ok & Hinit).
    injection Hinit as <-. simpl in *.
    destruct tps as [|tp [|tp' tps]]; simpl in *; try lia.
    destruct ivs as [|a [|b [|c [|d ivs]]]]; simpl in *; try lia.
    injection H0 as ->. injection H1 as ->. injection H2 as ->.
    injection Ht as ->.
    exists tp0, v0, v1, v2. by rewrite Htp, Hu, Hty, Hse.
Qed.

Lemma LoadInstr_StoreInstr_shape_witness :
  ∃ i, StoreInstr [TypeArg IRType.i32; ValueArg (valueOfType IRType.rptr);
                   ValueArg (valueOfType IRType.pint);
                   ValueArg (valueOfType IRType.i32)] = Ok i ∧
       type i = IRType.none ∧ sideEffects i = true.
Proof.
  destruct (StoreInstr _) as [i|e] eqn:Hi; [|discriminate Hi].
  exists i. split; [done|].
  destruct (proj2 (LoadInstr_StoreInstr_shape _ i) Hi)
    as (ty & ptr & offset & value & _ & _ & _ & _ & _ & Hty & Hse).
  done.
Defined.

(** X12.  The eighteen kinds made by [untypedInstrMaker] take boxed
    inputs only.  [del_prop_val], [put_cell] and [put_clos] are void and
    have their side-effect flag set; [seq] and [nseq] yield a boxed value
    and have it set; [not], [typeof], [instanceof], [catch],
    [has_prop_val], [get_prop_names], [make_arg_obj], [make_cell],
    [get_cell], [get_clos], [new_object] and [new_array] yield a boxed
    value and have it cleared; none of these has a branch target.
    [jump] is void, has the flag cleared, no input and exactly one
    branch target. *)
Theorem untyped_kinds_effects :
  Forall
    (λ constr : list CtorArg → result IRInstr,
       ∀ args i, constr args = Ok i →
                 sideEffects i = true ∧ type i = IRType.none ∧
                 targets i = [] ∧
                 Forall (λ v, val_type v = IRType.box) (uses i))
    [DelPropValInstr; PutCellInstr; PutClosInstr]
  ∧
  Forall
    (λ constr : list CtorArg → result IRInstr,
       ∀ args i, constr args = Ok i →
                 sideEffects i = true ∧ type i = IRType.box ∧
                 targets i = [] ∧
                 Forall (λ v, val_type v = IRType.box) (uses i))
    [SeqInstr; NseqInstr]
  ∧
  Forall
    (λ constr : list CtorArg → result IRInstr,
       ∀ args i, constr args = Ok i →
                 sideEffects i = false ∧ type i = IRType.box ∧
                 targets i = [] ∧
                 Forall (λ v, val_type v = IRType.box) (uses i))
    [LogNotInstr; TypeOfInstr; InstOfInstr; CatchInstr; HasPropValInstr;
     GetPropNamesInstr; MakeArgObjInstr; MakeCellInstr; GetCellInstr;
     GetClosInstr; NewObjectInstr; NewArrayInstr]
  ∧
  (∀ args i, JumpInstr args = Ok i →
             sideEffects i = false ∧ type i = IRType.none ∧
             length (targets i) = 1 ∧ uses i = []).
Proof.
  split; [|split; [|split]];
    repeat (apply List.Forall_cons); try apply List.Forall_nil;
    intros args i H;
    apply untypedInstrMaker_Ok in H
      as (tps & ivs & bts & _ & Hu & Hn & Hboxed & [Hnt Htg] & Hty & Hse);
    rewrite ?Hu, ?Htg; try done.
  by destruct ivs.
Qed.

(** X13.  A constructed [if] has one input, boxed or [i8], exactly two
    branch targets and no output; a constructed [throw] has one boxed
    input, at most one branch target and no output. *)
Theorem IfInstr_ThrowInstr_shape args i :
  (IfInstr args = Ok i →
   ∃ v thenBlock elseBlock,
     uses i = [v] ∧
     (val_type v = IRType.box ∨ val_type v = IRType.i8) ∧
     targets i = [thenBlock; elseBlock] ∧ type i = IRType.none ∧
     isBranch i = true)
  ∧
  (ThrowInstr args = Ok i →
   ∃ v, uses i = [v] ∧ val_type v = IRType.box ∧
        length (targets i) ≤ 1 ∧ type i = IRType.none).
Proof.
  split.
  - unfold IfInstr. intros H.
    apply instrMaker_Ok in H
      as (tps & ivs & bts & f & this' & _ & [= <-] & Hinit & _ & Hu & Hty & _ & Htg & _).
    apply bind_Ok in Hinit as ([] & Hn%validCount_Ok & Hinit).
    apply bind_Ok in Hinit as (v0 & H0%inputAt_Ok & Hinit).
    apply bind_Ok in Hinit as ([] & Ht%assert_Ok & Hinit).
    apply bind_Ok in Hinit as ([] & Hb%validCount_Ok & Hinit).
    injection Hinit as <-. simpl in *.
    destruct ivs as [|a [|b ivs]]; simpl in *; try lia.
    destruct bts as [|t [|e [|x bts]]]; simpl in *; try lia.
    injection H0 as ->. exists v0, t, e. unfold isBranch.
    rewrite Hu, Htg, Hty.
    split; [done|]. split; [|done].
    apply orb_true_iff in Ht as [Ht|Ht]; apply same_type_true in Ht; auto.
  - unfold ThrowInstr. intros H.
    apply instrMaker_Ok in H
      as (tps & ivs & bts & f & this' & _ & [= <-] & Hinit & _ & Hu & Hty & _ & Htg & _).
    apply bind_Ok in Hinit as ([] & Hn%validCount_Ok & Hinit).
    apply bind_Ok in Hinit as (v0 & H0%inputAt_Ok & Hinit).
    apply bind_Ok in Hinit as ([] & Ht%validType_Ok & Hinit).
    apply bind_Ok in Hinit as ([] & Hb%validCount_Ok & Hinit).
    injection Hinit as <-. simpl in *.
    destruct ivs as [|a [|b ivs]]; simpl in *; try lia.
    injection H0 as ->. exists v0. rewrite Hu, Htg, Hty.
    repeat split; try done; lia.
Qed.

Lemma IfInstr_ThrowInstr_shape_witness :
  ∃ i, IfInstr [ValueArg (valueOfType IRType.i8); BlockArg 1; BlockArg 2] = Ok i ∧
       targets i = [1; 2] ∧ isBranch i = true.
Proof.
  destruct (IfInstr _) as [i|e] eqn:Hi; [|discriminate Hi].
  exists i. split; [done|].
  destruct (proj1 (IfInstr_ThrowInstr_shape _ i) Hi)
    as (v & t & e & _ & _ & Htg & _ & Hbr).
  split; [|done]. injection Hi as <-. reflexivity.
Defined.

End shapes.

(** ** Further operations on phi nodes and use lists *)

(** The first index at which [pred] occurs, as the loops of [getIncoming]
    and [replPred] find it. *)
Fixpoint indexOfPred (predList : list BlockRef) (pred : BlockRef) : option nat :=
  match predList with
  | [] => None
  | p :: rest =>
      if bool_decide (p = pred) then Some 0
      else S <$> indexOfPred rest pred
  end.

(** [PhiInstr.prototype.getIncoming]; the result is [uses[i]], which is
    [undefined] ([None]) when the uses are fewer than the predecessors. *)
Definition getIncoming (phi : InstrRef) (pred : BlockRef) (σ : Store)
  : result (option Value) :=
  this ← deref σ phi;
  match indexOfPred (obj_preds this) pred with
  | Some i => Ok (obj_uses this !! i)
  | None => Err (AssertError "cannot get incoming for pred, invalid pred")
  end.

Definition set_obj_preds (ps : list BlockRef) (obj : InstrObj) : InstrObj :=
  mkInstrObj (obj_isPhi obj) (obj_mnemonic obj) (obj_type obj) (obj_uses obj)
             ps (obj_dests obj).
Definition set_obj_uses (us : list Value) (obj : InstrObj) : InstrObj :=
  mkInstrObj (obj_isPhi obj) (obj_mnemonic obj) (obj_type obj) us
             (obj_preds obj) (obj_dests obj).
Definition set_obj_mnemonic (m : string) (obj : InstrObj) : InstrObj :=
  mkInstrObj (obj_isPhi obj) m (obj_type obj) (obj_uses obj)
             (obj_preds obj) (obj_dests obj).

(** [PhiInstr.prototype.replPred] *)
Definition replPred (phi : InstrRef) (oldPred newPred : BlockRef) (σ : Store)
  : result Store :=
  this ← deref σ phi;
  match indexOfPred (obj_preds this) oldPred with
  | Some i => Ok (<[phi := set_obj_preds (<[i := newPred]> (obj_preds this)) this]> σ)
  | None => Err (AssertError "cannot replace pred, invalid pred")
  end.

(** [IRInstr.prototype.replUse]; values are compared by identity, which
    for instructions is equality of references and for constants, unique
    for their value and type, equality of both. *)
Definition replUse (r : InstrRef) (oldUse newUse : Value) (σ : Store)
  : result Store :=
  this ← deref σ r;
  Ok (<[r := set_obj_uses
               ((λ u, if bool_decide (u = oldUse) then newUse else u)
                  <$> obj_uses this) this]> σ).

(** What a call can raise besides the errors of [Error]: the read of a
    name that is bound nowhere. *)
Inductive Thrown :=
  | ReferenceError (name : string)
  | Raised (e : Error).

(** [IRInstr.prototype.replDest]: the assignment in the loop reads
    [newdest], a name that is bound nowhere (the parameter is
    [newDest]), so the first destination equal to [oldDest] ends the
    call. *)
Fixpoint replDestLoop (destList : list InstrRef) (oldDest : InstrRef)
  : option Thrown :=
  match destList with
  | [] => None
  | d :: rest =>
      if bool_decide (d = oldDest) then Some (ReferenceError "newdest")
      else replDestLoop rest oldDest
  end.

Definition replDest (r : InstrRef) (oldDest newDest : InstrRef) (σ : Store)
  : Store + Thrown :=
  match deref σ r with
  | Err e => inr (Raised e)
  | Ok this =>
      match replDestLoop (obj_dests this) oldDest with
      | Some thrown => inr thrown
      | None => inl σ
      end
  end.

(** [PhiInstr.prototype.copy]: a new phi node over copies of the two
    arrays, given the mnemonic of the original. *)
Definition phiCopy (phi : InstrRef) (σ : Store) : result (InstrRef * Store) :=
  this ← deref σ phi;
  '(newInstr, σ) ← PhiInstr (obj_uses this) (obj_preds this) σ;
  obj ← deref σ newInstr;
  Ok (newInstr, <[newInstr := set_obj_mnemonic (obj_mnemonic this) obj]> σ).

(** A phi node with one boxed input, from block 4. *)
Definition boxedPhi : InstrObj :=
  {| obj_isPhi := true; obj_mnemonic := "phi"; obj_type := IRType.box;
     obj_uses := [boxedInput]; obj_preds := [4]; obj_dests := [] |}.

Definition destsOf (σ : Store) (r : InstrRef) : list InstrRef :=
  match σ !! r with
  | Some obj => obj_dests obj
  | None => []
  end.

Section phi_operations.

Implicit Types (σ : Store) (phi r : InstrRef) (value u : Value).
Implicit Types (this obj : InstrObj) (pred : BlockRef).

Lemma indexOfPred_Some predList pred i :
  indexOfPred predList pred = Some i →
  predList !! i = Some pred ∧ i < length predList.
Proof.
  revert i. induction predList as [|p rest IH]; intros i; simpl; [done|].
  destruct (decide (p = pred)) as [->|Hne].
  - rewrite bool_decide_eq_true_2 by done. intros [= <-]. split; [done|lia].
  - rewrite bool_decide_eq_false_2 by done.
    destruct (indexOfPred rest pred) as [j|]; [|done].
    intros [= <-]. destruct (IH j eq_refl). split; [done|lia].
Qed.

Lemma indexOfPred_None predList pred :
  indexOfPred predList pred = None ↔ pred ∉ predList.
Proof.
  induction predList as [|p rest IH]; simpl.
  - split; [intros _; apply not_elem_of_nil | done].
  - destruct (decide (p = pred)) as [->|Hne].
    + rewrite bool_decide_eq_true_2 by done. split; [done|].
      intros []. by left.
    + rewrite bool_decide_eq_false_2 by done.
      destruct (indexOfPred rest pred) as [j|] eqn:E; simpl.
      * split; [done|]. intros Hnot. apply not_elem_of_cons in Hnot as [_ Hnot].
        by apply IH in Hnot.
      * split; [|done]. intros _. apply not_elem_of_cons. split; [done|].
        by apply IH.
Qed.

Lemma indexOfPred_app_l predList pred extra :
  pred ∈ predList →
  indexOfPred (predList ++ extra) pred = indexOfPred predList pred.
Proof.
  induction predList as [|p rest IH]; intros Hin; simpl.
  - by apply elem_of_nil in Hin.
  - destruct (decide (p = pred)) as [->|Hne].
    + by rewrite !bool_decide_eq_true_2.
    + rewrite !bool_decide_eq_false_2 by done.
      apply elem_of_cons in Hin as [->|Hin]; [done|]. by rewrite IH.
Qed.

Lemma indexOfPred_app_new predList pred :
  pred ∉ predList →
  indexOfPred (predList ++ [pred]) pred = Some (length predList).
Proof.
  induction predList as [|p rest IH]; intros Hnot; simpl.
  - by rewrite bool_decide_eq_true_2.
  - apply not_elem_of_cons in Hnot as [Hne Hnot].
    rewrite bool_decide_eq_false_2 by done. by rewrite IH.
Qed.

(** X14.  After [addIncoming (value, pred)] on a phi node whose arrays
    have equal length, [getIncoming (pred)] returns [value] when [pred]
    was not a predecessor before; for every block that was a predecessor
    before, [getIncoming] returns what it returned before, so a value
    added for a block that is already a predecessor is not the one
    found. *)
Theorem getIncoming_addIncoming phi value pred σ σ' :
  addIncoming phi value (Some pred) σ = Ok σ' →
  length (usesOf σ phi) = length (predsOf σ phi) →
  (pred ∉ predsOf σ phi → getIncoming phi pred σ' = Ok (Some value)) ∧
  (∀ p, p ∈ predsOf σ phi → getIncoming phi p σ' = getIncoming phi p σ).
Proof.
  intros Hadd Hlen.
  apply addIncoming_Ok in Hadd
    as (this & p' & ty & newType & Hthis & _ & [= <-] & _ & _ & Hnew & _).
  destruct Hnew as (this' & Hthis' & _ & Huses' & Hpreds').
  unfold usesOf, predsOf in *. rewrite Hthis in *.
  unfold getIncoming.
  apply deref_Ok in Hthis'. rewrite Hthis'. simpl.
  rewrite Huses', Hpreds'. split.
  - intros Hnot. rewrite indexOfPred_app_new by done.
    by rewrite <- Hlen, lookup_app_r, Nat.sub_diag.
  - intros p Hp. apply deref_Ok in Hthis. rewrite Hthis. simpl.
    rewrite indexOfPred_app_l by done.
    destruct (indexOfPred (obj_preds this) p) as [i|] eqn:Hi; [|done].
    apply indexOfPred_Some in Hi as [_ Hi].
    rewrite lookup_app_l by lia. done.
Qed.

Lemma getIncoming_addIncoming_witness :
  ∃ σ', addIncoming 0 boxedInput (Some 4) [emptyPhi] = Ok σ' ∧
        getIncoming 0 4 σ' = Ok (Some boxedInput).
Proof.
  eexists. split; [reflexivity|].
  refine (proj1 (getIncoming_addIncoming 0 boxedInput 4 [emptyPhi] _
                   eq_refl eq_refl) _).
  apply not_elem_of_nil.
Defined.

(** X15.  On a phi node that satisfies its invariant, [getIncoming]
    returns, for a block among the predecessors, one of the inputs, of the
    phi node's output type; for any other block it fails. *)
Theorem getIncoming_defined phi pred σ :
  phi_wf σ phi →
  if bool_decide (pred ∈ predsOf σ phi)
  then ∃ v, getIncoming phi pred σ = Ok (Some v) ∧ v ∈ usesOf σ phi ∧
            (Some <$> valType σ v) = Ok (typeOf σ phi)
  else getIncoming phi pred σ
       = Err (AssertError "cannot get incoming for pred, invalid pred").
Proof.
  intros (this & Hthis & Hlen & Hall).
  unfold predsOf, usesOf, typeOf, getIncoming. rewrite Hthis.
  apply deref_Ok in Hthis. rewrite Hthis. simpl.
  destruct (decide (pred ∈ obj_preds this)) as [Hin|Hnot].
  - rewrite bool_decide_eq_true_2 by done.
    destruct (indexOfPred (obj_preds this) pred) as [i|] eqn:Hi.
    + apply indexOfPred_Some in Hi as [_ Hi].
      destruct (lookup_lt_is_Some_2 (obj_uses this) i) as [v Hv]; [lia|].
      exists v. rewrite Hv. split; [done|].
      assert (v ∈ obj_uses this) as Hvin by (by eapply list_elem_of_lookup_2).
      split; [done|]. rewrite Forall_forall in Hall. by rewrite (Hall v Hvin).
    + by apply indexOfPred_None in Hi.
  - rewrite bool_decide_eq_false_2 by done.
    apply indexOfPred_None in Hnot. by rewrite Hnot.
Qed.

Lemma getIncoming_defined_witness :
  (∃ v, getIncoming 0 4 [boxedPhi] = Ok (Some v) ∧ v ∈ usesOf [boxedPhi] 0) ∧
  getIncoming 0 4 [emptyPhi]
  = Err (AssertError "cannot get incoming for pred, invalid pred").
Proof.
  split.
  - assert (phi_wf [boxedPhi] 0) as Hwf by (by apply phi_wfb_spec).
    pose proof (getIncoming_defined 0 4 [boxedPhi] Hwf) as H.
    assert (4 ∈ predsOf [boxedPhi] 0) as Hin by (by left).
    rewrite (bool_decide_eq_true_2 _ Hin) in H.
    destruct H as (v & Hget & Hv & _). by exists v.
  - assert (phi_wf [emptyPhi] 0) as Hwf by (by apply phi_wfb_spec).
    exact (getIncoming_defined 0 4 [emptyPhi] Hwf).
Defined.

Lemma valType_same_types σ σ' :
  (∀ r, typeOf σ' r = typeOf σ r) → ∀ u, valType σ' u = valType σ u.
Proof.
  intros Hty [c|r]; [done|]. simpl. specialize (Hty r).
  unfold typeOf, deref in *.
  destruct (σ' !! r), (σ !! r); simpl in *; congruence.
Qed.

Lemma typeOf_insert_same σ r obj obj' :
  σ !! r = Some obj → obj_type obj' = obj_type obj →
  ∀ r', typeOf (<[r := obj']> σ) r' = typeOf σ r'.
Proof.
  intros Hobj Hty r'. unfold typeOf.
  destruct (decide (r' = r)) as [->|Hne].
  - rewrite list_lookup_insert_eq by (by eapply lookup_lt_Some).
    rewrite Hobj. simpl. by rewrite Hty.
  - by rewrite list_lookup_insert_ne.
Qed.

Lemma indexOfPred_insert_other predList i old new p :
  predList !! i = Some old → p ≠ old → p ≠ new →
  indexOfPred (<[i := new]> predList) p = indexOfPred predList p.
Proof.
  revert i. induction predList as [|q rest IH]; intros i Hi Hold Hnew; [done|].
  destruct i as [|i]; simpl in *.
  - injection Hi as ->. by rewrite !bool_decide_eq_false_2.
  - by rewrite (IH i).
Qed.

Lemma indexOfPred_insert_new predList i old new :
  indexOfPred predList old = Some i → new ∉ predList →
  indexOfPred (<[i := new]> predList) new = Some i.
Proof.
  revert i. induction predList as [|q rest IH]; intros i Hi Hnot; [done|].
  apply not_elem_of_cons in Hnot as [Hne Hnot]. simpl in Hi.
  destruct (decide (q = old)) as [->|Hq].
  - rewrite bool_decide_eq_true_2 in Hi by done. injection Hi as <-.
    simpl. by rewrite bool_decide_eq_true_2.
  - rewrite bool_decide_eq_false_2 in Hi by done.
    destruct (indexOfPred rest old) as [j|] eqn:Hj; [|done].
    injection Hi as <-. simpl.
    rewrite bool_decide_eq_false_2 by done. by rewrite (IH j).
Qed.

(** X16.  [replPred (oldPred, newPred)] on a phi node that satisfies its
    invariant fails exactly when [oldPred] is not a predecessor.  When it
    succeeds the invariant still holds, the inputs are untouched, a
    [newPred] that was not a predecessor now selects the input that
    [oldPred] selected, and every third block selects what it selected
    before. *)
Theorem replPred_spec phi oldPred newPred σ :
  phi_wf σ phi →
  match replPred phi oldPred newPred σ with
  | Ok σ' =>
      oldPred ∈ predsOf σ phi ∧
      phi_wf σ' phi ∧
      usesOf σ' phi = usesOf σ phi ∧
      (newPred ∉ predsOf σ phi →
       getIncoming phi newPred σ' = getIncoming phi oldPred σ) ∧
      (∀ p, p ≠ oldPred → p ≠ newPred →
            getIncoming phi p σ' = getIncoming phi p σ)
  | Err e =>
      e = AssertError "cannot replace pred, invalid pred" ∧
      oldPred ∉ predsOf σ phi
  end.
Proof.
  intros (this & Hthis & Hlen & Hall).
  assert (phi < length σ) as Hlt by (by eapply lookup_lt_Some).
  unfold replPred, predsOf, usesOf, getIncoming. rewrite Hthis.
  rewrite (proj2 (deref_Ok _ _ _) Hthis). simpl.
  destruct (indexOfPred (obj_preds this) oldPred) as [i|] eqn:Hi.
  - pose proof (indexOfPred_Some _ _ _ Hi) as [Hold Hilt].
    assert (oldPred ∈ obj_preds this) as Hin
      by (by eapply list_elem_of_lookup_2).
    set (this' := set_obj_preds _ this).
    assert (<[phi := this']> σ !! phi = Some this') as Hthis'
      by (by apply list_lookup_insert_eq).
    rewrite Hthis'. rewrite (proj2 (deref_Ok _ _ _) Hthis'). simpl.
    split; [done|]. split; [|split; [done|split]].
    + exists this'. split; [done|]. simpl. split.
      * by rewrite length_insert.
      * eapply Forall_impl; [exact Hall|]. intros u Hu. simpl in Hu.
        rewrite <- Hu. apply valType_same_types.
        by apply (typeOf_insert_same σ phi this).
    + intros Hnew. unfold this'. simpl.
      by rewrite (indexOfPred_insert_new _ _ oldPred _ Hi Hnew).
    + intros p Hp Hp'. unfold this'. simpl.
      by rewrite (indexOfPred_insert_other _ _ oldPred).
  - split; [done|]. by apply indexOfPred_None.
Qed.

Lemma replPred_spec_witness :
  addIncoming 0 boxedInput (Some 4) [emptyPhi] = Ok [boxedPhi] ∧
  match replPred 0 4 7 [boxedPhi] with
  | Ok σ' => getIncoming 0 7 σ' = Ok (Some boxedInput)
  | Err _ => False
  end.
Proof.
  split; [reflexivity|].
  assert (phi_wf [boxedPhi] 0) as Hwf by (by apply phi_wfb_spec).
  pose proof (replPred_spec 0 4 7 [boxedPhi] Hwf) as H.
  destruct (replPred 0 4 7 [boxedPhi]) as [σ'|e] eqn:E.
  - destruct H as (_ & _ & _ & Hnew & _). rewrite Hnew; [reflexivity|].
    vm_compute. by intros ?%list_elem_of_singleton.
  - destruct H as [_ H]. apply H. vm_compute. by left.
Defined.

(** X17.  [replUse (oldUse, newUse)] keeps the number of inputs, puts
    [newUse] at every position that held [oldUse] and leaves the other
    positions alone; it updates the destination list of no instruction
    and the type of none, the instruction's own included. *)
Theorem replUse_spec r oldUse newUse σ σ' :
  replUse r oldUse newUse σ = Ok σ' →
  length (usesOf σ' r) = length (usesOf σ r) ∧
  (oldUse ≠ newUse → oldUse ∉ usesOf σ' r) ∧
  (∀ j, usesOf σ r !! j = Some oldUse → usesOf σ' r !! j = Some newUse) ∧
  (∀ j u, usesOf σ r !! j = Some u → u ≠ oldUse → usesOf σ' r !! j = Some u) ∧
  (∀ r', destsOf σ' r' = destsOf σ r') ∧
  (∀ r', typeOf σ' r' = typeOf σ r').
Proof.
  unfold replUse. intros H.
  apply bind_Ok in H as (this & Hthis & [= <-]). apply deref_Ok in Hthis.
  assert (r < length σ) as Hlt by (by eapply lookup_lt_Some).
  unfold usesOf. rewrite Hthis, list_lookup_insert_eq by done. simpl.
  repeat split.
  - by rewrite length_fmap.
  - intros Hne Hin. apply list_elem_of_fmap in Hin as (u & Hu & _).
    destruct (decide (u = oldUse)) as [->|Hne'].
    + rewrite bool_decide_eq_true_2 in Hu by done. congruence.
    + rewrite bool_decide_eq_false_2 in Hu by done. congruence.
  - intros j Hj. rewrite list_lookup_fmap, Hj. simpl.
    by rewrite bool_decide_eq_true_2.
  - intros j u Hj Hne. rewrite list_lookup_fmap, Hj. simpl.
    by rewrite bool_decide_eq_false_2.
  - intros r'. unfold destsOf. destruct (decide (r' = r)) as [->|Hne].
    + by rewrite list_lookup_insert_eq, Hthis.
    + by rewrite list_lookup_insert_ne.
  - by apply (typeOf_insert_same σ r this).
Qed.

Lemma replUse_spec_witness :
  ∃ σ', replUse 0 boxedInput i32Input [boxedPhi] = Ok σ' ∧
        usesOf σ' 0 !! 0 = Some i32Input ∧ typeOf σ' 0 = Some IRType.box.
Proof.
  eexists. split; [reflexivity|].
  destruct (replUse_spec 0 boxedInput i32Input [boxedPhi] _ eq_refl)
    as (_ & _ & Hnew & _ & _ & Hty).
  split; [exact (Hnew 0 eq_refl) | exact (Hty 0)].
Defined.

Lemma replDestLoop_spec (destList : list InstrRef) (oldDest : InstrRef) :
  replDestLoop destList oldDest
  = if bool_decide (oldDest ∈ destList) then Some (ReferenceError "newdest")
    else None.
Proof.
  induction destList as [|d rest IH].
  - cbn [replDestLoop].
    rewrite (bool_decide_eq_false_2 (oldDest ∈ [])); [done|].
    apply not_elem_of_nil.
  - cbn [replDestLoop]. destruct (decide (d = oldDest)) as [->|Hne].
    + rewrite (bool_decide_eq_true_2 (oldDest = oldDest)) by done.
      rewrite (bool_decide_eq_true_2 (oldDest ∈ oldDest :: rest)); [done|].
      by left.
    + rewrite (bool_decide_eq_false_2 (d = oldDest)) by done. rewrite IH.
      destruct (decide (oldDest ∈ rest)) as [Hin|Hnot].
      * rewrite (bool_decide_eq_true_2 (oldDest ∈ rest)) by done.
        rewrite (bool_decide_eq_true_2 (oldDest ∈ d :: rest)); [done|].
        by right.
      * rewrite (bool_decide_eq_false_2 (oldDest ∈ rest)) by done.
        rewrite (bool_decide_eq_false_2 (oldDest ∈ d :: rest)); [done|].
        apply not_elem_of_cons. by split.
Qed.

(** X18.  [replDest (oldDest, newDest)] never replaces anything: when
    [oldDest] is among the destinations the call ends with a reference
    error for the name [newdest], and when it returns, the store is as it
    was and [oldDest] was not a destination, whatever [newDest] is. *)
Theorem replDest_never_replaces r oldDest newDest σ :
  (oldDest ∈ destsOf σ r →
   replDest r oldDest newDest σ = inr (ReferenceError "newdest")) ∧
  (∀ σ', replDest r oldDest newDest σ = inl σ' →
         σ' = σ ∧ oldDest ∉ destsOf σ r).
Proof.
  unfold replDest, destsOf, deref. destruct (σ !! r) as [this|]; split.
  - intros Hin. by rewrite replDestLoop_spec, bool_decide_eq_true_2.
  - intros σ'. rewrite replDestLoop_spec.
    destruct (decide (oldDest ∈ obj_dests this)).
    + by rewrite bool_decide_eq_true_2.
    + rewrite bool_decide_eq_false_2 by done. by intros [= <-].
  - by intros ?%elem_of_nil.
  - done.
Qed.

Lemma destsOf_insert σ r obj' r' :
  r < length σ →
  destsOf (<[r := obj']> σ) r'
  = if decide (r' = r) then obj_dests obj' else destsOf σ r'.
Proof.
  intros Hlt. unfold destsOf. destruct (decide (r' = r)) as [->|Hne].
  - by rewrite list_lookup_insert_eq.
  - by rewrite list_lookup_insert_ne.
Qed.

(** X19.  A successful [addIncoming (value, pred)] on the phi node [phi]
    appends [phi] to the destinations of [value] when [value] is an
    instruction that does not list it yet, and changes the destinations
    of nothing else; so destination lists stay free of duplicates. *)
Theorem addIncoming_dests phi value (given : option BlockRef) σ σ' :
  addIncoming phi value given σ = Ok σ' →
  (∀ r, destsOf σ' r
        = if bool_decide (value = VInstr r ∧ phi ∉ destsOf σ r)
          then destsOf σ r ++ [phi] else destsOf σ r) ∧
  (∀ r, NoDup (destsOf σ r) → NoDup (destsOf σ' r)).
Proof.
  intros Hadd.
  assert (∀ r, destsOf σ' r
               = if bool_decide (value = VInstr r ∧ phi ∉ destsOf σ r)
                 then destsOf σ r ++ [phi] else destsOf σ r) as Hdests.
  { unfold addIncoming in Hadd.
    apply bind_Ok in Hadd as (this & Hthis & H). apply deref_Ok in Hthis.
    apply bind_Ok in H as ([] & _ & H).
    apply bind_Ok in H as (p & _ & H).
    apply bind_Ok in H as (ty & _ & H).
    apply bind_Ok in H as (newType & _ & H).
    assert (phi < length σ) as Hlt by (by eapply lookup_lt_Some).
    match type of H with context [<[phi := ?o]> σ] => set (this' := o) in H end.
    assert (∀ r, destsOf (<[phi := this']> σ) r = destsOf σ r) as Hsame.
    { intros r. rewrite destsOf_insert by done.
      destruct (decide (r = phi)) as [->|]; [|done].
      unfold destsOf. by rewrite Hthis. }
    destruct value as [c|r0].
    - injection H as <-. intros r. rewrite Hsame.
      rewrite bool_decide_eq_false_2; [done|]. by intros [? _].
    - apply bind_Ok in H as (obj & Hobj & [= <-]). apply deref_Ok in Hobj.
      assert (r0 < length (<[phi := this']> σ)) as Hlt0
        by (by eapply lookup_lt_Some).
      assert (obj_dests obj = destsOf σ r0) as Hd.
      { rewrite <- Hsame. unfold destsOf. by rewrite Hobj. }
      intros r. rewrite destsOf_insert by done.
      destruct (decide (r = r0)) as [->|Hne].
      + simpl. rewrite Hd.
        destruct (decide (phi ∈ destsOf σ r0)) as [Hin|Hnot].
        * rewrite (bool_decide_eq_false_2 (_ ∧ _)) by (by intros [_ ?]).
          rewrite bool_decide_eq_false_2.
          -- unfold arraySetAdd. by rewrite bool_decide_eq_true_2.
          -- destruct (destsOf σ r0); [by apply elem_of_nil in Hin | done].
        * rewrite (bool_decide_eq_true_2 (_ ∧ _)) by done.
          unfold arraySetAdd. rewrite (bool_decide_eq_false_2 (_ ∈ _)) by done.
          by destruct (destsOf σ r0).
      + rewrite Hsame. rewrite bool_decide_eq_false_2; [done|].
        intros [[= ->] _]. done. }
  split; [done|].
  intros r Hnd. rewrite Hdests.
  destruct (decide (value = VInstr r ∧ phi ∉ destsOf σ r)) as [[Hv Hnot]|Hno].
  - rewrite bool_decide_eq_true_2 by done.
    apply NoDup_app. split; [done|]. split; [|apply NoDup_singleton].
    intros x Hx ->%list_elem_of_singleton. done.
  - by rewrite bool_decide_eq_false_2.
Qed.

Lemma addIncoming_dests_witness :
  ∃ σ', addIncoming 1 (VInstr 0) (Some 4) [emptyPhi; emptyPhi] = Ok σ' ∧
        destsOf σ' 0 = [1].
Proof.
  eexists. split; [reflexivity|].
  destruct (addIncoming_dests 1 (VInstr 0) (Some 4) [emptyPhi; emptyPhi] _
              eq_refl) as [Hdests _].
  rewrite (Hdests 0). reflexivity.
Defined.

Lemma sameTypeAsPrevious_complete σ prev values ty :
  valType σ prev = Ok ty →
  Forall (λ u, valType σ u = Ok ty) values →
  sameTypeAsPrevious σ prev values = Ok tt.
Proof.
  intros Hprev Hall. revert prev Hprev.
  induction Hall as [|value rest Hvalue _ IH]; intros prev Hprev; [done|].
  simpl. rewrite Hvalue, Hprev. simpl.
  unfold same_type. rewrite bool_decide_eq_true_2 by done. simpl.
  by apply IH.
Qed.

(** X20.  The copy of a phi node that satisfies its invariant succeeds
    and is a new object, at a reference that was not in use, which
    satisfies the invariant, has the inputs and the predecessors of the
    original, and its type when there are inputs; the copy starts without
    destinations and every older object is left as it was, so the inputs
    do not list the copy among their destinations. *)
Theorem phiCopy_wf phi σ :
  phi_wf σ phi →
  ∃ σ', phiCopy phi σ = Ok (length σ, σ') ∧
        phi_wf σ' (length σ) ∧
        usesOf σ' (length σ) = usesOf σ phi ∧
        predsOf σ' (length σ) = predsOf σ phi ∧
        (usesOf σ phi ≠ [] → typeOf σ' (length σ) = typeOf σ phi) ∧
        destsOf σ' (length σ) = [] ∧
        (∀ r, r < length σ → σ' !! r = σ !! r).
Proof.
  intros (this & Hthis & Hlen & Hall).
  unfold phiCopy, usesOf, predsOf, typeOf, destsOf. rewrite Hthis.
  rewrite (proj2 (deref_Ok _ _ _) Hthis). simpl.
  assert (∃ ty, PhiInstr (obj_uses this) (obj_preds this) σ
                = Ok (length σ,
                      σ ++ [mkInstrObj true "phi" ty (obj_uses this)
                                       (obj_preds this) []]) ∧
                (obj_uses this ≠ [] → ty = obj_type this)) as (ty & -> & Hty).
  { unfold PhiInstr. rewrite bool_decide_eq_true_2 by done. simpl.
    destruct (obj_uses this) as [|first rest] eqn:Huses.
    - simpl. by exists IRType.none.
    - apply Forall_cons in Hall as [Hfirst Hrest].
      rewrite (sameTypeAsPrevious_complete σ first rest _ Hfirst Hrest).
      simpl. rewrite Hfirst. simpl. by exists (obj_type this). }
  simpl. unfold deref. rewrite lookup_app_r, Nat.sub_diag by done. simpl.
  eexists. split; [reflexivity|].
  assert (length σ < length (σ ++ [mkInstrObj true "phi" ty (obj_uses this)
                                              (obj_preds this) []])) as Hlt
    by (rewrite length_app; simpl; lia).
  rewrite list_lookup_insert_eq by done. simpl.
  split; [|split; [done|split; [done|split; [|split; [done|]]]]].
  - eexists. split; [by apply list_lookup_insert_eq|]. simpl.
    split; [done|].
    apply Forall_forall. intros u Hin.
    rewrite Forall_forall in Hall. pose proof (Hall u Hin) as Hu.
    assert (valType σ u = Ok ty) as Hu'.
    { rewrite Hty; [done|]. intros Hnil. rewrite Hnil in Hin.
      by apply elem_of_nil in Hin. }
    destruct u as [c|r]; [done|]. simpl in *.
    apply bind_Ok in Hu' as (o & Ho & [= <-]). apply deref_Ok in Ho.
    assert (r < length σ) as Hr by (by eapply lookup_lt_Some).
    match goal with
    | |- deref ?s r ≫= _ = _ => assert (deref s r = Ok o) as ->; [|done]
    end.
    apply deref_Ok. rewrite list_lookup_insert_ne by lia.
    by rewrite lookup_app_l by done.
  - intros Hne. by rewrite Hty.
  - intros r Hr. rewrite list_lookup_insert_ne by lia.
    by rewrite lookup_app_l by done.
Qed.

Lemma phiCopy_wf_witness :
  ∃ σ', phiCopy 0 [boxedPhi] = Ok (1, σ') ∧ usesOf σ' 1 = [boxedInput].
Proof.
  assert (phi_wf [boxedPhi] 0) as Hwf by (by apply phi_wfb_spec).
  destruct (phiCopy_wf 0 [boxedPhi] Hwf) as (σ' & Hcopy & _ & Huses & _).
  exists σ'. split; [exact Hcopy | exact Huses].
Defined.

End phi_operations.

(** ** The constants behind the table *)

(** Every allocated constant passed the assertions of its constructor. *)
Definition constHeap_valid (σ : ConstState) : Prop :=
  Forall (λ c, new_ConstValue (const_value c) (const_type c) = Ok c)
         (constHeap σ).

(** Every allocated constant is the one recorded for its value and
    type. *)
Definition constHeap_recorded (σ : ConstState) : Prop :=
  ∀ i c, constHeap σ !! i = Some c →
         lookupConst σ (const_value c) (const_type c) = Some i.

Section constants.

Implicit Types (σ : ConstState) (value : Literal) (ty : IRType.t).

(** The three ways a call of [getConst] ends. *)
Lemma getConst_cases value oty σ :
  let ty := default IRType.box oty in
  let k := {| const_value := value; const_type := ty |} in
  (∃ c, lookupConst σ value ty = Some c ∧ getConst value oty σ = (σ, Ok c)) ∨
  (lookupConst σ value ty = None ∧
   ∃ σ', (getConst value oty σ = (σ', Ok (length (constHeap σ))) ∧
          new_ConstValue value ty = Ok k ∧
          constHeap σ' = constHeap σ ++ [k]) ∨
         (∃ e, getConst value oty σ = (σ', Err e) ∧
               new_ConstValue value ty = Err e ∧
               constHeap σ' = constHeap σ)).
Proof.
  intros ty k.
  destruct (lookupConst σ value ty) as [c|] eqn:Hc.
  { left. exists c. split; [done|]. by apply getConst_recorded. }
  right. split; [done|].
  unfold lookupConst in Hc. unfold getConst, getTypeMap. fold ty.
  destruct (hasItem (constMap σ) value) eqn:Hh; cbn [negb].
  - apply hasItem_true in Hh as (typeMap & Hv & ->). cbn.
    rewrite Hv in Hc. cbn in Hc.
    unfold hasItem. rewrite Hc.
    rewrite (bool_decide_eq_false_2 (is_Some None)) by (by intros [? ?]).
    cbn [negb].
    destruct (new_ConstValue value ty) as [constant|e] eqn:Hnew.
    + apply new_ConstValue_Ok in Hnew as Hk. fold k in Hk. subst constant.
      eexists. left. done.
    + eexists. right. exists e. done.
  - cbn. unfold hasItem at 1. rewrite lookup_empty.
    rewrite (bool_decide_eq_false_2 (is_Some None)) by (by intros [? ?]).
    cbn [negb].
    destruct (new_ConstValue value ty) as [constant|e] eqn:Hnew.
    + apply new_ConstValue_Ok in Hnew as Hk. fold k in Hk. subst constant.
      eexists. left. done.
    + eexists. right. exists e. done.
Qed.

Lemma getConst_invariants value oty σ :
  constMap_wf σ → constHeap_valid σ → constHeap_recorded σ →
  let σ' := (getConst value oty σ).1 in
  constMap_wf σ' ∧ constHeap_valid σ' ∧ constHeap_recorded σ'.
Proof.
  intros Hwf Hvalid Hrec. cbn zeta.
  pose proof (getConst_step value oty σ Hwf) as Hstep. cbn zeta in Hstep.
  destruct (getConst_cases value oty σ)
    as [(c & _ & E)|(Hnone & σ' & [(E & Hnew & Hheap)|(e & E & _ & Hheap)])];
    rewrite E in Hstep |- *; destruct Hstep as (Hwf' & Hmono & Hret);
    cbn [fst]; (split; [done|]).
  - done.
  - split.
    + unfold constHeap_valid. rewrite Hheap. apply Forall_app. split; [done|].
      by apply Forall_singleton.
    + intros i c. rewrite Hheap. intros Hi.
      apply lookup_app_Some in Hi as [Hi|[Hge Hi]].
      * by apply Hmono, Hrec.
      * apply list_lookup_singleton_Some in Hi as [Hi <-]. simpl.
        rewrite (Hret _ eq_refl). f_equal. lia.
  - split.
    + unfold constHeap_valid. by rewrite Hheap.
    + intros i c. rewrite Hheap. intros Hi. by apply Hmono, Hrec.
Qed.

Lemma getConstCalls_invariants calls :
  let σ := getConstCalls calls initConstState in
  constMap_wf σ ∧ constHeap_valid σ ∧ constHeap_recorded σ.
Proof.
  cbn zeta. unfold getConstCalls. rewrite <- (rev_involutive calls).
  induction (rev calls) as [|call rest IH]; simpl.
  - split; [apply constMap_wf_init|]. split; [constructor|].
    intros i c. simpl. by rewrite lookup_nil.
  - rewrite fold_left_app. simpl.
    destruct IH as (Hwf & Hvalid & Hrec).
    by apply getConst_invariants.
Qed.

(** X21.  Whatever calls of [getConst] came before, [getConst (value,
    type)] returns a constant exactly when the [ConstValue] constructor
    accepts the pair, and that constant holds the value and the type
    (the boxed type when none is given); a call that throws throws the
    constructor's error and allocates nothing. *)
Theorem getConst_accepts calls value oty :
  let σ := getConstCalls calls initConstState in
  let ty := default IRType.box oty in
  let k := {| const_value := value; const_type := ty |} in
  match getConst value oty σ with
  | (σ', Ok c) =>
      new_ConstValue value ty = Ok k ∧ constHeap σ' !! c = Some k
  | (σ', Err e) =>
      new_ConstValue value ty = Err e ∧ constHeap σ' = constHeap σ
  end.
Proof.
  cbn zeta.
  destruct (getConstCalls_invariants calls) as (Hwf & Hvalid & _).
  destruct (getConst_cases value oty (getConstCalls calls initConstState))
    as [(c & Hc & ->)|(_ & σ' & [(-> & Hnew & Hheap)|(e & -> & Hnew & Hheap)])].
  - apply Hwf in Hc. split; [|done].
    unfold constHeap_valid in Hvalid. rewrite Forall_forall in Hvalid.
    apply (Hvalid _ (list_elem_of_lookup_2 _ _ _ Hc)).
  - split; [done|]. rewrite Hheap. by rewrite lookup_app_r, Nat.sub_diag.
  - done.
Qed.

(** X22.  In any state reached by calls of [getConst] from the empty
    table no two allocated constants have the same value and type. *)
Theorem constHeap_NoDup calls :
  NoDup (constHeap (getConstCalls calls initConstState)).
Proof.
  destruct (getConstCalls_invariants calls) as (_ & _ & Hrec).
  apply NoDup_alt. intros i j c Hi Hj.
  apply Hrec in Hi, Hj. congruence.
Qed.

End constants.

(** ** The branch targets of call instructions *)

(** The [targets] array while the setters of [CallInstr] work on it: an
    element is a block or a value that tests false ([undefined], [null]),
    which [None] stands for. *)
Abbreviation TargetSlots := (list (option BlockRef)).

(** The loop [while (!targets[targets.length-1]) targets.pop ();] run for
    at most [fuel] tests of its condition; [None] when the fuel runs out.
    On the empty array the element read is [undefined] and [pop] removes
    nothing. *)
Fixpoint trimTargets (fuel : nat) (slots : TargetSlots) : option TargetSlots :=
  match fuel with
  | 0 => None
  | S fuel =>
      match last slots with
      | Some (Some _) => Some slots
      | _ => trimTargets fuel (removelast slots)
      end
  end.

(** [CallInstr.prototype.setContTarget]; the assignment to element 0 of
    an empty array makes it an array of one element. *)
Definition setContTarget (fuel : nat) (contBlock : option BlockRef)
    (slots : TargetSlots) : option TargetSlots :=
  trimTargets fuel (match slots with
                    | [] => [contBlock]
                    | _ :: rest => contBlock :: rest
                    end).

(** [CallInstr.prototype.getContTarget] *)
Definition getContTarget (slots : TargetSlots) : option BlockRef :=
  match slots with
  | [] => None
  | slot :: _ => slot
  end.

(** [CallInstr.prototype.setThrowTarget] *)
Definition setThrowTarget (fuel : nat) (catchBlock : option BlockRef)
    (slots : TargetSlots) : option TargetSlots :=
  trimTargets fuel (match catchBlock with
                    | Some _ => [mjoin (head slots); catchBlock]
                    | None => [mjoin (head slots)]
                    end).

(** [CallInstr.prototype.getThrowTarget] *)
Definition getThrowTarget (slots : TargetSlots) : option BlockRef :=
  match slots with
  | _ :: slot :: _ => slot
  | _ => None
  end.

Section call_targets.

Implicit Types (slots : TargetSlots) (fuel : nat).

Lemma removelast_snoc {A} (l : list A) (x : A) : removelast (l ++ [x]) = l.
Proof. by rewrite removelast_app, app_nil_r. Qed.

(** Without a block in the array the loop does not end. *)
Lemma trimTargets_diverges slots fuel :
  Forall (λ slot, slot = None) slots → trimTargets fuel slots = None.
Proof.
  revert slots. induction fuel as [|fuel IH]; intros slots Hall; [done|].
  simpl. destruct slots as [|slot rest _] using rev_ind.
  - simpl. by apply IH.
  - apply Forall_app in Hall as [Hrest Hslot].
    apply Forall_singleton in Hslot as ->.
    rewrite last_snoc, removelast_snoc. by apply IH.
Qed.

(** With a block in the array the loop ends, having removed what follows
    the last block. *)
Lemma trimTargets_returns front b back fuel :
  Forall (λ slot, slot = None) back →
  length back < fuel →
  trimTargets fuel (front ++ Some b :: back) = Some (front ++ [Some b]).
Proof.
  revert back. induction fuel as [|fuel IH]; intros back Hall Hfuel; [lia|].
  simpl. destruct back as [|slot rest _] using rev_ind.
  - by rewrite last_snoc.
  - apply Forall_app in Hall as [Hrest Hslot].
    apply Forall_singleton in Hslot as ->.
    rewrite length_app in Hfuel. simpl in Hfuel.
    replace (front ++ Some b :: rest ++ [None])
      with ((front ++ Some b :: rest) ++ [None])
      by (by rewrite <- app_assoc).
    rewrite last_snoc, removelast_snoc. apply IH; [done | lia].
Qed.

(** A list of slots is some blocks-and-holes ending in a block, followed
    by holes, or holes only. *)
Lemma slots_split slots :
  Forall (λ slot, slot = None) slots ∨
  ∃ front b back, slots = front ++ Some b :: back ∧
                  Forall (λ slot, slot = None) back.
Proof.
  induction slots as [|slot rest IH] using rev_ind; [by left|].
  destruct slot as [b|].
  - right. exists rest, b, []. by split.
  - destruct IH as [Hall|(front & b & back & -> & Hback)].
    + left. apply Forall_app. by split; [|apply Forall_singleton].
    + right. exists front, b, (back ++ [None]). split.
      * by rewrite <- app_assoc.
      * apply Forall_app. by split; [|apply Forall_singleton].
Qed.

(** X23.  The setters of call targets do not return in one case each,
    however long the loop is run: [setThrowTarget] when it is given no
    catch block and the instruction has no continuation target, and
    [setContTarget] when it is given no block and no later target is a
    block.  In every other case they return once the fuel exceeds the
    length of the array. *)
Theorem call_target_setters_termination slots given :
  ((∀ fuel, setThrowTarget fuel given slots = None) ↔
   given = None ∧ getContTarget slots = None) ∧
  ((∀ fuel, setContTarget fuel given slots = None) ↔
   given = None ∧ Forall (λ slot, slot = None) (tail slots)) ∧
  (∀ fuel, length slots < fuel →
     (is_Some (setThrowTarget fuel given slots) ↔
      ¬ (given = None ∧ getContTarget slots = None)) ∧
     (is_Some (setContTarget fuel given slots) ↔
      ¬ (given = None ∧ Forall (λ slot, slot = None) (tail slots)))).
Proof.
  assert (mjoin (head slots) = getContTarget slots) as Hhead
    by (by destruct slots).
  assert (match slots with [] => [given] | _ :: rest => given :: rest end
          = given :: tail slots) as Hset by (by destruct slots).
  assert (∀ fuel, 0 < fuel →
            is_Some (setThrowTarget fuel given slots) ↔
            ¬ (given = None ∧ getContTarget slots = None)) as Hthrow.
  { intros fuel Hfuel. unfold setThrowTarget. rewrite Hhead.
    destruct given as [c|].
    - pose proof (trimTargets_returns [getContTarget slots] c [] fuel
                    (List.Forall_nil _) Hfuel) as Hr.
      simpl in Hr. rewrite Hr. split; [by intros _ [? _] | eauto].
    - destruct (getContTarget slots) as [b|].
      + pose proof (trimTargets_returns [] b [] fuel (List.Forall_nil _) Hfuel) as Hr.
        simpl in Hr. rewrite Hr. split; [by intros _ [_ ?] | eauto].
      + rewrite trimTargets_diverges by (by repeat constructor).
        split; [by intros [? ?] | by intros []]. }
  assert (∀ fuel, length slots < fuel →
            is_Some (setContTarget fuel given slots) ↔
            ¬ (given = None ∧ Forall (λ slot, slot = None) (tail slots)))
    as Hcont.
  { intros fuel Hfuel. unfold setContTarget. rewrite Hset.
    assert (length (tail slots) ≤ length slots) as Hlen
      by (destruct slots; simpl; lia).
    destruct (slots_split (tail slots)) as [Hall|(front & b & back & Heq & Hback)].
    - destruct given as [c|].
      + pose proof (trimTargets_returns [] c (tail slots) fuel Hall) as Hr.
        simpl in Hr. rewrite Hr by lia. split; [by intros _ [? _] | eauto].
      + rewrite trimTargets_diverges by (by constructor).
        split; [by intros [? ?] | by intros []].
    - rewrite Heq in Hlen |- *. rewrite length_app in Hlen. simpl in Hlen.
      pose proof (trimTargets_returns (given :: front) b back fuel Hback) as Hr.
      simpl in Hr. rewrite Hr by lia.
      split; [|eauto]. intros _ [_ Hall].
      apply Forall_app in Hall as [_ Hall].
      by apply Forall_cons in Hall as [? _]. }
  split; [|split].
  - split.
    + intros Hnone.
      destruct (decide (given = None ∧ getContTarget slots = None))
        as [|Hno]; [done|].
      apply (Hthrow 1) in Hno as [? Hsome]; [|lia]. by rewrite Hnone in Hsome.
    + intros [-> Hcont0] fuel. unfold setThrowTarget.
      apply trimTargets_diverges. rewrite Hhead, Hcont0. by repeat constructor.
  - split.
    + intros Hnone.
      destruct (decide (given = None ∧ Forall (λ slot, slot = None) (tail slots)))
        as [|Hno]; [done|].
      apply (Hcont (S (length slots))) in Hno as [? Hsome]; [|lia].
      by rewrite Hnone in Hsome.
    + intros [-> Hall] fuel. unfold setContTarget. rewrite Hset.
      apply trimTargets_diverges. by constructor.
  - intros fuel Hfuel. split; [apply Hthrow; lia | by apply Hcont].
Qed.

(** X24.  When the setters return, the getters read back what was set:
    after [setContTarget (contBlock)] the continuation target is
    [contBlock] and the throw target is what it was; after
    [setThrowTarget (catchBlock)] on an instruction with a continuation
    target, the throw target is [catchBlock] (none when none was given),
    the continuation target is what it was, and there are no other
    targets. *)
Theorem call_target_round_trip slots fuel b :
  length slots < fuel →
  (∃ slots', setContTarget fuel (Some b) slots = Some slots' ∧
             getContTarget slots' = Some b ∧
             getThrowTarget slots' = getThrowTarget slots) ∧
  (getContTarget slots = Some b →
   ∀ given, ∃ slots', setThrowTarget fuel given slots = Some slots' ∧
                      getThrowTarget slots' = given ∧
                      getContTarget slots' = Some b ∧
                      length slots' ≤ 2).
Proof.
  intros Hfuel. split.
  - unfold setContTarget.
    assert (match slots with [] => [Some b] | _ :: rest => Some b :: rest end
            = Some b :: tail slots) as -> by (by destruct slots).
    assert (getThrowTarget slots = mjoin (head (tail slots))) as ->
      by (by destruct slots as [|? [|? ?]]).
    assert (length (tail slots) ≤ length slots) as Hlen
      by (destruct slots; simpl; lia).
    destruct (slots_split (tail slots)) as [Hall|(front & c & back & Heq & Hback)].
    + pose proof (trimTargets_returns [] b (tail slots) fuel Hall) as Hr.
      simpl in Hr. rewrite Hr by lia. eexists. split; [done|]. split; [done|].
      simpl. destruct Hall as [|? ? ->]; done.
    + rewrite Heq in Hlen |- *. rewrite length_app in Hlen. simpl in Hlen.
      pose proof (trimTargets_returns (Some b :: front) c back fuel Hback) as Hr.
      simpl in Hr. rewrite Hr by lia. eexists. split; [done|]. split; [done|].
      simpl. by destruct front.
  - intros Hcont given. unfold setThrowTarget.
    assert (mjoin (head slots) = getContTarget slots) as ->
      by (by destruct slots).
    rewrite Hcont. destruct given as [c|].
    + pose proof (trimTargets_returns [Some b] c [] fuel (List.Forall_nil _)) as Hr.
      simpl in Hr. rewrite Hr by lia. eexists. split; [done|]. simpl.
      repeat split; lia.
    + pose proof (trimTargets_returns [] b [] fuel (List.Forall_nil _)) as Hr.
      simpl in Hr. rewrite Hr by lia. eexists. split; [done|]. simpl.
      repeat split; lia.
Qed.

Lemma call_target_round_trip_witness :
  ∃ slots', setContTarget 3 (Some 7) [Some 1; None] = Some slots' ∧
            getContTarget slots' = Some 7.
Proof.
  destruct (call_target_round_trip [Some 1; None] 3 7) as [(slots' & H & Hc & _) _].
  - simpl. lia.
  - by exists slots'.
Defined.

End call_targets.

(** ** Further properties of the x86 backend *)

(** An emitter that only adds calls satisfying [P]. *)
Definition appends (P : AsmCall → Prop) (f : Asm → result Asm) : Prop :=
  ∀ asm asm', f asm = Ok asm' → ∃ out, asm' = asm ++ out ∧ Forall P out.

(** The stack slot in which a callee-save register is kept. *)
Definition saveSlot (stackMap : StackMap) (backend : Backend) (reg : Operand)
  : Operand :=
  asm_mem (regSizeBits backend) (spReg backend)
          (getLocOffset stackMap (getStackLoc stackMap reg)).

(** The adjustment of the stack pointer by the size of the spill area,
    absent when the size is zero. *)
Definition spAdjust (op : string) (stackMap : StackMap) (backend : Backend)
  : Asm :=
  if bool_decide (spillSize stackMap ≠ 0%Z)
  then [{| method := op;
           args := [AOpnd (spReg backend); ANum (spillSize stackMap)] |}]
  else [].

(** The classes of instruction the emitter cannot compile: those without
    a [genCode] method, and [set_ctx], whose method throws. *)
Definition unsupported (c : InstrClass) : bool :=
  match c with
  | KSetCtx | KOther => true
  | _ => false
  end.

(** A backend and parameters with one callee-save register. *)
Definition savingBackend : Backend :=
  {| x86_64 := true; spReg := Register "rsp"; regSizeBits := 64;
     getCallConv := λ _, {| retReg := regs.rax;
                            calleeSave := [Register "rbx"] |} |}.

Definition savingParams : Params :=
  {| params_backend := savingBackend;
     getImmSize := λ _, Some 32; getImmValue := λ _, 1%Z |}.

Section emission.

Variable blocks : BlockRef → BasicBlock.
Variable x86cfg : InstrClass → InstrCfg.

Implicit Types (asm out : Asm) (f g : Asm → result Asm) (P : AsmCall → Prop).
Implicit Types (genInfo : GenInfo) (instr : BackendInstr) (this : InstrCfg).

Lemma appends_ret P : appends P (λ asm, Ok asm).
Proof. intros asm asm' [= <-]. exists []. by rewrite app_nil_r. Qed.

Lemma appends_call P method args :
  P {| method := method; args := args |} →
  appends P (λ asm, Ok (asmCall asm method args)).
Proof.
  intros HP asm asm' [= <-]. eexists. split; [reflexivity|].
  by apply Forall_singleton.
Qed.

Lemma appends_seq P f g :
  appends P f → appends P g → appends P (λ asm, asm' ← f asm; g asm').
Proof.
  intros Hf Hg asm asm' H. apply bind_Ok in H as (asm1 & H1 & H).
  apply Hf in H1 as (out1 & -> & Hout1). apply Hg in H as (out & -> & Hout).
  exists (out1 ++ out). rewrite app_assoc. split; [done|]. by apply Forall_app.
Qed.

Lemma forEachAsm_appends {A} P (array : list A) (body : Asm → A → result Asm) :
  (∀ x, x ∈ array → appends P (λ asm, body asm x)) →
  appends P (λ asm, forEachAsm asm array body).
Proof.
  induction array as [|x rest IH]; intros Hbody; simpl.
  - apply appends_ret.
  - apply (appends_seq P (λ asm, body asm x)).
    + apply Hbody. by left.
    + apply IH. intros y Hy. apply Hbody. by right.
Qed.

(** A loop whose body is one call adds one call for each element. *)
Lemma forEachAsm_calls {A} (array : list A) (op : string)
    (argsOf : A → list AsmArg) asm :
  forEachAsm asm array (λ asm x, Ok (asmCall asm op (argsOf x)))
  = Ok (asm ++ map (λ x, {| method := op; args := argsOf x |}) array).
Proof.
  revert asm. induction array as [|x rest IH]; intros asm; simpl.
  - by rewrite app_nil_r.
  - rewrite IH. unfold asmCall. by rewrite <- app_assoc.
Qed.

(** A loop fails when its body fails on one of the elements. *)
Lemma forEachAsm_fails {A} (array : list A) (body : Asm → A → result Asm) x asm :
  x ∈ array → (∀ asm, isOk (body asm x) = false) →
  isOk (forEachAsm asm array body) = false.
Proof.
  intros Hin Hx. revert asm.
  induction array as [|y rest IH]; intros asm; [by apply elem_of_nil in Hin|].
  simpl. apply elem_of_cons in Hin as [<-|Hin].
  - specialize (Hx asm). by destruct (body asm x).
  - destruct (body asm y) as [asm1|]; [by apply IH | done].
Qed.

(** X25.  The prologue of a function and the code of its [ret]
    instruction mirror each other: the prologue lowers the stack pointer
    by the spill size and then stores each callee-save register in its
    slot; [ret] reloads each register from the same slot, in the same
    order, then raises the stack pointer by the same size, and returns.
    The adjustment is absent on both sides when the spill size is zero,
    and the code of [ret] reads neither its operands nor its
    destination. *)
Theorem prologue_epilogue_mirror this instr opnds dest scratch genInfo :
  let stackMap := gi_stackMap genInfo in
  let backend := gi_backend genInfo in
  let saved := calleeSave (gi_callConv genInfo) in
  emitPrologue stackMap (gi_callConv genInfo) backend []
  = Ok (spAdjust "sub" stackMap backend ++
        map (λ reg, {| method := "mov";
                       args := [AOpnd (saveSlot stackMap backend reg);
                                AOpnd reg] |}) saved)
  ∧
  RetInstr_genCode this [] instr opnds dest scratch genInfo
  = Ok (map (λ reg, {| method := "mov";
                       args := [AOpnd reg;
                                AOpnd (saveSlot stackMap backend reg)] |}) saved ++
        spAdjust "add" stackMap backend ++
        [{| method := "ret"; args := [] |}]).
Proof.
  intros stackMap backend saved. split.
  - unfold emitPrologue.
    rewrite (forEachAsm_calls saved "mov"
               (λ reg, [AOpnd (saveSlot stackMap backend reg); AOpnd reg])).
    unfold spAdjust. fold stackMap. by destruct (bool_decide _).
  - unfold RetInstr_genCode. fold stackMap backend saved.
    rewrite (forEachAsm_calls saved "mov"
               (λ reg, [AOpnd reg; AOpnd (saveSlot stackMap backend reg)])).
    simpl. unfold spAdjust, asmCall.
    destruct (bool_decide _); simpl; [|done]. by rewrite <- app_assoc.
Qed.

Lemma insertMove_appends_safe (move : Move) (params : Params) :
  appends (λ c, memToMemMov c = false) (λ asm, insertMove asm move params).
Proof. intros asm asm'. apply insertMove_Ok_safe. Qed.

Lemma insertEdgeTrans_appends_safe (pred succ : BlockRef) (succId : nat)
    (mergeMoves : gmap (BlockRef * BlockRef) (list Move))
    (blockLabels : gmap nat Label)
    (edgeLabels : gmap (BlockRef * BlockRef) Label) (params : Params) :
  appends (λ c, memToMemMov c = false)
          (λ asm, insertEdgeTrans asm pred succ succId mergeMoves blockLabels
                    edgeLabels params).
Proof.
  intros asm asm'. unfold insertEdgeTrans. intros H.
  apply bind_Ok in H as (transLabel & _ & H).
  apply bind_Ok in H as (moves & _ & H).
  apply bind_Ok in H as (asm1 & H1 & [= <-]).
  apply insertMoves_no_mem_to_mem in H1 as (out & -> & Hout).
  exists ({| method := "addInstr"; args := [ALabel transLabel] |} :: out ++
          [{| method := "jmp"; args := [labelArg (blockLabels !! succId)] |}]).
  split.
  - unfold asmCall. by rewrite <- !app_assoc.
  - constructor; [done|]. apply Forall_app. split; [done|].
    by apply Forall_singleton.
Qed.

Lemma genCode_appends_safe c genCode this instr opnds dest scratch genInfo :
  Forall (λ reg, isMemLoc reg = false) (calleeSave (gi_callConv genInfo)) →
  x86_genCode c = Some genCode →
  appends (λ c, memToMemMov c = false)
          (λ asm, genCode this asm instr opnds dest scratch genInfo).
Proof.
  intros Hsaved Hc.
  destruct c; simpl in Hc; try discriminate; injection Hc as <-.
  - apply appends_ret.
  - intros asm asm'. discriminate.
  - by apply appends_call.
  - by apply appends_call.
  - unfold MulInstr_genCode.
    destruct (isUnsigned _).
    + intros asm asm' H. apply bind_Ok in H as ([] & _ & H). revert H.
      by apply (appends_call _ "mul").
    + destruct (opndIsImmediate opnds 0); [by apply appends_call|].
      destruct (opndIsImmediate opnds 1); by apply appends_call.
  - unfold ModInstr_genCode. intros asm asm' H.
    apply bind_Ok in H as (ty & _ & H).
    destruct (isUnsigned ty); [|destruct (x86_64 _)]; injection H as <-;
      unfold asmCall; rewrite <- app_assoc;
      (eexists; split; [reflexivity|]); by repeat constructor.
  - unfold LsftInstr_genCode.
    destruct (opndIsImmediate opnds 1); [by apply appends_call|].
    intros asm asm' [= <-]. unfold asmCall. rewrite <- app_assoc.
    eexists. split; [reflexivity|].
    repeat constructor. unfold memToMemMov, opndArg. simpl.
    by destruct (opnds !! 1).
  - by apply appends_call.
  - unfold JumpInstr_genCode. intros asm asm' H.
    apply bind_Ok in H as (label & _ & H). revert H.
    by apply (appends_call _ "jmp").
  - unfold IfInstr_genCode. intros asm asm' H.
    apply bind_Ok in H as (trueLabel & _ & H).
    apply bind_Ok in H as (falseLabel & _ & H).
    assert (∀ sgn jmp inv,
              sgn ≠ "mov" → jmp ≠ "mov" →
              genCmp asm instr opnds trueLabel falseLabel sgn jmp inv = Ok asm' →
              ∃ out, asm' = asm ++ out ∧ Forall (λ c, memToMemMov c = false) out)
      as Hcmp.
    { intros sgn jmp inv Hsgn Hjmp. unfold genCmp.
      assert (∀ op l, op ≠ "mov" →
                memToMemMov {| method := op; args := [ALabel l] |} = false)
        as Hlabel.
      { intros op l Hop. unfold memToMemMov. simpl.
        by rewrite bool_decide_eq_false_2. }
      destruct (opndIsImmediate opnds 0); [destruct inv|];
        (destruct (inputAt _ 0) as [use0|]; simpl; [|discriminate]);
        destruct (isSigned _ || _); intros [= <-]; unfold asmCall;
        rewrite <- !app_assoc; (eexists; split; [reflexivity|]);
        repeat constructor; by apply Hlabel. }
    destruct (testOp instr) as [op|]; [|discriminate].
    repeat (destruct op as [|[[] [] [] [] [] [] [] []] op]; try discriminate);
      by apply Hcmp in H.
  - unfold RetInstr_genCode. intros asm asm' H.
    apply bind_Ok in H as (asm1 & H1 & [= <-]).
    rewrite forEachAsm_calls in H1. injection H1 as <-.
    assert (Forall (λ c, memToMemMov c = false)
              (map (λ reg, {| method := "mov";
                              args := [AOpnd reg;
                                       AOpnd (asm_mem (regSizeBits (gi_backend genInfo))
                                                (spReg (gi_backend genInfo))
                                                (getLocOffset (gi_stackMap genInfo)
                                                   (getStackLoc (gi_stackMap genInfo) reg)))] |})
                   (calleeSave (gi_callConv genInfo)))) as Hmovs.
    { apply Forall_forall. intros c Hin.
      apply list_elem_of_fmap in Hin as (reg & -> & Hreg).
      rewrite Forall_forall in Hsaved. unfold memToMemMov. simpl.
      by rewrite (Hsaved reg Hreg). }
    destruct (bool_decide _); unfold asmCall; rewrite <- !app_assoc;
      (eexists; split; [reflexivity|]);
      (apply Forall_app; split; [exact Hmovs | by repeat constructor]).
  - by apply appends_call.
Qed.

Lemma emitInstr_appends_safe (allocInfo : AllocInfo) genInfo
    (params : Params) instr :
  Forall (λ reg, isMemLoc reg = false) (calleeSave (gi_callConv genInfo)) →
  appends (λ c, memToMemMov c = false)
          (λ asm, emitInstr x86cfg allocInfo genInfo params asm instr).
Proof.
  intros Hsaved. unfold emitInstr.
  destruct (isPseudoInstr (cls instr)); [apply appends_ret|].
  destruct (x86_genCode (cls instr)) as [genCode|] eqn:Hc;
    [|intros asm asm'; discriminate].
  destruct (instrMap allocInfo !! instrId (ir instr)) as [instrAlloc|];
    [|intros asm asm'; discriminate].
  simpl.
  apply (appends_seq _
           (λ asm, forEachAsm asm (preMoves instrAlloc)
                     (λ asm move, insertMove asm move params))).
  - apply forEachAsm_appends. intros move _. apply insertMove_appends_safe.
  - by apply (genCode_appends_safe (cls instr)).
Qed.

Lemma emitBlock_appends_safe (allocInfo : AllocInfo)
    (blockLabels : gmap nat Label)
    (edgeLabels : gmap (BlockRef * BlockRef) Label) (genInfo : GenInfo)
    (params : Params) (block : BlockRef) :
  Forall (λ reg, isMemLoc reg = false) (calleeSave (gi_callConv genInfo)) →
  appends (λ c, memToMemMov c = false)
          (λ asm, emitBlock blocks x86cfg allocInfo blockLabels edgeLabels
                    genInfo params asm block).
Proof.
  intros Hsaved. unfold emitBlock.
  apply (appends_seq _
           (λ asm, forEachAsm asm (preds (blocks block)) _)
           (λ asm, asm' ← forEachAsm (asmCall asm "addInstr" _) _ _; _)).
  - apply forEachAsm_appends. intros pred _.
    destruct (bool_decide _);
      [apply appends_ret | apply insertEdgeTrans_appends_safe].
  - apply (appends_seq _ (λ asm, Ok (asmCall asm "addInstr" _))
                         (λ asm, asm' ← forEachAsm asm _ _; _));
      [by apply appends_call|].
    apply (appends_seq _ (λ asm, forEachAsm asm (instrs (blocks block)) _)).
    + apply forEachAsm_appends. intros instr _.
      by apply emitInstr_appends_safe.
    + destruct (bool_decide _); [|apply appends_ret].
      destruct (succs (blocks block) !! 0); [|apply appends_ret].
      apply insertEdgeTrans_appends_safe.
Qed.

(** X26.  When no callee-save register of the calling convention is a
    memory location, the code [x86.irToASM] produces for a function holds
    no [mov] from a memory location to a memory location, whatever the
    blocks, the instructions and the moves of the allocation plan are. *)
Theorem irToASM_no_mem_to_mem (cProxy : bool) (blockOrder : list BlockRef)
    (allocInfo : AllocInfo) (backend : Backend) (params : Params) out :
  Forall (λ reg, isMemLoc reg = false)
         (calleeSave (getCallConv (params_backend params) cProxy)) →
  irToASM blocks x86cfg cProxy blockOrder allocInfo backend params = Ok out →
  Forall (λ c, memToMemMov c = false) out.
Proof.
  intros Hsaved. unfold irToASM. intros H.
  apply bind_Ok in H as (asm1 & H1 & H).
  unfold emitPrologue in H1. rewrite forEachAsm_calls in H1.
  injection H1 as <-.
  match type of H with
  | forEachAsm _ _ ?body = _ =>
      assert (appends (λ c, memToMemMov c = false)
                (λ asm, forEachAsm asm blockOrder body)) as Hloop
  end.
  { apply forEachAsm_appends. intros block _.
    by apply emitBlock_appends_safe. }
  apply Hloop in H as (code & -> & Hcode).
  apply Forall_app. split; [|done].
  apply Forall_app. split.
  - destruct (bool_decide _); by repeat constructor.
  - apply Forall_forall. intros c Hin.
    apply list_elem_of_fmap in Hin as (reg & -> & Hreg).
    rewrite Forall_forall in Hsaved. unfold memToMemMov. simpl.
    by rewrite (Hsaved reg Hreg).
Qed.

(** X27.  A move that [x86.insertMove] accepts adds exactly one call.
    It is a [nop] exactly when the source is neither an operand nor a
    constant whose immediate encoding fits in a register, so such a move
    leaves its destination unwritten; otherwise it is a [mov] whose first
    operand is the destination. *)
Theorem insertMove_single_call asm (move : Move) (params : Params) asm' :
  insertMove asm move params = Ok asm' →
  ∃ dst c,
    move_dst move = DstOpnd dst ∧ asm' = asm ++ [c] ∧
    (c = {| method := "nop"; args := [] |} ↔
     match move_src move with
     | SrcOpnd _ => False
     | SrcConst k =>
         ∀ size, getImmSize params k = Some size →
                 regSizeBits (params_backend params) < size
     | SrcOther => True
     end) ∧
    (c ≠ {| method := "nop"; args := [] |} →
     method c = "mov" ∧ args c !! 0 = Some (AOpnd dst)).
Proof.
  unfold insertMove. intros H.
  destruct (move_dst move) as [dst|]; [|discriminate]. simpl in H.
  exists dst. destruct (move_src move) as [src|k|].
  - apply bind_Ok in H as ([] & _ & [= <-]).
    eexists. split; [done|]. split; [done|]. split; [|done].
    split; [discriminate | done].
  - destruct (getImmSize params k) as [size|].
    + destruct (decide (size ≤ regSizeBits (params_backend params))).
      * rewrite bool_decide_eq_true_2 in H by done. injection H as <-.
        eexists. split; [done|]. split; [done|]. split; [|done].
        split; [discriminate|]. intros Hall. specialize (Hall size eq_refl). lia.
      * rewrite bool_decide_eq_false_2 in H by done. injection H as <-.
        eexists. split; [done|]. split; [done|]. split; [|done].
        split; [|done]. intros _ size' [= <-]. lia.
    + injection H as <-. eexists. split; [done|]. split; [done|].
      split; [|done]. split; [|done]. by intros _ size'.
  - injection H as <-. eexists. split; [done|]. split; [done|].
    split; [|done]. done.
Qed.

Lemma insertMove_single_call_witness :
  ∃ c, insertMove [] {| move_src := SrcOther; move_dst := DstOpnd regs.rax |}
                  savingParams = Ok [c] ∧
       c = {| method := "nop"; args := [] |}.
Proof.
  destruct (insertMove_single_call []
              {| move_src := SrcOther; move_dst := DstOpnd regs.rax |}
              savingParams _ eq_refl) as (dst & c & _ & Heq & Hnop & _).
  exists c. split; [by injection Heq as <- | by apply Hnop].
Defined.

Lemma genCmp_shape asm instr opnds (trueLabel falseLabel : Label)
    (jmpTrueSgn jmpTrue : string) (invSens : bool) asm' :
  genCmp asm instr opnds trueLabel falseLabel jmpTrueSgn jmpTrue invSens
  = Ok asm' →
  let swapped := opndIsImmediate opnds 0 in
  let inverted := swapped && invSens in
  ∃ jcc,
    (jcc = jmpTrueSgn ∨ jcc = jmpTrue) ∧
    asm' = asm ++
      [{| method := "cmp";
          args := if swapped then [opndArg opnds 1; opndArg opnds 0]
                  else [opndArg opnds 0; opndArg opnds 1] |};
       {| method := jcc;
          args := [ALabel (if inverted then falseLabel else trueLabel)] |};
       {| method := "jmp";
          args := [ALabel (if inverted then trueLabel else falseLabel)] |}].
Proof.
  unfold genCmp.
  destruct (opndIsImmediate opnds 0); [destruct invSens|];
    (destruct (inputAt _ 0) as [use0|]; simpl; [|discriminate]);
    destruct (isSigned _ || _); intros [= <-]; unfold asmCall;
    rewrite <- !app_assoc; eexists; (split; [|reflexivity]); tauto.
Qed.

(** X28.  The code of an [if] instruction, when it is generated, is
    three calls: a [cmp], one conditional jump among [jl], [jb], [je],
    [jne], and a [jmp].  With an immediate as operand 0 the operands of
    [cmp] are exchanged; for the test [LT] the two labels are then
    exchanged as well, and for [EQ] and [NE] they are not.  A test other
    than [LT], [EQ], [NE] generates nothing. *)
Theorem IfInstr_genCode_shape this asm instr opnds dest scratch genInfo asm' :
  IfInstr_genCode this asm instr opnds dest scratch genInfo = Ok asm' →
  ∃ trueLabel falseLabel jcc,
    targetEdgeLabel genInfo instr 0 = Ok trueLabel ∧
    targetEdgeLabel genInfo instr 1 = Ok falseLabel ∧
    testOp instr ∈ [Some "LT"; Some "EQ"; Some "NE"] ∧
    jcc ∈ ["jl"; "jb"; "je"; "jne"] ∧
    let swapped := opndIsImmediate opnds 0 in
    let inverted := swapped && bool_decide (testOp instr = Some "LT") in
    asm' = asm ++
      [{| method := "cmp";
          args := if swapped then [opndArg opnds 1; opndArg opnds 0]
                  else [opndArg opnds 0; opndArg opnds 1] |};
       {| method := jcc;
          args := [ALabel (if inverted then falseLabel else trueLabel)] |};
       {| method := "jmp";
          args := [ALabel (if inverted then trueLabel else falseLabel)] |}].
Proof.
  unfold IfInstr_genCode. intros H.
  apply bind_Ok in H as (trueLabel & Htrue & H).
  apply bind_Ok in H as (falseLabel & Hfalse & H).
  exists trueLabel, falseLabel.
  destruct (testOp instr) as [op|]; [|discriminate].
  repeat (destruct op as [|[[] [] [] [] [] [] [] []] op]; try discriminate);
    apply genCmp_shape in H as (jcc & Hjcc & ->); exists jcc;
    (split; [done|]); (split; [done|]);
    (split; [by repeat constructor|]);
    (split; [destruct Hjcc as [->| ->]; by repeat constructor|]);
    cbn zeta; by rewrite ?andb_false_r, ?andb_true_r.
Qed.

Lemma IfInstr_genCode_shape_witness :
  ∃ asm' jcc,
    IfInstr_genCode (noPolicyType KIf) []
      (branchInstr KIf 0 0 [valueOfType IRType.box; valueOfType IRType.box]
                   [1; 2] (Some "LT"))
      [Immediate 5; regs.rax] None []
      (irGenInfo diamondBlocks false [0; 1; 2; 3] diamondAlloc diamondBackend
                 diamondParams) = Ok asm' ∧
    asm' = [{| method := "cmp"; args := [AOpnd regs.rax; AOpnd (Immediate 5)] |};
            {| method := jcc;
               args := [ALabel (edgeLabelOf diamondBlocks 0 2)] |};
            {| method := "jmp";
               args := [ALabel (edgeLabelOf diamondBlocks 0 1)] |}].
Proof.
  eexists. 
  destruct (IfInstr_genCode_shape (noPolicyType KIf) []
              (branchInstr KIf 0 0 [valueOfType IRType.box; valueOfType IRType.box]
                           [1; 2] (Some "LT"))
              [Immediate 5; regs.rax] None []
              (irGenInfo diamondBlocks false [0; 1; 2; 3] diamondAlloc
                         diamondBackend diamondParams) _ ltac:(vm_compute; reflexivity))
    as (trueLabel & falseLabel & jcc & Htrue & Hfalse & _ & _ & Heq).
  exists jcc. split; [vm_compute; reflexivity|].
  vm_compute in Htrue, Hfalse. injection Htrue as <-. injection Hfalse as <-.
  exact Heq.
Defined.

Lemma targetEdgeLabel_edge (cProxy : bool) (blockOrder : list BlockRef)
    (allocInfo : AllocInfo) (backend : Backend) (params : Params) instr
    (i : nat) (l : Label) :
  targetEdgeLabel (irGenInfo blocks cProxy blockOrder allocInfo backend params)
                  instr i = Ok l →
  ∃ p s, parentBlock (ir instr) = Some p ∧ targets (ir instr) !! i = Some s ∧
         p ∈ blockOrder ∧ s ∈ succs (blocks p) ∧ l = edgeLabelOf blocks p s.
Proof.
  unfold targetEdgeLabel. intros H.
  destruct (parentBlock (ir instr)) as [p|]; [|discriminate].
  destruct (targets (ir instr) !! i) as [s|]; [|discriminate].
  apply getItem_Ok in H. simpl in H.
  apply makeLabels_edge in H as (Hp & Hs & ->). by exists p, s.
Qed.

(** X29.  In a run of [x86.irToASM] the code generated for a [jump] or
    an [if] instruction branches to edge labels only, never to the label
    of a block: every label it names is the label created for the edge
    from the block of the instruction, which is in the block order, to
    one of the instruction's targets, which is a successor of that block.
    For a [jump] the code is the single [jmp]. *)
Theorem branch_code_targets_edges (cProxy : bool) (blockOrder : list BlockRef)
    (allocInfo : AllocInfo) (backend : Backend) (params : Params)
    (c : InstrClass) genCode this asm instr opnds dest scratch asm' :
  c = KJump ∨ c = KIf →
  x86_genCode c = Some genCode →
  genCode this asm instr opnds dest scratch
          (irGenInfo blocks cProxy blockOrder allocInfo backend params)
  = Ok asm' →
  ∃ out,
    asm' = asm ++ out ∧
    (c = KJump → ∃ l, out = [{| method := "jmp"; args := [ALabel l] |}]) ∧
    Forall (λ call, ∀ l, ALabel l ∈ args call →
              ∃ p s, parentBlock (ir instr) = Some p ∧
                     s ∈ targets (ir instr) ∧
                     p ∈ blockOrder ∧ s ∈ succs (blocks p) ∧
                     l = edgeLabelOf blocks p s) out.
Proof.
  intros Hc Hgen H.
  assert (∀ i l,
            targetEdgeLabel
              (irGenInfo blocks cProxy blockOrder allocInfo backend params)
              instr i = Ok l →
            ∃ p s, parentBlock (ir instr) = Some p ∧ s ∈ targets (ir instr) ∧
                   p ∈ blockOrder ∧ s ∈ succs (blocks p) ∧
                   l = edgeLabelOf blocks p s) as Hedge.
  { intros i l Hl.
    apply targetEdgeLabel_edge in Hl as (p & s & Hp & Hs & Hin & Hsucc & ->).
    exists p, s. repeat split; try done. by eapply list_elem_of_lookup_2. }
  assert (∀ l i j, ALabel l ∉ [opndArg opnds i; opndArg opnds j]) as Hopnd.
  { intros l i j Hin. unfold opndArg in Hin.
    apply elem_of_cons in Hin as [Hin|Hin%list_elem_of_singleton].
    - by destruct (opnds !! i).
    - by destruct (opnds !! j). }
  destruct Hc as [-> | ->]; simpl in Hgen; injection Hgen as <-.
  - unfold JumpInstr_genCode in H.
    apply bind_Ok in H as (label & Hlabel & [= <-]).
    eexists. split; [reflexivity|]. split; [by exists label|].
    apply Forall_singleton. simpl. intros l Hl%list_elem_of_singleton.
    injection Hl as ->. by apply (Hedge 0).
  - unfold IfInstr_genCode in H.
    apply bind_Ok in H as (trueLabel & Htrue & H).
    apply bind_Ok in H as (falseLabel & Hfalse & H).
    apply Hedge in Htrue, Hfalse.
    destruct (testOp instr) as [op|]; [|discriminate].
    repeat (destruct op as [|[[] [] [] [] [] [] [] []] op]; try discriminate);
      apply genCmp_shape in H as (jcc & _ & ->);
      (eexists; split; [reflexivity|]); (split; [discriminate|]);
      repeat apply List.Forall_cons; try apply List.Forall_nil; simpl;
      try (intros l Hl; exfalso; revert Hl;
           destruct (opndIsImmediate opnds 0); apply Hopnd);
      intros l Hl%list_elem_of_singleton; injection Hl as ->;
      by destruct (_ && _).
Qed.

(** X30.  A function with an instruction the backend cannot compile is
    never compiled: when a block of the order holds a [set_ctx]
    instruction, or an instruction of a class without a [genCode] method
    that is not a pseudo-instruction, [x86.irToASM] throws, whatever the
    allocation plan is. *)
Theorem irToASM_unsupported (cProxy : bool) (blockOrder : list BlockRef)
    (allocInfo : AllocInfo) (backend : Backend) (params : Params)
    (block : BlockRef) instr :
  block ∈ blockOrder →
  instr ∈ instrs (blocks block) →
  unsupported (cls instr) = true →
  isOk (irToASM blocks x86cfg cProxy blockOrder allocInfo backend params)
  = false.
Proof.
  intros Hblock Hinstr Hcls. unfold irToASM, emitPrologue.
  rewrite forEachAsm_calls. simpl.
  apply (forEachAsm_fails _ _ block); [done|]. intros asm.
  unfold emitBlock.
  destruct (forEachAsm asm (preds (blocks block)) _) as [asm1|]; [|done].
  simpl.
  match goal with
  | |- context [forEachAsm ?a (instrs (blocks block)) ?body] =>
      pose proof (forEachAsm_fails (instrs (blocks block)) body instr a Hinstr)
        as Hfail
  end.
  destruct (forEachAsm _ (instrs (blocks block)) _) as [asm2|]; [|done].
  discriminate Hfail. intros asm0. unfold emitInstr.
  destruct (cls instr); try discriminate; simpl; [|done].
  destruct (instrMap allocInfo !! instrId (ir instr)) as [instrAlloc|]; [|done].
  simpl. by destruct (forEachAsm asm0 (preMoves instrAlloc) _).
Qed.

End emission.

(** A function of one block, whose only instruction sets the context. *)
Definition setCtxBlocks (r : BlockRef) : BasicBlock :=
  {| blockId := 0; blockName := "entry"; preds := []; succs := [];
     instrs := [branchInstr KSetCtx 0 0 [valueOfType IRType.rptr] [] None] |}.

Section emission_examples.

Lemma branch_code_targets_edges_witness :
  ∃ asm',
    JumpInstr_genCode (noPolicyType KJump) [] (branchInstr KJump 1 1 [] [3] None)
      [] None []
      (irGenInfo diamondBlocks false [0; 1; 2; 3] diamondAlloc diamondBackend
                 diamondParams) = Ok asm' ∧
    ∃ l, asm' = [{| method := "jmp"; args := [ALabel l] |}].
Proof.
  eexists. split; [vm_compute; reflexivity|].
  destruct (branch_code_targets_edges diamondBlocks false [0; 1; 2; 3]
              diamondAlloc diamondBackend diamondParams KJump JumpInstr_genCode
              (noPolicyType KJump) [] (branchInstr KJump 1 1 [] [3] None)
              [] None [] _ (or_introl eq_refl) eq_refl
              ltac:(vm_compute; reflexivity))
    as (out & Heq & Hjmp & _).
  simpl in Heq. rewrite Heq. by apply Hjmp.
Defined.

Lemma irToASM_unsupported_witness :
  isOk (irToASM setCtxBlocks noPolicyType false [0] diamondAlloc diamondBackend
                diamondParams) = false.
Proof.
  apply (irToASM_unsupported setCtxBlocks noPolicyType false [0] diamondAlloc
           diamondBackend diamondParams 0
           (branchInstr KSetCtx 0 0 [valueOfType IRType.rptr] [] None)).
  - by left.
  - by left.
  - reflexivity.
Defined.

Lemma irToASM_no_mem_to_mem_witness :
  ∃ out,
    irToASM diamondBlocks noPolicyType false [0; 1; 2; 3] diamondAlloc
            savingBackend savingParams = Ok out ∧
    Forall (λ c, memToMemMov c = false) out.
Proof.
  eexists. split; [vm_compute; reflexivity|].
  apply (irToASM_no_mem_to_mem diamondBlocks noPolicyType false [0; 1; 2; 3]
           diamondAlloc savingBackend savingParams).
  - by repeat constructor.
  - vm_compute. reflexivity.
Defined.

End emission_examples.
